(** * MotionSignal: the numeric pipeline and the visibility resolver

    A shallow embedding of [src/services/dsp.ts] (feature extraction and
    channel refinement), of the second revision of that file kept as
    [src/unnamed/part_001], of the logic of the application component
    ([src/unnamed/part_000]: import of files, channel states, signal
    preview, playback cursor and export), and of the chart data and the
    zoom of [src/components/Timeline.tsx].

    Numbers.  A JavaScript number is [number]: a real, [NaN] or one of the
    two infinities, with the IEEE results for the special cases; zero has
    no sign.  A typed array of floats keeps the float32 nearest to what is
    stored in it ([ToFloat32]).  An operation on doubles returns the
    double nearest to the exact result, or an infinity ([Float64]), in
    [refineChannel] and in the mix-down of [unnamed/part_001], whose
    results are stored as float32 numbers, and wherever a result is turned
    into an integer: the frame count and the samples per frame of the
    extraction, the quantize step, the frame of the signal preview and the
    arithmetic of the chart data.  The sums and ratios of the frame loop,
    the phases and the playback cursor are computed exactly: there the
    rounding of doubles and their overflow are not modelled. *)

From Stdlib Require Import Reals Lra Lia ZArith String Bool.
From Stdlib Require Import Zfloor.
From stdpp Require Import base list.

Local Open Scope R_scope.

(** [new Float32Array(n)]: [n] zeroes. *)
Definition new_Float32Array {A} (zero : A) (n : nat) : list A := replicate n zero.

(** ** Binary floating point *)

Definition pow2 (e : Z) : R := powerRZ 2 e.

(** The nearest integer, a tie going to the even one. *)
Definition round_even (y : R) : Z :=
  let f := Zfloor y in
  if Rlt_dec (y - IZR f) (/ 2) then f
  else if Rlt_dec (/ 2) (y - IZR f) then (f + 1)%Z
  else if Z.even f then f else (f + 1)%Z.

Section Binary.

(** A binary format: [prec] bits of precision, and normal numbers with
    the exponents [emin] to [emin + span]. *)
Variables (prec emin : Z) (span : nat).

(** The exponent of [y >= 0]: the largest [e] of the format with
    [2^e <= y], and [emin] when there is none (zero and the subnormals). *)
Fixpoint binade_scan (n : nat) (y : R) : Z :=
  match n with
  | O => emin
  | S k =>
      if Rle_dec (pow2 (emin + Z.of_nat (S k))) y then (emin + Z.of_nat (S k))%Z
      else binade_scan k y
  end.

Definition binade (y : R) : Z := binade_scan span y.

(** The distance between the numbers of the format around [y]. *)
Definition ulp (y : R) : R := pow2 (binade y - prec + 1).

(** Rounding to the nearest number of the format, ties to even, with no
    bound on the result. *)
Definition round_pos (y : R) : R := IZR (round_even (y / ulp y)) * ulp y.

Definition round_nearest (x : R) : R :=
  if Rlt_dec x 0 then - round_pos (- x) else round_pos x.

End Binary.

(** The float32 nearest to a real, before overflow, and the double
    nearest to it. *)
Definition float32 (x : R) : R := round_nearest 24 (-126) 253 x.

Definition float64 (x : R) : R := round_nearest 53 (-1022) 2045 x.

(** ** JavaScript numbers with their special values *)

(** Finite numbers are reals.  Zero has no sign: a division by zero takes
    the sign of the dividend. *)
Inductive number := Fin (r : R) | NaN | PInf | NInf.

Module Num.

Definition neg (x : number) : number :=
  match x with
  | Fin r => Fin (- r)
  | NaN => NaN
  | PInf => NInf
  | NInf => PInf
  end.

Definition add (x y : number) : number :=
  match x, y with
  | NaN, _ | _, NaN => NaN
  | Fin a, Fin b => Fin (a + b)
  | PInf, NInf | NInf, PInf => NaN
  | PInf, _ | _, PInf => PInf
  | NInf, _ | _, NInf => NInf
  end.

Definition sub (x y : number) : number := add x (neg y).

(** An infinity ([positive] or not) times a finite number. *)
Definition inf_times (positive : bool) (r : R) : number :=
  if Req_dec_T r 0 then NaN
  else if Rlt_dec 0 r then (if positive then PInf else NInf)
  else (if positive then NInf else PInf).

Definition mul (x y : number) : number :=
  match x, y with
  | NaN, _ | _, NaN => NaN
  | Fin a, Fin b => Fin (a * b)
  | PInf, Fin b | Fin b, PInf => inf_times true b
  | NInf, Fin b | Fin b, NInf => inf_times false b
  | PInf, PInf | NInf, NInf => PInf
  | PInf, NInf | NInf, PInf => NInf
  end.

Definition div (x y : number) : number :=
  match x, y with
  | NaN, _ | _, NaN => NaN
  | Fin a, Fin b =>
      if Req_dec_T b 0 then
        (if Req_dec_T a 0 then NaN else if Rlt_dec 0 a then PInf else NInf)
      else Fin (a / b)
  | Fin _, (PInf | NInf) => Fin 0
  | (PInf | NInf), (PInf | NInf) => NaN
  | PInf, Fin b => if Rlt_dec b 0 then NInf else PInf
  | NInf, Fin b => if Rlt_dec b 0 then PInf else NInf
  end.

(** [x < y]; false as soon as one side is [NaN]. *)
Definition ltb (x y : number) : bool :=
  match x, y with
  | NaN, _ | _, NaN => false
  | Fin a, Fin b => if Rlt_dec a b then true else false
  | PInf, _ => false
  | _, NInf => false
  | NInf, _ => true
  | Fin _, PInf => true
  end.

(** [x <= y] and [x === y]; false as soon as one side is [NaN]. *)
Definition leb (x y : number) : bool :=
  match x, y with
  | NaN, _ | _, NaN => false
  | Fin a, Fin b => if Rle_dec a b then true else false
  | NInf, _ | _, PInf => true
  | PInf, _ | _, NInf => false
  end.

Definition eqb (x y : number) : bool :=
  match x, y with
  | Fin a, Fin b => if Req_dec_T a b then true else false
  | PInf, PInf | NInf, NInf => true
  | _, _ => false
  end.

(** Rounding toward zero. *)
Definition trunc (r : R) : Z := if Rle_dec 0 r then Zfloor r else Zceil r.

(** [x % y]: the remainder takes the sign of the dividend. *)
Definition rem (x y : number) : number :=
  match x, y with
  | Fin a, Fin b =>
      if Req_dec_T b 0 then NaN else Fin (a - b * IZR (trunc (a / b)))
  | Fin a, (PInf | NInf) => Fin a
  | _, _ => NaN
  end.

End Num.

Declare Scope num_scope.
Delimit Scope num_scope with num.
Bind Scope num_scope with number.
Infix "+" := Num.add : num_scope.
Infix "-" := Num.sub : num_scope.
Infix "*" := Num.mul : num_scope.
Infix "/" := Num.div : num_scope.
Infix "%%" := Num.rem (at level 40, left associativity) : num_scope.
Infix "<?" := Num.ltb : num_scope.
Infix "<=?" := Num.leb : num_scope.
Infix "=?" := Num.eqb : num_scope.

Definition Math_min (x y : number) : number :=
  match x, y with
  | NaN, _ | _, NaN => NaN
  | _, _ => if Num.ltb y x then y else x
  end.

Definition Math_max (x y : number) : number :=
  match x, y with
  | NaN, _ | _, NaN => NaN
  | _, _ => if Num.ltb x y then y else x
  end.

Definition Math_abs (x : number) : number :=
  match x with
  | Fin r => Fin (Rabs r)
  | NaN => NaN
  | PInf | NInf => PInf
  end.

Definition Math_sqrt (x : number) : number :=
  match x with
  | Fin r => if Rlt_dec r 0 then NaN else Fin (sqrt r)
  | PInf => PInf
  | NaN | NInf => NaN
  end.

Definition Math_ceil (x : number) : number :=
  match x with Fin r => Fin (IZR (Zceil r)) | _ => x end.

Definition Math_floor (x : number) : number :=
  match x with Fin r => Fin (IZR (Zfloor r)) | _ => x end.

(** A finite number rounded by [rnd], with an infinity where the result
    reaches [2^top]. *)
Definition rounded (rnd : R -> R) (top : Z) (x : number) : number :=
  match x with
  | Fin r =>
      let y := rnd r in
      if Rle_dec (pow2 top) (Rabs y) then (if Rlt_dec y 0 then NInf else PInf)
      else Fin y
  | _ => x
  end.

(** The conversion of a number to float32, as a store into a
    [Float32Array] does it. *)
Definition ToFloat32 (x : number) : number := rounded float32 128 x.

(** The double that an operation on doubles returns for the exact result
    [x]. *)
Definition Float64 (x : number) : number := rounded float64 1024 x.

(** [Math.pow(x, 0.5)], the only use of [Math.pow] in the sources, on a
    finite [x]: not a number below 0, else the double nearest to the square
    root (an engine may return a neighbour of it). *)
Definition Math_pow_half (x : R) : number :=
  if Rlt_dec x 0 then NaN else Float64 (Fin (sqrt x)).

(** ** Typed arrays indexed by numbers *)

(** The array index a number denotes, if it is a non-negative integer. *)
Definition index_of (i : number) : option nat :=
  match i with
  | Fin r =>
      if Rle_dec 0 r then
        (if Req_dec_T r (IZR (Zfloor r)) then Some (Z.to_nat (Zfloor r)) else None)
      else None
  | _ => None
  end.

(** [a[i]] as an operand of arithmetic: outside the array the read gives
    [undefined], which every arithmetic operator turns into [NaN]. *)
Definition aget (a : list number) (i : number) : number :=
  match index_of i with
  | Some k => default NaN (a !! k)
  | None => NaN
  end.

(** [a[i]] for an index [i] that a loop counts, on an array of numbers. *)
Definition get (a : list number) (i : nat) : number := default NaN (a !! i).

(** [a[i] = v] on a [Float32Array]: the value is converted to float32; a
    write outside the bounds is ignored. *)
Definition aset (a : list number) (i : number) (v : number) : list number :=
  match index_of i with
  | Some k => <[k := ToFloat32 v]> a
  | None => a
  end.

(** [ToIndex]: the index a number converts to, or [None] where the
    conversion throws a [RangeError]: below 0 and above [2^53 - 1]. *)
Definition ToIndex (n : number) : option nat :=
  match n with
  | NaN => Some 0%nat
  | Fin r =>
      if ((0 <=? Num.trunc r) && (Num.trunc r <=? 2 ^ 53 - 1))%Z
      then Some (Z.to_nat (Num.trunc r)) else None
  | PInf | NInf => None
  end.

(** ** The decoded source and the effects of the extraction *)

(** The platform's [AudioBuffer]: two read-only attributes and the sample
    arrays, one per channel, which [getChannelData] hands out by reference. *)
Record AudioBuffer := {
  sampleRate : number;
  duration : number;
  channelData : list (list number)
}.

Definition numberOfChannels (b : AudioBuffer) : nat := length (channelData b).

(** The state an extraction runs in: the source, the count of typed
    arrays allocated so far, and the longest typed array the engine
    allocates. *)
Record heap := {
  buffer : AudioBuffer;
  allocated : nat;
  limit : N
}.

Inductive exn := RangeError | IndexSizeError.

Inductive outcome (A : Type) :=
  | Returns (a : A)
  | Throws (e : exn)
  | Diverges.
Arguments Returns {A} _.
Arguments Throws {A} _.
Arguments Diverges {A}.

Definition M (A : Type) : Type := heap -> outcome A * heap.

Definition ret {A} (a : A) : M A := fun h => (Returns a, h).

Definition bind {A B} (m : M A) (k : A -> M B) : M B :=
  fun h =>
    match m h with
    | (Returns a, h') => k a h'
    | (Throws e, h') => (Throws e, h')
    | (Diverges, h') => (Diverges, h')
    end.

Notation "x <- m ;; k" := (bind m (fun x => k))
  (at level 100, m at next level, right associativity).

Definition diverge {A} : M A := fun h => (Diverges, h).

(** [buffer.sampleRate], [buffer.duration], [buffer.numberOfChannels] *)
Definition get_sampleRate : M number := fun h => (Returns (sampleRate (buffer h)), h).
Definition get_duration : M number := fun h => (Returns (duration (buffer h)), h).
Definition get_numberOfChannels : M nat :=
  fun h => (Returns (numberOfChannels (buffer h)), h).

(** [buffer.getChannelData(c)]: a reference to the samples of channel [c],
    here the channel's position. *)
Definition getChannelData (c : nat) : M nat :=
  fun h => if (c <? numberOfChannels (buffer h))%nat then (Returns c, h)
           else (Throws IndexSizeError, h).

Definition samples (b : AudioBuffer) (ref : nat) : list number :=
  default [] (channelData b !! ref).

(** [ref.length], [ref[i]] and [ref[i] = v] on a channel reference. *)
Definition length_of (ref : nat) : M number :=
  fun h => (Returns (Fin (INR (length (samples (buffer h) ref)))), h).

Definition load (ref : nat) (i : number) : M number :=
  fun h => (Returns (aget (samples (buffer h) ref) i), h).

Definition store (ref : nat) (i : number) (v : number) : M unit :=
  fun h =>
    (Returns tt,
     {| buffer :=
          {| sampleRate := sampleRate (buffer h);
             duration := duration (buffer h);
             channelData :=
               <[ref := aset (samples (buffer h) ref) i v]> (channelData (buffer h)) |};
        allocated := allocated h;
        limit := limit h |}).

(** One more typed array allocated. *)
Definition bump (h : heap) : heap :=
  {| buffer := buffer h; allocated := S (allocated h); limit := limit h |}.

(** The length of [new Float32Array(n)] for a number [n], or [None] where
    the construction throws a [RangeError]: where [ToIndex] does, and above
    the engine's limit. *)
Definition Float32Array_length (h : heap) (n : number) : option nat :=
  match ToIndex n with
  | Some k => if (N.of_nat k <=? limit h)%N then Some k else None
  | None => None
  end.

(** [new Float32Array(n)] for a number [n]. *)
Definition alloc_Float32Array (n : number) : M (list number) :=
  fun h =>
    match Float32Array_length h n with
    | Some k => (Returns (new_Float32Array (Fin 0) k), bump h)
    | None => (Throws RangeError, h)
    end.

(** The values [i] takes in [for (let i = start; i < bound; i++)], or
    [None] when the guard never fails. *)
Definition loop_plan (start bound : number) : option (list number) :=
  match start, bound with
  | NaN, _ | _, NaN => Some []
  | PInf, _ => Some []
  | _, NInf => Some []
  | NInf, _ => None
  | Fin _, PInf => None
  | Fin s, Fin e =>
      Some (map (fun k => Fin (s + INR k)) (seq 0 (Z.to_nat (Zceil (e - s)))))
  end.

Fixpoint forM {S} (l : list number) (body : number -> S -> M S) (s : S) : M S :=
  match l with
  | [] => ret s
  | i :: l' => s' <- body i s ;; forM l' body s'
  end.

Definition for_range {S} (start bound : number)
    (body : number -> S -> M S) (s : S) : M S :=
  match loop_plan start bound with
  | Some l => forM l body s
  | None => diverge
  end.

(** ** types.ts *)

Record AnalysisConfig (N : Type) := {
  fps : N;
  bpm : N;
  timeSignature : N
}.
Arguments fps {N} _.
Arguments bpm {N} _.
Arguments timeSignature {N} _.

Inductive ChannelType := energy_t | frequency_t | rhythmic_t | phase_t | creative_t.

(** [values] is a [Float32Array]; the type of its elements is a
    parameter, instantiated with [number]. *)
Record RawChannelData (N : Type) := {
  raw_id : string;
  raw_name : string;
  sourceId : string;
  values : list N;
  type : ChannelType
}.
Arguments raw_id {N} _.
Arguments raw_name {N} _.
Arguments sourceId {N} _.
Arguments values {N} _.
Arguments type {N} _.

(** The two declarations of [RefinementSettings] differ by the field
    [quantize]; the record has it, and the loop of [services/dsp.ts] does
    not read it. *)
Record RefinementSettings := {
  gain : R;       (* 0 to 5 *)
  offset : R;     (* -1 to 1 *)
  smooth : R;     (* 0 to 1 *)
  gate : R;       (* 0 to 1 *)
  clip : bool;
  invert : bool;
  quantize : R    (* 0 (off), 4, 8, 16 *)
}.

Record ChannelState := {
  id : string;
  settings : RefinementSettings;
  processedValues : list number;
  visible : bool;
  mute : bool;
  solo : bool;
  color : string
}.

(** The ranges written next to the fields of [RefinementSettings]. *)
Definition valid_settings (s : RefinementSettings) : Prop :=
  0 <= gain s <= 5 /\ -1 <= offset s <= 1 /\ 0 <= smooth s <= 1 /\
  0 <= gate s <= 1 /\
  (quantize s = 0 \/ quantize s = 4 \/ quantize s = 8 \/ quantize s = 16).

(** ** constants.ts *)

Definition DEFAULT_REFINEMENT : RefinementSettings :=
  {| gain := 1; offset := 0; smooth := 0; gate := 0;
     clip := true; invert := false; quantize := 0 |}.

Definition COLORS : list string :=
  [ "#06b6d4"; "#d946ef"; "#8b5cf6"; "#f97316";
    "#10b981"; "#f43f5e"; "#eab308"; "#3b82f6" ]%string.

(** ** services/dsp.ts: analyzeAudioBuffer *)

(** The variables of the sample loop: the sums of one frame, and the filter
    state, which outlives the frame. *)
Record sums := {
  sumSq : number;
  sumLow : number;
  sumHigh : number;
  sumDiff : number;
  localMax : number;
  sums_lpState : number
}.

(** The variables of the frame loop: the filter state and the seven
    output arrays. *)
Record tracks := {
  st_lpState : number;
  st_energy : list number;
  st_low : list number;
  st_mid : list number;
  st_high : list number;
  st_brightness : list number;
  st_width : list number;
  st_transient : list number
}.

(** The body of [for (let i = start; i < end; i++)]. *)
Definition sample_body (channelDataL channelDataR : nat) (lpAlpha : number)
    (i : number) (a : sums) : M sums :=
  sampleL <- load channelDataL i ;;
  sampleR <- load channelDataR i ;;
  let mono := ((sampleL + sampleR) * Fin 0.5)%num in
  let diff := Math_abs (sampleL - sampleR) in
  let sumDiff' := (sumDiff a + diff)%num in
  let lpState' := (sums_lpState a + (mono - sums_lpState a) * lpAlpha)%num in
  let lowFreq := lpState' in
  let highFreq := (mono - lpState')%num in
  let sumSq' := (sumSq a + mono * mono)%num in
  let sumLow' := (sumLow a + lowFreq * lowFreq)%num in
  let sumHigh' := (sumHigh a + highFreq * highFreq)%num in
  let localMax' :=
    if (localMax a <? Math_abs mono)%num then Math_abs mono else localMax a in
  ret {| sumSq := sumSq'; sumLow := sumLow'; sumHigh := sumHigh';
         sumDiff := sumDiff'; localMax := localMax'; sums_lpState := lpState' |}.

(** The body of the first [for (let f = 0; f < totalFrames; f++)]. *)
Definition frame_body (channelDataL channelDataR : nat)
    (samplesPerFrame lpAlpha : number) (f : number) (t : tracks) : M tracks :=
  let start := (f * samplesPerFrame)%num in
  len <- length_of channelDataL ;;
  let end_ := Math_min (start + samplesPerFrame)%num len in
  a <- for_range start end_ (sample_body channelDataL channelDataR lpAlpha)
         {| sumSq := Fin 0; sumLow := Fin 0; sumHigh := Fin 0; sumDiff := Fin 0;
            localMax := Fin 0; sums_lpState := st_lpState t |} ;;
  let rms := Math_sqrt (sumSq a / (end_ - start))%num in
  let rmsLow := Math_sqrt (sumLow a / (end_ - start))%num in
  let rmsHigh := Math_sqrt (sumHigh a / (end_ - start))%num in
  let avgDiff := (sumDiff a / (end_ - start))%num in
  let energy' := aset (st_energy t) f (Math_min (Fin 1) (rms * Fin 4)%num) in
  let low' := aset (st_low t) f (Math_min (Fin 1) (rmsLow * Fin 5)%num) in
  let high' := aset (st_high t) f (Math_min (Fin 1) (rmsHigh * Fin 8)%num) in
  let mid' :=
    aset (st_mid t) f
      (Math_max (Fin 0)
         (aget energy' f - (aget low' f * Fin 0.4) - (aget high' f * Fin 0.4))%num) in
  let totalSpec := (rmsLow + rmsHigh + Fin 0.001)%num in
  let brightness' :=
    aset (st_brightness t) f (Math_min (Fin 1) ((rmsHigh / totalSpec) * Fin 2)%num) in
  let width' := aset (st_width t) f (Math_min (Fin 1) (avgDiff * Fin 4)%num) in
  let transient' :=
    if (Fin 0 <? f)%num then
      let delta := (aget energy' f - aget energy' (f - Fin 1))%num in
      aset (st_transient t) f
        (if (Fin 0 <? delta)%num then Math_min (Fin 1) (delta * Fin 4)%num else Fin 0)
    else st_transient t in
  ret {| st_lpState := sums_lpState a; st_energy := energy'; st_low := low';
         st_mid := mid'; st_high := high'; st_brightness := brightness';
         st_width := width'; st_transient := transient' |}.

(** The body of the phase loop; the state is [(beatPhase, barPhase)]. *)
Definition phase_body (config : AnalysisConfig number) (secondsPerBeat : number)
    (f : number) (p : list number * list number) : M (list number * list number) :=
  let time := (f / fps config)%num in
  let beats := (time / secondsPerBeat)%num in
  ret (aset (fst p) f (beats %% Fin 1)%num,
       aset (snd p) f ((beats / timeSignature config) %% Fin 1)%num).

Definition is_master (sourceId : string) : bool := String.eqb sourceId "master".

(** The array the function returns, from the arrays the loops filled. *)
Definition channels (sourceId sourceName : string) (t : tracks)
    (p : list number * list number) : list (RawChannelData number) :=
  let prefix := if is_master sourceId then ""%string else (sourceName ++ "_")%string in
  let track i n v ty :=
    {| raw_id := (prefix ++ i)%string; raw_name := (sourceName ++ n)%string;
       sourceId := sourceId; values := v; type := ty |} in
  [ track "energy" " Energy" (st_energy t) energy_t;
    track "low" " Low" (st_low t) energy_t;
    track "mid" " Mid" (st_mid t) energy_t;
    track "high" " High" (st_high t) energy_t;
    track "transient" " Punch" (st_transient t) rhythmic_t;
    track "brightness" " Bright" (st_brightness t) creative_t;
    track "width" " Width" (st_width t) creative_t ]%string
  ++ (if is_master sourceId then
        [ {| raw_id := "beat_phase"; raw_name := "Beat Phase";
             sourceId := sourceId; values := fst p; type := phase_t |};
          {| raw_id := "bar_phase"; raw_name := "Bar Phase";
             sourceId := sourceId; values := snd p; type := phase_t |} ]%string
      else []).

Definition analyzeAudioBuffer (config : AnalysisConfig number)
    (sourceId sourceName : string) : M (list (RawChannelData number)) :=
  channelDataL <- getChannelData 0 ;;
  n <- get_numberOfChannels ;;
  channelDataR <- (if (1 <? n)%nat then getChannelData 1 else ret channelDataL) ;;
  duration <- get_duration ;;
  let totalFrames := Math_ceil (Float64 (duration * fps config)%num) in
  sampleRate <- get_sampleRate ;;
  let samplesPerFrame := Math_floor (Float64 (sampleRate / fps config)%num) in
  energy <- alloc_Float32Array totalFrames ;;
  low <- alloc_Float32Array totalFrames ;;
  mid <- alloc_Float32Array totalFrames ;;
  high <- alloc_Float32Array totalFrames ;;
  brightness <- alloc_Float32Array totalFrames ;;
  width <- alloc_Float32Array totalFrames ;;
  transient <- alloc_Float32Array totalFrames ;;
  let lpState := Fin 0 in
  let lpAlpha := Fin 0.15 in
  t <- for_range (Fin 0) totalFrames
         (frame_body channelDataL channelDataR samplesPerFrame lpAlpha)
         {| st_lpState := lpState; st_energy := energy; st_low := low;
            st_mid := mid; st_high := high; st_brightness := brightness;
            st_width := width; st_transient := transient |} ;;
  beatPhase <- alloc_Float32Array totalFrames ;;
  barPhase <- alloc_Float32Array totalFrames ;;
  let secondsPerBeat := (Fin 60 / bpm config)%num in
  p <- for_range (Fin 0) totalFrames (phase_body config secondsPerBeat)
         (beatPhase, barPhase) ;;
  ret (channels sourceId sourceName t p).

(** ** services/dsp.ts: refineChannel *)

(** The loop works on doubles and stores float32 numbers: each of its
    operations returns the double nearest to the exact result. *)

(** The clip and invert stages, shared by both revisions of the loop. *)
Definition clip_stage (s : RefinementSettings) (final : number) : number :=
  if clip s then Math_max (Fin 0) (Math_min (Fin 1) final)
  else Math_max (Fin 0) final.

Definition invert_stage (s : RefinementSettings) (final : number) : number :=
  if invert s then Float64 (Fin 1 - final)%num else final.

(** The gate and the gain/offset stages. *)
Definition gate_stage (s : RefinementSettings) (val : number) : number :=
  if (val <? Fin (gate s))%num then Fin 0 else val.

Definition gain_stage (s : RefinementSettings) (val : number) : number :=
  Float64 (Float64 (val + Fin (offset s))%num * Fin (gain s))%num.

(** [1 - Math.pow(settings.smooth, 0.5) * 0.95]; the literal is the double
    nearest to 0.95. *)
Definition smoothing_alpha (s : RefinementSettings) : number :=
  Float64 (Fin 1 - Float64 (Math_pow_half (smooth s) * Float64 (Fin 0.95))%num)%num.

(** [(smoothed * (1 - alpha)) + (val * alpha)] *)
Definition smooth_stage (alpha smoothed val : number) : number :=
  Float64 (Float64 (smoothed * Float64 (Fin 1 - alpha)%num)%num
           + Float64 (val * alpha)%num)%num.

(** One iteration of [for (let i = 0; i < raw.length; i++)]: the loop
    state is the filter state [smoothed] and the array [result], a
    [Float32Array]. *)
Definition refine_body (s : RefinementSettings) (alpha : number) (raw : list number)
    (st : number * list number) (i : nat) : number * list number :=
  let '(smoothed, result) := st in
  let val := get raw i in
  let val := gate_stage s val in
  let val := gain_stage s val in
  let smoothed := smooth_stage alpha smoothed val in
  let final := smoothed in
  let final := clip_stage s final in
  let final := invert_stage s final in
  (smoothed, <[i := ToFloat32 final]> result).

Definition refineChannel (raw : list number) (s : RefinementSettings)
    (bpm fps : number) : list number :=
  let result := new_Float32Array (Fin 0) (length raw) in
  let smoothed := Fin 0 in
  let alpha := smoothing_alpha s in
  snd (fold_left (refine_body s alpha raw) (seq 0 (length raw))
         (smoothed, result)).

(** ** unnamed/part_001: the second revision of services/dsp.ts *)

Module Part001.

(** The quantize block computes [step] and ends; [final] is read by the
    clip stage as the smoothing left it. *)
Definition quantize_stage (quantizeFrames : number) (i : nat) (final : number)
    : number :=
  if (Fin 0 <? quantizeFrames)%num then
    let step :=
      (Math_floor (Float64 (Fin (INR i) / quantizeFrames)%num) * quantizeFrames)%num in
    final
  else final.

Definition refine_body (s : RefinementSettings) (alpha quantizeFrames : number)
    (raw : list number) (st : number * list number) (i : nat)
    : number * list number :=
  let '(smoothed, result) := st in
  let val := get raw i in
  let val := gate_stage s val in
  let val := gain_stage s val in
  let smoothed := smooth_stage alpha smoothed val in
  let final := smoothed in
  let final := quantize_stage quantizeFrames i final in
  let final := clip_stage s final in
  let final := invert_stage s final in
  (smoothed, <[i := ToFloat32 final]> result).

Definition refineChannel (raw : list number) (s : RefinementSettings)
    (bpm fps : number) : list number :=
  let result := new_Float32Array (Fin 0) (length raw) in
  let smoothed := Fin 0 in
  let alpha := smoothing_alpha s in
  let secondsPerBeat := (Fin 60 / bpm)%num in
  let framesPerBeat := (secondsPerBeat * fps)%num in
  let quantizeFrames :=
    if Rlt_dec 0 (quantize s) then (framesPerBeat / (Fin (quantize s) / Fin 4))%num
    else Fin 0 in
  snd (fold_left (refine_body s alpha quantizeFrames raw)
         (seq 0 (length raw)) (smoothed, result)).

(** *** analyzeAudioBuffer

    The offline context and its buffer source, which the function
    creates and never uses, are left out: they touch neither the samples
    nor the outputs. *)

(** The mono mix-down, written into channel 0 itself: a mean of doubles,
    stored as a float32. *)
Definition mix_body (channelData ch2 : nat) (i : number) (_ : unit) : M unit :=
  a <- load channelData i ;;
  b <- load ch2 i ;;
  store channelData i (Float64 (Float64 (a + b)%num / Fin 2)%num).

Record sums := {
  sumSq : number;
  sumLow : number;
  sumHigh : number;
  zeroCrossings : number;
  prevSample : number;
  sums_lpState : number
}.

Record tracks := {
  st_lpState : number;
  st_energy : list number;
  st_low : list number;
  st_mid : list number;
  st_high : list number;
  st_density : list number
}.

Definition sample_body (channelData : nat) (lpAlpha : number)
    (i : number) (a : sums) : M sums :=
  sample <- load channelData i ;;
  let lpState' := (sums_lpState a + (sample - sums_lpState a) * lpAlpha)%num in
  let highFreq := (sample - lpState')%num in
  let sumSq' := (sumSq a + sample * sample)%num in
  let sumLow' := (sumLow a + lpState' * lpState')%num in
  let sumHigh' := (sumHigh a + highFreq * highFreq)%num in
  let zeroCrossings' :=
    if (Fin 0 <=? sample)%num && (prevSample a <? Fin 0)%num
    then (zeroCrossings a + Fin 1)%num else zeroCrossings a in
  ret {| sumSq := sumSq'; sumLow := sumLow'; sumHigh := sumHigh';
         zeroCrossings := zeroCrossings'; prevSample := sample;
         sums_lpState := lpState' |}.

Definition frame_body (channelData : nat) (samplesPerFrame lpAlpha : number)
    (f : number) (t : tracks) : M tracks :=
  let start := (f * samplesPerFrame)%num in
  len <- length_of channelData ;;
  let end_ := Math_min (start + samplesPerFrame)%num len in
  a <- for_range start end_ (sample_body channelData lpAlpha)
         {| sumSq := Fin 0; sumLow := Fin 0; sumHigh := Fin 0;
            zeroCrossings := Fin 0; prevSample := Fin 0;
            sums_lpState := st_lpState t |} ;;
  let rms := Math_sqrt (sumSq a / (end_ - start))%num in
  let rmsLow := Math_sqrt (sumLow a / (end_ - start))%num in
  let rmsHigh := Math_sqrt (sumHigh a / (end_ - start))%num in
  let energy' := aset (st_energy t) f (Math_min (Fin 1) (rms * Fin 4)%num) in
  let low' := aset (st_low t) f (Math_min (Fin 1) (rmsLow * Fin 5)%num) in
  let high' := aset (st_high t) f (Math_min (Fin 1) (rmsHigh * Fin 8)%num) in
  let mid' :=
    aset (st_mid t) f
      (Math_max (Fin 0)
         (aget energy' f - aget low' f * Fin 0.5 - aget high' f * Fin 0.5)%num) in
  let density' :=
    aset (st_density t) f
      (Math_min (Fin 1) ((zeroCrossings a / samplesPerFrame) * Fin 10)%num) in
  ret {| st_lpState := sums_lpState a; st_energy := energy'; st_low := low';
         st_mid := mid'; st_high := high'; st_density := density' |}.

(** The kick loop, from [f = 1]; its arrays are not returned. *)
Definition kick_body (low : list number) (f : number) (kick : list number)
    : M (list number) :=
  let deltaLow := (aget low f - aget low (f - Fin 1))%num in
  let kick' :=
    if (Fin 0.3 <? deltaLow)%num && (Fin 0.5 <? aget low f)%num
    then aset kick f (Fin 1) else aset kick f (Fin 0) in
  let kick'' :=
    if (Fin 0 <? f)%num && (aget kick' f =? Fin 0)%num
    then aset kick' f (Math_max (Fin 0) (aget kick' (f - Fin 1) - Fin 0.2)%num)
    else kick' in
  ret kick''.

Definition analyzeAudioBuffer (config : AnalysisConfig number)
    (sourceId sourceName : string) : M (list (RawChannelData number)) :=
  channelData <- getChannelData 0 ;;
  n <- get_numberOfChannels ;;
  _ <- (if (1 <? n)%nat then
          ch2 <- getChannelData 1 ;;
          len <- length_of channelData ;;
          for_range (Fin 0) len (mix_body channelData ch2) tt
        else ret tt) ;;
  duration <- get_duration ;;
  let totalFrames := Math_ceil (Float64 (duration * fps config)%num) in
  sampleRate <- get_sampleRate ;;
  let samplesPerFrame := Math_floor (Float64 (sampleRate / fps config)%num) in
  energy <- alloc_Float32Array totalFrames ;;
  low <- alloc_Float32Array totalFrames ;;
  mid <- alloc_Float32Array totalFrames ;;
  high <- alloc_Float32Array totalFrames ;;
  density <- alloc_Float32Array totalFrames ;;
  let lpState := Fin 0 in
  let lpAlpha := Fin 0.15 in
  t <- for_range (Fin 0) totalFrames (frame_body channelData samplesPerFrame lpAlpha)
         {| st_lpState := lpState; st_energy := energy; st_low := low;
            st_mid := mid; st_high := high; st_density := density |} ;;
  beatPhase <- alloc_Float32Array totalFrames ;;
  barPhase <- alloc_Float32Array totalFrames ;;
  let secondsPerBeat := (Fin 60 / bpm config)%num in
  p <- for_range (Fin 0) totalFrames (phase_body config secondsPerBeat)
         (beatPhase, barPhase) ;;
  kick <- alloc_Float32Array totalFrames ;;
  snare <- alloc_Float32Array totalFrames ;;
  _ <- for_range (Fin 1) totalFrames (kick_body (st_low t)) kick ;;
  let prefix := if is_master sourceId then ""%string else (sourceName ++ "_")%string in
  let track i n v ty :=
    {| raw_id := (prefix ++ i)%string; raw_name := (sourceName ++ n)%string;
       sourceId := sourceId; values := v; type := ty |} in
  ret ([ track "energy" " Energy" (st_energy t) energy_t;
         track "low" " Low" (st_low t) energy_t;
         track "mid" " Mid" (st_mid t) energy_t;
         track "high" " High" (st_high t) energy_t;
         track "density" " Density" (st_density t) energy_t ]%string
       ++ (if is_master sourceId then
             [ {| raw_id := "beat_phase"; raw_name := "Beat Phase";
                  sourceId := sourceId; values := fst p; type := phase_t |};
               {| raw_id := "bar_phase"; raw_name := "Bar Phase";
                  sourceId := sourceId; values := snd p; type := phase_t |} ]%string
           else [])).

End Part001.

(** ** unnamed/part_000: the channel states of the application component *)

(** [startAnalysis]: one state per raw channel, in order, the cached track
    being the raw track itself. *)
Definition initialStates (results : list (RawChannelData number)) : list ChannelState :=
  imap (fun idx raw =>
          {| id := raw_id raw;
             settings := DEFAULT_REFINEMENT;
             processedValues := values raw;
             visible := true;
             mute := false;
             solo := false;
             color := default EmptyString (COLORS !! (idx mod length COLORS)%nat) |})
       results.

(** [updateRefinement(id, settings)], closed over [rawChannels] and
    [config]: every state with that id gets the settings and the track
    refined from the first raw channel with that id. *)
Definition updateRefinement (rawChannels : list (RawChannelData number))
    (config : AnalysisConfig number) (i : string) (s : RefinementSettings)
    (prev : list ChannelState) : list ChannelState :=
  map (fun ch =>
         if String.eqb (id ch) i then
           match find (fun r => String.eqb (raw_id r) i) rawChannels with
           | None => ch
           | Some raw =>
               let processed := refineChannel (values raw) s (bpm config) (fps config) in
               {| id := id ch; settings := s; processedValues := processed;
                  visible := visible ch; mute := mute ch; solo := solo ch;
                  color := color ch |}
           end
         else ch) prev.

Inductive FlagKey := key_visible | key_mute | key_solo.

(** [{ ...ch, [key]: !ch[key] }] *)
Definition toggle (key : FlagKey) (ch : ChannelState) : ChannelState :=
  {| id := id ch; settings := settings ch; processedValues := processedValues ch;
     visible := (if key is key_visible then negb (visible ch) else visible ch);
     mute := (if key is key_mute then negb (mute ch) else mute ch);
     solo := (if key is key_solo then negb (solo ch) else solo ch);
     color := color ch |}.

Definition toggleChannelState (i : string) (key : FlagKey)
    (prev : list ChannelState) : list ChannelState :=
  map (fun ch => if String.eqb (id ch) i then toggle key ch else ch) prev.

(** [{ ...ch, visible: v }] *)
Definition with_visible (v : bool) (ch : ChannelState) : ChannelState :=
  {| id := id ch; settings := settings ch; processedValues := processedValues ch;
     visible := v; mute := mute ch; solo := solo ch; color := color ch |}.

(** The [visibleChannels] memo. *)
Definition visibleChannels (channelStates : list ChannelState) : list ChannelState :=
  let anySolo := existsb solo channelStates in
  map (fun ch =>
         if negb (visible ch) then with_visible false ch
         else if anySolo then with_visible (solo ch) ch
         else with_visible (negb (mute ch)) ch)
      channelStates.

(** The channel states the component can hold once an analysis has set
    [rawChannels]: the initial ones, then any sequence of settings edits and
    flag toggles. *)
Inductive reachable (rawChannels : list (RawChannelData number))
    (config : AnalysisConfig number) : list ChannelState -> Prop :=
  | reach_init : reachable rawChannels config (initialStates rawChannels)
  | reach_update i s prev :
      reachable rawChannels config prev ->
      reachable rawChannels config (updateRefinement rawChannels config i s prev)
  | reach_toggle i key prev :
      reachable rawChannels config prev ->
      reachable rawChannels config (toggleChannelState i key prev).

(** ** unnamed/part_000: importing files *)

Inductive Role := master | stem.

(** An [AudioFile] without its [File] handle and its decoded buffer. *)
Record AudioFile := {
  file_id : string;
  file_name : string;
  file_type : Role;
  file_duration : R;
  file_sampleRate : R;
  file_channels : R
}.

(** [handleFileUpload]: [picked] is [e.target.files] ([None] for [null]),
    each file with the id drawn for it by [Math.random]. *)
Definition handleFileUpload (files : list AudioFile)
    (picked : option (list (string * string))) : list AudioFile :=
  match picked with
  | None => files
  | Some l =>
      let newFiles :=
        map (fun '(rid, nm) =>
               {| file_id := rid; file_name := nm;
                  file_type := (if (length files =? 0)%nat then master else stem);
                  file_duration := 0; file_sampleRate := 0; file_channels := 0 |})
            l in
      files ++ newFiles
  end.

(** The file lists the import view can hold. *)
Inductive uploaded : list AudioFile -> Prop :=
  | uploaded_none : uploaded []
  | uploaded_more files picked :
      uploaded files -> uploaded (handleFileUpload files picked).

(** ** unnamed/part_000: exporting *)



(** [obj[k] = v] on an object kept as the list of its properties, in the
    order of their creation. *)
Fixpoint obj_set {V} (obj : list (string * V)) (k : string) (v : V)
    : list (string * V) :=
  match obj with
  | [] => [(k, v)]
  | (k', v') :: rest =>
      if String.eqb k' k then (k', v) :: rest else (k', v') :: obj_set rest k v
  end.







(** ** unnamed/part_000: the signal preview and the playback cursor *)

(** [currentSignalValue]: [selectedChannelId] is [None] for [null]; the
    empty string is falsy as well.  The product that picks the frame is a
    double. *)
Definition currentSignalValue (selectedChannelId : option string)
    (currentTime : number) (channelStates : list ChannelState)
    (config : AnalysisConfig number) : number :=
  match selectedChannelId with
  | None => Fin 0
  | Some sel =>
      if String.eqb sel "" then Fin 0
      else
        match find (fun c => String.eqb (id c) sel) channelStates with
        | None => Fin 0
        | Some ch =>
            let frame := Math_floor (Float64 (currentTime * fps config)%num) in
            if ((Fin 0 <=? frame)%num
                && (frame <? Fin (INR (length (processedValues ch))))%num)%bool
            then aget (processedValues ch) frame
            else Fin 0
        end
  end.

(** A number in a condition: [0] and [NaN] are falsy. *)
Definition truthy (x : number) : bool :=
  match x with
  | Fin r => if Req_dec_T r 0 then false else true
  | NaN => false
  | PInf | NInf => true
  end.





(** ** components/Timeline.tsx, the revision with the zoom *)

Module Timeline.

(** An entry of the chart data, an object: the properties [frame] and
    [time], then one property per visible channel.  A read outside a track
    gives [undefined], here [None]. *)
Definition Entry : Type := list (string * option number).

(** [a[i]] as a value that is stored. *)
Definition read (a : list number) (i : number) : option number :=
  match index_of i with
  | Some k => a !! k
  | None => None
  end.

(** The entry built for the frame [i], and [hasVisible]. *)
Definition entry_of (channels : list ChannelState) (totalPoints duration i : number)
    : Entry * bool :=
  fold_left
    (fun '(entry, hasVisible) ch =>
       if visible ch
       then (obj_set entry (id ch) (read (processedValues ch) i), true)
       else (entry, hasVisible))
    channels
    ([("frame", Some i);
      ("time", Some (Float64 (Float64 (i / totalPoints) * duration)%num))]%string,
     false).

(** The loop of [downsample], from the index [i] on; [None] when [fuel]
    iterations do not reach its end. *)
Fixpoint downsample_loop (fuel : nat) (channels : list ChannelState)
    (totalPoints duration endIndex step i : number) (data : list Entry)
    : option (list Entry) :=
  match fuel with
  | O => None
  | S fuel' =>
      if (i <? endIndex)%num then
        if (totalPoints <=? i)%num then Some data
        else
          let '(entry, hasVisible) := entry_of channels totalPoints duration i in
          downsample_loop fuel' channels totalPoints duration endIndex step
            (Float64 (i + step)%num) (if hasVisible then data ++ [entry] else data)
      else Some data
  end.

(** [downsample]; every operation of its index arithmetic returns a
    double. *)
Definition downsample (fuel : nat) (channels : list ChannelState)
    (points duration : number) (xDomain : number * number) : option (list Entry) :=
  match channels with
  | [] => Some []
  | ch0 :: _ =>
      let totalPoints := Fin (INR (length (processedValues ch0))) in
      let startIndex :=
        Math_floor (Float64 (Float64 (fst xDomain / duration) * totalPoints)%num) in
      let endIndex :=
        Math_ceil (Float64 (Float64 (snd xDomain / duration) * totalPoints)%num) in
      let sliceLength := Float64 (endIndex - startIndex)%num in
      let step := Math_max (Fin 1) (Math_floor (Float64 (sliceLength / points)%num)) in
      downsample_loop fuel channels totalPoints duration endIndex step startIndex []
  end.

(** The state of the component.  [left] and [right] only ever hold
    numbers; a reference area is [None] for [null]. *)
Record State := {
  left : number;
  right : number;
  refAreaLeft : option number;
  refAreaRight : option number
}.

Definition initial (duration : number) : State :=
  {| left := Fin 0; right := duration; refAreaLeft := None; refAreaRight := None |}.

(** [a === b] on [number | null]. *)
Definition strict_eq (a b : option number) : bool :=
  match a, b with
  | None, None => true
  | Some x, Some y => Num.eqb x y
  | _, _ => false
  end.

Definition clear_selection (st : State) : State :=
  {| left := left st; right := right st; refAreaLeft := None; refAreaRight := None |}.

(** [zoom].  Past the first test neither reference area is [null]. *)
Definition zoom (st : State) : State :=
  if strict_eq (refAreaLeft st) (refAreaLeft st) || strict_eq (refAreaRight st) None
  then clear_selection st
  else
    match refAreaLeft st, refAreaRight st with
    | Some l, Some r =>
        let '(newLeft, newRight) := if (r <? l)%num then (r, l) else (l, r) in
        if (newRight - newLeft <? Fin 0.1)%num then clear_selection st
        else {| left := newLeft; right := newRight;
                refAreaLeft := None; refAreaRight := None |}
    | _, _ => clear_selection st
    end.

Definition zoomOut (duration : number) (st : State) : State :=
  {| left := Fin 0; right := duration;
     refAreaLeft := refAreaLeft st; refAreaRight := refAreaRight st |}.

(** [displayData]: the chart data for the visible range. *)
Definition displayData (fuel : nat) (channels : list ChannelState) (duration : number)
    (st : State) : option (list Entry) :=
  downsample fuel channels (Fin 600) duration (left st, right st).

(** What the chart and the reset button send: an event of the chart is
    [None] when it is [null], and otherwise carries
    [Number(e.activeLabel)]. *)
Inductive Event :=
  | MouseDown (e : option number)
  | MouseMove (e : option number)
  | MouseUp
  | ResetView.

Definition handle (duration : number) (ev : Event) (st : State) : State :=
  match ev with
  | MouseDown (Some label) =>
      {| left := left st; right := right st;
         refAreaLeft := Some label; refAreaRight := refAreaRight st |}
  | MouseDown None => st
  | MouseMove (Some label) =>
      match refAreaLeft st with
      | Some l =>
          if truthy l
          then {| left := left st; right := right st;
                  refAreaLeft := refAreaLeft st; refAreaRight := Some label |}
          else st
      | None => st
      end
  | MouseMove None => st
  | MouseUp => zoom st
  | ResetView => zoomOut duration st
  end.

(** The state after a sequence of events, the first one first. *)
Definition run (duration : number) (events : list Event) (st : State) : State :=
  fold_left (fun s ev => handle duration ev s) events st.

End Timeline.
(** ** Devices of the proofs *)

(** The per-sample view of the loop: the outputs in order, the filter state
    threaded from one sample to the next. *)
Fixpoint refine_trace (s : RefinementSettings) (alpha : number) (smoothed : number)
    (raw : list number) : list number :=
  match raw with
  | [] => []
  | x :: rest =>
      let smoothed' := smooth_stage alpha smoothed (gain_stage s (gate_stage s x)) in
      ToFloat32 (invert_stage s (clip_stage s smoothed'))
      :: refine_trace s alpha smoothed' rest
  end.

(** The spec's clamp and gate, in its own words. *)
Definition clamp (x lo hi : R) : R := Rmax lo (Rmin hi x).

Definition gated (s : RefinementSettings) (x : R) : R :=
  if Rlt_dec x (gate s) then 0 else x.

(** The loop on finite numbers: the gain/offset stage on doubles, and the
    clip and invert stages. *)
Definition gained (s : RefinementSettings) (x : R) : R :=
  float64 (float64 (gated s x + offset s) * gain s).

Definition clipped (s : RefinementSettings) (x : R) : R :=
  if clip s then clamp x 0 1 else Rmax 0 x.

Definition inverted (s : RefinementSettings) (x : R) : R :=
  if invert s then float64 (1 - x) else x.

(** Settings and samples that keep the arithmetic of the loop far from
    overflow: every float32 is such a sample. *)
Definition bounded_settings (s : RefinementSettings) : Prop :=
  Rabs (offset s) <= pow2 128 /\ Rabs (gain s) <= pow2 128.

Definition bounded_sample (x : R) : Prop := Rabs x <= pow2 128.

(** A float32, a finite value of a [Float32Array], and a float32 of
    [[0,1]] as an element of a typed array. *)
Definition is_float32 (x : R) : Prop := float32 x = x.

Definition float32_value (x : R) : Prop := is_float32 x /\ Rabs x < pow2 128.

Definition unit_sample (v : number) : Prop :=
  exists x, v = Fin x /\ 0 <= x <= 1 /\ is_float32 x.

(** A number that is not below 0, and one that is not above 1: [NaN] is
    both. *)
Definition not_negative (v : number) : Prop := (v <? Fin 0)%num = false.

Definition not_above_1 (v : number) : Prop := (Fin 1 <? v)%num = false.

Definition set_quantize (q : R) (s : RefinementSettings) : RefinementSettings :=
  {| gain := gain s; offset := offset s; smooth := smooth s; gate := gate s;
     clip := clip s; invert := invert s; quantize := q |}.

Definition inverted_identity : RefinementSettings :=
  {| gain := 1; offset := 0; smooth := 0; gate := 0;
     clip := true; invert := true; quantize := 0 |}.


(** The invariant of C7 on one channel state: its cached track is as long
    as the values of a raw channel that carries its id. *)
Definition track_length_ok (rawChannels : list (RawChannelData number))
    (ch : ChannelState) : Prop :=
  exists raw, In raw rawChannels /\ raw_id raw = id ch /\
              length (processedValues ch) = length (values raw).

(** The resolver of the spec, section 4.3, in its own words, on the flags
    of one channel and the disjunction of the solo flags. *)
Definition effective_visibility (anySolo : bool) (ch : ChannelState) : bool :=
  if negb (visible ch) then false
  else if anySolo then solo ch
  else negb (mute ch).

(** The fields a resolver leaves alone. *)
Definition same_but_visible (ch ch' : ChannelState) : Prop :=
  id ch' = id ch /\ settings ch' = settings ch /\
  processedValues ch' = processedValues ch /\
  mute ch' = mute ch /\ solo ch' = solo ch /\ color ch' = color ch.

(** A computation that leaves the decoded source as it found it, however
    it ends. *)
Definition preserves_buffer {A} (m : M A) : Prop :=
  forall h, buffer (snd (m h)) = buffer h.

(** The inputs at which the claims are evaluated: a one-sample stereo
    source, a one-sample mono source, and three configurations. *)
Definition stereo_source : heap :=
  {| buffer := {| sampleRate := Fin 48000; duration := Fin (1 / 48000);
                  channelData := [[Fin 1]; [Fin 0]] |};
     allocated := 0; limit := 4294967295 |}.

Definition mono_source : heap :=
  {| buffer := {| sampleRate := Fin 48000; duration := Fin (1 / 48000);
                  channelData := [[Fin 0.5]] |};
     allocated := 0; limit := 4294967295 |}.

Definition config_30fps : AnalysisConfig number :=
  {| fps := Fin 30; bpm := Fin 140; timeSignature := Fin 4 |}.

Definition config_0fps : AnalysisConfig number :=
  {| fps := Fin 0; bpm := Fin 140; timeSignature := Fin 4 |}.

Definition config_96000fps : AnalysisConfig number :=
  {| fps := Fin 96000; bpm := Fin 140; timeSignature := Fin 4 |}.

(** All seven output arrays of the frame loop have [n] entries. *)
Definition tracks_length (n : nat) (t : tracks) : Prop :=
  length (st_energy t) = n /\ length (st_low t) = n /\ length (st_mid t) = n /\
  length (st_high t) = n /\ length (st_brightness t) = n /\
  length (st_width t) = n /\ length (st_transient t) = n.

(** The frame numbers [0, 1, ..., n-1] as the loop counter takes them. *)
Definition frame_numbers (n : nat) : list number :=
  map (fun k => Fin (0 + INR k)) (seq 0 n).

Definition config_negative_fps : AnalysisConfig number :=
  {| fps := Fin (-96000); bpm := Fin 140; timeSignature := Fin 4 |}.

(** The loop state the frame loop starts from. *)
Definition initial_tracks (n : nat) : tracks :=
  {| st_lpState := Fin 0; st_energy := replicate n (Fin 0);
     st_low := replicate n (Fin 0); st_mid := replicate n (Fin 0);
     st_high := replicate n (Fin 0); st_brightness := replicate n (Fin 0);
     st_width := replicate n (Fin 0); st_transient := replicate n (Fin 0) |}.

(** The second channel reference: channel 1 of a stereo source, channel 0
    again otherwise. *)
Definition right_channel (b : AudioBuffer) : nat :=
  if (1 <? numberOfChannels b)%nat then 1%nat else 0%nat.

(** An output array of [n] frames after frames [0 .. j-1] got [NaN]. *)
Definition filled (j n : nat) : list number :=
  replicate j NaN ++ replicate (n - j) (Fin 0).

(** ** Ranges of values *)

Definition nonneg (x : number) : Prop := exists r, x = Fin r /\ 0 <= r.

(** A filter state that is a number or an infinity. *)
Definition settled (v : number) : Prop := v <> NaN.

(** A value of [[0,1]]. *)
Definition unit_value (x : number) : Prop := exists r, x = Fin r /\ 0 <= r <= 1.

(** The cached track of a channel state is what refining its raw track
    under its current settings gives. *)
Definition cache_coherent (rawChannels : list (RawChannelData number))
    (config : AnalysisConfig number) (ch : ChannelState) : Prop :=
  forall raw, In raw rawChannels -> raw_id raw = id ch ->
    processedValues ch
    = refineChannel (values raw) (settings ch) (bpm config) (fps config).

(** The names of the seven feature tracks, in the order of the returned
    array, and the two ids of the phase tracks. *)
Definition feature_names : list string :=
  [ "energy"; "low"; "mid"; "high"; "transient"; "brightness"; "width" ]%string.

Definition phase_ids : list string := [ "beat_phase"; "bar_phase" ]%string.

(** The prefix of the ids of a source. *)
Definition id_prefix (sourceId sourceName : string) : string :=
  if is_master sourceId then ""%string else (sourceName ++ "_")%string.

(** The characters of a string, last first. *)
Definition rstr (s : string) : list Ascii.ascii := rev (list_ascii_of_string s).

(** The value the frame loop stores in the transient array. *)
Definition transient_of (delta : number) : number :=
  if (Fin 0 <? delta)%num then Math_min (Fin 1) (delta * Fin 4)%num else Fin 0.

(** A transient array in range whose first entry, if any, is 0. *)
Definition transient_ok (tr : list number) : Prop :=
  Forall unit_value tr /\ forall x, tr !! 0%nat = Some x -> x = Fin 0.

(** The heap with other sample arrays. *)
Definition with_channels (cs : list (list number)) (h : heap) : heap :=
  {| buffer := {| sampleRate := sampleRate (buffer h);
                  duration := duration (buffer h);
                  channelData := cs |};
     allocated := allocated h; limit := limit h |}.

(** One write of the mix-down of [unnamed/part_001], on the array [A] that
    channel 0 holds at that point, and the mix-down as a whole. *)
Definition mix_step (Rr : list number) (A : list number) (j : nat) : list number :=
  <[j := ToFloat32
          (Float64 (Float64 (default NaN (A !! j) + default NaN (Rr !! j))%num
                    / Fin 2)%num)]> A.

Definition mixdown (L Rr : list number) : list number :=
  imap (fun j x =>
          ToFloat32 (Float64 (Float64 (x + default NaN (Rr !! j))%num / Fin 2)%num)) L.

(** A chart event other than a press on a label that is not a number. *)
Definition presses_number (ev : Timeline.Event) : Prop :=
  match ev with
  | Timeline.MouseDown (Some NaN) => False
  | _ => True
  end.



(** The frames the loop of [downsample] visits: from [start] on, every
    [step], below [stop]. *)
Definition sampled_frames (start stop step : Z) : list Z :=
  map (fun k => (start + Z.of_nat k * step)%Z)
      (seq 0 (Z.to_nat ((stop - start + step - 1) / step))).

(** The value that two refinements under the inverted default settings
    leave of a finite sample. *)
Definition inverted_twice (x : R) : R := float32 (1 - float32 (1 - clamp x 0 1)).
(** * Binary rounding *)

Lemma pow2_pos (e : Z) : 0 < pow2 e.
Proof. apply powerRZ_lt. lra. Qed.

Lemma pow2_add (a b : Z) : pow2 (a + b) = pow2 a * pow2 b.
Proof. apply powerRZ_add. lra. Qed.

Lemma pow2_nonneg_exp (n : Z) : (0 <= n)%Z -> pow2 n = IZR (2 ^ n).
Proof.
  intros Hn. unfold pow2. rewrite <- (Z2Nat.id n Hn).
  now rewrite <- pow_powerRZ, pow_IZR.
Qed.

Lemma pow2_ge_1 (n : Z) : (0 <= n)%Z -> 1 <= pow2 n.
Proof.
  intros Hn. rewrite pow2_nonneg_exp by exact Hn. apply (IZR_le 1).
  pose proof (Z.pow_pos_nonneg 2 n ltac:(lia) Hn). lia.
Qed.

Lemma pow2_le (a b : Z) : (a <= b)%Z -> pow2 a <= pow2 b.
Proof.
  intros Hab. replace b with (a + (b - a))%Z by lia. rewrite pow2_add.
  pose proof (pow2_pos a). pose proof (pow2_ge_1 (b - a) ltac:(lia)). nra.
Qed.

Lemma pow2_0 : pow2 0 = 1.
Proof. reflexivity. Qed.

Lemma pow2_1 : pow2 1 = 2.
Proof. exact (powerRZ_1 2). Qed.

Lemma pow2_lt (a b : Z) : (a < b)%Z -> pow2 a < pow2 b.
Proof.
  intros Hab. replace b with (a + 1 + (b - a - 1))%Z by lia. rewrite !pow2_add.
  pose proof (pow2_pos a). pose proof (pow2_ge_1 (b - a - 1) ltac:(lia)).
  rewrite pow2_1. nra.
Qed.

Lemma pow2_lt_inv (a b : Z) : pow2 a < pow2 b -> (a < b)%Z.
Proof.
  intros H. destruct (Z_lt_le_dec a b) as [|Hle]; [assumption|].
  apply pow2_le in Hle. lra.
Qed.

Lemma round_even_bounds (y : R) :
  (Zfloor y <= round_even y <= Zfloor y + 1)%Z.
Proof.
  unfold round_even.
  destruct (Rlt_dec _ _); [lia|]. destruct (Rlt_dec _ _); [lia|].
  destruct (Z.even _); lia.
Qed.

Lemma round_even_IZR (n : Z) : round_even (IZR n) = n.
Proof.
  unfold round_even. rewrite ZfloorZ.
  destruct (Rlt_dec (IZR n - IZR n) (/ 2)); [reflexivity|lra].
Qed.

Lemma round_even_error (y : R) : Rabs (IZR (round_even y) - y) <= / 2.
Proof.
  unfold round_even. pose proof (Zfloor_bound y) as [Hlo Hhi].
  destruct (Rlt_dec _ _) as [H1|H1].
  - apply Rabs_le. lra.
  - destruct (Rlt_dec _ _) as [H2|H2].
    + rewrite plus_IZR. apply Rabs_le. lra.
    + destruct (Z.even _); [|rewrite plus_IZR]; apply Rabs_le; lra.
Qed.

Lemma round_even_mono (x y : R) : x <= y -> (round_even x <= round_even y)%Z.
Proof.
  intros Hxy. pose proof (Zfloor_le x y Hxy) as Hf.
  pose proof (round_even_bounds x). pose proof (round_even_bounds y).
  destruct (Z.eq_dec (Zfloor x) (Zfloor y)) as [E|NE]; [|lia].
  unfold round_even. rewrite <- E.
  destruct (Rlt_dec (x - IZR (Zfloor x)) (/ 2)) as [H1|H1].
  - destruct (Rlt_dec (y - IZR (Zfloor x)) (/ 2)); [lia|].
    destruct (Rlt_dec (/ 2) (y - IZR (Zfloor x))); [lia|].
    destruct (Z.even _); lia.
  - destruct (Rlt_dec (y - IZR (Zfloor x)) (/ 2)) as [H2|H2]; [lra|].
    destruct (Rlt_dec (/ 2) (x - IZR (Zfloor x))) as [H3|H3].
    + destruct (Rlt_dec (/ 2) (y - IZR (Zfloor x))); [lia|lra].
    + destruct (Rlt_dec (/ 2) (y - IZR (Zfloor x))); [|lia].
      destruct (Z.even _); lia.
Qed.

Section Binary_facts.

Variables (prec emin : Z) (span : nat).
Hypothesis prec_pos : (1 <= prec)%Z.

Lemma binade_scan_spec (n : nat) (y : R) :
  (emin <= binade_scan emin n y <= emin + Z.of_nat n)%Z
  /\ ((emin < binade_scan emin n y)%Z -> pow2 (binade_scan emin n y) <= y)
  /\ ((binade_scan emin n y < emin + Z.of_nat n)%Z ->
      y < pow2 (binade_scan emin n y + 1)).
Proof.
  induction n as [|k IH]; cbn [binade_scan].
  - split; [lia|]. split; intros; lia.
  - destruct (Rle_dec (pow2 (emin + Z.of_nat (S k))) y) as [Hle|Hnle].
    + split; [lia|]. split; [intros _; exact Hle|lia].
    + destruct IH as (Hb & Hlo & Hhi). split; [lia|]. split; [exact Hlo|].
      intros _. destruct (Z.eq_dec (binade_scan emin k y) (emin + Z.of_nat k)%Z) as [E|NE].
      * rewrite E. replace (emin + Z.of_nat k + 1)%Z with (emin + Z.of_nat (S k))%Z by lia.
        lra.
      * apply Hhi. lia.
Qed.

Lemma binade_range (y : R) :
  (emin <= binade emin span y <= emin + Z.of_nat span)%Z.
Proof. apply binade_scan_spec. Qed.

Lemma binade_lower (y : R) :
  (emin < binade emin span y)%Z -> pow2 (binade emin span y) <= y.
Proof. apply binade_scan_spec. Qed.

Lemma binade_upper (y : R) :
  (binade emin span y < emin + Z.of_nat span)%Z -> y < pow2 (binade emin span y + 1).
Proof. apply binade_scan_spec. Qed.

Lemma binade_mono (x y : R) :
  x <= y -> (binade emin span x <= binade emin span y)%Z.
Proof.
  intros Hxy.
  destruct (Z_le_gt_dec (binade emin span x) (binade emin span y)) as [|Hgt];
    [assumption|exfalso].
  pose proof (binade_range x). pose proof (binade_range y).
  assert (pow2 (binade emin span x) <= x) by (apply binade_lower; lia).
  assert (y < pow2 (binade emin span y + 1)) by (apply binade_upper; lia).
  assert (pow2 (binade emin span y + 1) <= pow2 (binade emin span x))
    by (apply pow2_le; lia).
  lra.
Qed.

Lemma ulp_pos (y : R) : 0 < ulp prec emin span y.
Proof. apply pow2_pos. Qed.

Lemma round_pos_nonneg (y : R) : 0 <= y -> 0 <= round_pos prec emin span y.
Proof.
  intros Hy. unfold round_pos. pose proof (ulp_pos y) as Hu.
  apply Rmult_le_pos; [|lra].
  apply IZR_le. rewrite <- (round_even_IZR 0). apply round_even_mono.
  apply Rmult_le_pos; [exact Hy|]. apply Rlt_le, Rinv_0_lt_compat, Hu.
Qed.

Lemma ulp_binade (y : R) (d : Z) :
  pow2 (binade emin span y + d) / ulp prec emin span y = pow2 (prec - 1 + d).
Proof.
  unfold ulp. pose proof (pow2_pos (binade emin span y - prec + 1)) as Hu.
  replace (binade emin span y + d)%Z
    with ((prec - 1 + d) + (binade emin span y - prec + 1))%Z by lia.
  rewrite pow2_add. field. lra.
Qed.

Lemma round_pos_le_next (y : R) :
  0 <= y -> (binade emin span y < emin + Z.of_nat span)%Z ->
  round_pos prec emin span y <= pow2 (binade emin span y + 1).
Proof.
  intros Hy Hb. pose proof (binade_upper y Hb) as Hlt.
  pose proof (ulp_pos y) as Hu. pose proof (ulp_binade y 1) as Hq.
  replace (prec - 1 + 1)%Z with prec in Hq by lia.
  rewrite (pow2_nonneg_exp prec) in Hq by lia.
  assert (Hle : y / ulp prec emin span y <= IZR (2 ^ prec)).
  { rewrite <- Hq. apply Rmult_le_compat_r; [|lra].
    apply Rlt_le, Rinv_0_lt_compat, Hu. }
  apply round_even_mono in Hle. rewrite round_even_IZR in Hle. apply IZR_le in Hle.
  unfold round_pos.
  replace (pow2 (binade emin span y + 1))
    with (IZR (2 ^ prec) * ulp prec emin span y) by (rewrite <- Hq; field; lra).
  apply Rmult_le_compat_r; lra.
Qed.

Lemma round_pos_ge_low (y : R) :
  (emin < binade emin span y)%Z ->
  pow2 (binade emin span y) <= round_pos prec emin span y.
Proof.
  intros Hb. pose proof (binade_lower y Hb) as Hge.
  pose proof (ulp_pos y) as Hu. pose proof (ulp_binade y 0) as Hq.
  rewrite !Z.add_0_r in Hq. rewrite (pow2_nonneg_exp (prec - 1)) in Hq by lia.
  assert (Hle : IZR (2 ^ (prec - 1)) <= y / ulp prec emin span y).
  { rewrite <- Hq. apply Rmult_le_compat_r; [|lra].
    apply Rlt_le, Rinv_0_lt_compat, Hu. }
  apply round_even_mono in Hle. rewrite round_even_IZR in Hle. apply IZR_le in Hle.
  unfold round_pos.
  replace (pow2 (binade emin span y))
    with (IZR (2 ^ (prec - 1)) * ulp prec emin span y) by (rewrite <- Hq; field; lra).
  apply Rmult_le_compat_r; lra.
Qed.

Lemma round_pos_mono (x y : R) :
  0 <= x <= y -> round_pos prec emin span x <= round_pos prec emin span y.
Proof.
  intros [Hx Hxy]. pose proof (binade_mono x y Hxy) as Hb.
  pose proof (binade_range x). pose proof (binade_range y).
  destruct (Z.eq_dec (binade emin span x) (binade emin span y)) as [E|NE].
  - unfold round_pos, ulp. rewrite E.
    pose proof (pow2_pos (binade emin span y - prec + 1)) as Hu.
    apply Rmult_le_compat_r; [lra|]. apply IZR_le, round_even_mono.
    apply Rmult_le_compat_r; [|exact Hxy]. apply Rlt_le, Rinv_0_lt_compat, Hu.
  - eapply Rle_trans; [apply round_pos_le_next; [exact Hx|lia]|].
    eapply Rle_trans; [|apply round_pos_ge_low; lia].
    apply pow2_le. lia.
Qed.

Lemma round_pos_error (y : R) :
  Rabs (round_pos prec emin span y - y) <= ulp prec emin span y / 2.
Proof.
  pose proof (ulp_pos y) as Hu. unfold round_pos.
  replace (IZR (round_even (y / ulp prec emin span y)) * ulp prec emin span y - y)
    with ((IZR (round_even (y / ulp prec emin span y)) - y / ulp prec emin span y)
          * ulp prec emin span y) by (field; lra).
  rewrite Rabs_mult, (Rabs_pos_eq (ulp prec emin span y)) by lra.
  pose proof (round_even_error (y / ulp prec emin span y)). nra.
Qed.

Lemma round_pos_exact (m k : Z) :
  (0 <= m < 2 ^ prec)%Z -> (emin - prec + 1 <= k)%Z ->
  round_pos prec emin span (IZR m * pow2 k) = IZR m * pow2 k.
Proof.
  intros Hm Hk. set (y := IZR m * pow2 k).
  assert (He : (binade emin span y - prec + 1 <= k)%Z).
  { destruct (Z.eq_dec (binade emin span y) emin) as [E|NE]; [lia|].
    pose proof (binade_range y).
    assert (Hlo : pow2 (binade emin span y) <= y) by (apply binade_lower; lia).
    assert (Hhi : y < pow2 (prec + k)).
    { unfold y. rewrite pow2_add, (pow2_nonneg_exp prec) by lia.
      pose proof (pow2_pos k). assert (IZR m < IZR (2 ^ prec)) by (apply IZR_lt; lia).
      nra. }
    assert (binade emin span y < prec + k)%Z by (apply pow2_lt_inv; lra).
    lia. }
  unfold round_pos, ulp.
  set (u := (binade emin span y - prec + 1)%Z) in *.
  pose proof (pow2_pos u) as Hu.
  assert (Hq : y / pow2 u = IZR (m * 2 ^ (k - u))).
  { unfold y. replace k with ((k - u) + u)%Z at 1 by lia.
    rewrite pow2_add, (pow2_nonneg_exp (k - u)), mult_IZR by lia. field. lra. }
  rewrite Hq, round_even_IZR, <- Hq. field. lra.
Qed.

Lemma round_nearest_opp (x : R) :
  round_nearest prec emin span (- x) = - round_nearest prec emin span x.
Proof.
  unfold round_nearest.
  destruct (Rlt_dec (- x) 0), (Rlt_dec x 0); try lra.
  - now rewrite Ropp_involutive.
  - assert (x = 0) as -> by lra. rewrite Ropp_0.
    replace 0 with (IZR 0 * pow2 (emin - prec + 1)) by lra.
    rewrite round_pos_exact; [lra| |lia].
    pose proof (Z.pow_pos_nonneg 2 prec ltac:(lia) ltac:(lia)). lia.
Qed.

Lemma round_nearest_mono (x y : R) :
  x <= y -> round_nearest prec emin span x <= round_nearest prec emin span y.
Proof.
  intros Hxy. unfold round_nearest.
  destruct (Rlt_dec x 0), (Rlt_dec y 0); try lra.
  - apply Ropp_le_contravar, round_pos_mono. lra.
  - pose proof (round_pos_nonneg (- x) ltac:(lra)).
    pose proof (round_pos_nonneg y ltac:(lra)). lra.
  - apply round_pos_mono. lra.
Qed.

Lemma round_nearest_exact (m k : Z) :
  (Z.abs m < 2 ^ prec)%Z -> (emin - prec + 1 <= k)%Z ->
  round_nearest prec emin span (IZR m * pow2 k) = IZR m * pow2 k.
Proof.
  intros Hm Hk. pose proof (pow2_pos k) as Hp. unfold round_nearest.
  destruct (Rlt_dec (IZR m * pow2 k) 0) as [Hneg|Hpos].
  - assert (m < 0)%Z.
    { destruct (Z_lt_le_dec m 0) as [|Hge]; [assumption|].
      apply IZR_le in Hge. nra. }
    replace (- (IZR m * pow2 k)) with (IZR (- m) * pow2 k) by (rewrite opp_IZR; lra).
    rewrite round_pos_exact by lia. rewrite opp_IZR. lra.
  - assert (0 <= m)%Z.
    { destruct (Z_lt_le_dec m 0) as [Hlt|]; [|assumption].
      apply IZR_lt in Hlt. nra. }
    apply round_pos_exact; lia.
Qed.

Lemma round_nearest_error (x : R) :
  Rabs (round_nearest prec emin span x - x) <= ulp prec emin span (Rabs x) / 2.
Proof.
  unfold round_nearest. destruct (Rlt_dec x 0) as [Hneg|Hpos].
  - rewrite (Rabs_left x) by exact Hneg.
    replace (- round_pos prec emin span (- x) - x)
      with (- (round_pos prec emin span (- x) - - x)) by lra.
    rewrite Rabs_Ropp. apply round_pos_error.
  - rewrite (Rabs_pos_eq x) by lra. apply round_pos_error.
Qed.

Lemma round_nearest_between (a b x : R) :
  round_nearest prec emin span a = a -> round_nearest prec emin span b = b ->
  a <= x <= b -> a <= round_nearest prec emin span x <= b.
Proof.
  intros Ha Hb [H1 H2]. split.
  - rewrite <- Ha. now apply round_nearest_mono.
  - rewrite <- Hb. now apply round_nearest_mono.
Qed.

End Binary_facts.

(** ** float32 and float64 *)

Arguments ToFloat32 : simpl never.
Arguments Float64 : simpl never.

Lemma pow2_neg (n : Z) : pow2 (- n) = / pow2 n.
Proof. apply powerRZ_neg'. Qed.

Lemma float32_exact (m k : Z) :
  (Z.abs m < 2 ^ 24)%Z -> (-149 <= k)%Z -> float32 (IZR m * pow2 k) = IZR m * pow2 k.
Proof. intros Hm Hk. apply round_nearest_exact; lia. Qed.

Lemma float32_int (m : Z) : (Z.abs m < 2 ^ 24)%Z -> float32 (IZR m) = IZR m.
Proof.
  intros Hm. pose proof (float32_exact m 0 Hm ltac:(lia)) as H.
  rewrite pow2_0, Rmult_1_r in H. exact H.
Qed.

Lemma float32_0 : float32 0 = 0.
Proof. apply (float32_int 0). cbn. lia. Qed.

Lemma float32_1 : float32 1 = 1.
Proof. apply (float32_int 1). cbn. lia. Qed.

Lemma float32_m1 : float32 (-1) = -1.
Proof. apply (float32_int (-1)). cbn. lia. Qed.

Lemma pow2_m1 : pow2 (-1) = / 2.
Proof. change (pow2 (-1)) with (pow2 (- (1))). now rewrite pow2_neg, pow2_1. Qed.

Lemma pow2_m24 : pow2 (-24) = / 16777216.
Proof.
  change (pow2 (-24)) with (pow2 (- (24))).
  rewrite pow2_neg, (pow2_nonneg_exp 24) by lia. reflexivity.
Qed.

Lemma float32_half : float32 (/ 2) = / 2.
Proof.
  pose proof (float32_exact 1 (-1) ltac:(cbn; lia) ltac:(lia)) as H.
  rewrite pow2_m1, Rmult_1_l in H. exact H.
Qed.

Lemma float32_mono (x y : R) : x <= y -> float32 x <= float32 y.
Proof. apply round_nearest_mono. lia. Qed.

Lemma float32_unit (x : R) : 0 <= x <= 1 -> 0 <= float32 x <= 1.
Proof.
  intros H. apply (round_nearest_between 24 (-126) 253 ltac:(lia) 0 1 x);
    [exact float32_0|exact float32_1|exact H].
Qed.

Lemma float32_nonneg (x : R) : 0 <= x -> 0 <= float32 x.
Proof. intros H. rewrite <- float32_0. now apply float32_mono. Qed.

Lemma float32_le_1 (x : R) : x <= 1 -> float32 x <= 1.
Proof. intros H. rewrite <- float32_1. now apply float32_mono. Qed.

Lemma float32_pow2 (k : Z) : (-149 <= k)%Z -> float32 (pow2 k) = pow2 k.
Proof.
  intros Hk. pose proof (float32_exact 1 k ltac:(cbn; lia) Hk) as H.
  now rewrite Rmult_1_l in H.
Qed.

Lemma float32_opp (x : R) : float32 (- x) = - float32 x.
Proof. apply round_nearest_opp. lia. Qed.

(** Below [2^127] in size, a number converts to float32 without overflow. *)
Lemma float32_bounded (x : R) : Rabs x <= pow2 127 -> Rabs (float32 x) <= pow2 127.
Proof.
  intros H. pose proof (Rle_abs x) as H1. pose proof (Rle_abs (- x)) as H2.
  rewrite Rabs_Ropp in H2. apply Rabs_le.
  pose proof (float32_pow2 127 ltac:(lia)) as Hp.
  split.
  - rewrite <- Hp, <- float32_opp. apply float32_mono. lra.
  - rewrite <- Hp. apply float32_mono. lra.
Qed.

Lemma ToFloat32_Fin (x : R) :
  Rabs x <= pow2 127 -> ToFloat32 (Fin x) = Fin (float32 x).
Proof.
  intros H. apply float32_bounded in H. unfold ToFloat32, rounded.
  pose proof (pow2_lt 127 128 ltac:(lia)).
  destruct (Rle_dec (pow2 128) (Rabs (float32 x))); [lra|reflexivity].
Qed.

Lemma pow2_127_large : 1000 <= pow2 127.
Proof.
  eapply Rle_trans; [|apply (pow2_le 10 127); lia].
  rewrite (pow2_nonneg_exp 10) by lia. apply IZR_le. cbn. lia.
Qed.

(** For a number of [[-1,1]] the float32 is within [2^-25] of it. *)
Lemma float32_error_unit (x : R) :
  Rabs x <= 1 -> Rabs (float32 x - x) <= pow2 (-25).
Proof.
  intros Hx. destruct (Req_dec_T (Rabs x) 1) as [E|NE].
  - pose proof (pow2_pos (-25)).
    assert (float32 x = x) as ->.
    { destruct (Rcase_abs x) as [Hn|Hp].
      - rewrite (Rabs_left x Hn) in E. replace x with (-1) by lra. apply float32_m1.
      - rewrite (Rabs_right x Hp) in E. rewrite E. apply float32_1. }
    rewrite Rminus_diag, Rabs_R0. lra.
  - eapply Rle_trans; [apply round_nearest_error; lia|].
    assert (Hb : (binade (-126) 253 (Rabs x) <= -1)%Z).
    { destruct (Z_le_gt_dec (binade (-126) 253 (Rabs x)) (-1)) as [|Hgt]; [assumption|].
      pose proof (binade_lower (-126) 253 (Rabs x) ltac:(lia)) as Hlo.
      pose proof (pow2_le 0 (binade (-126) 253 (Rabs x)) ltac:(lia)) as Hle.
      rewrite pow2_0 in Hle. lra. }
    unfold ulp.
    pose proof (pow2_le (binade (-126) 253 (Rabs x) - 24 + 1) (-24) ltac:(lia)).
    assert (H24 : pow2 (-24) = 2 * pow2 (-25)).
    { rewrite <- pow2_1, <- pow2_add. reflexivity. }
    lra.
Qed.

Lemma float32_grid (k : Z) :
  (0 <= k <= 2 ^ 24)%Z -> float32 (IZR k * pow2 (-24)) = IZR k * pow2 (-24).
Proof.
  intros Hk. destruct (Z.eq_dec k (2 ^ 24)%Z) as [->|NE].
  - replace (IZR (2 ^ 24) * pow2 (-24)) with 1; [apply float32_1|].
    rewrite <- (pow2_nonneg_exp 24), <- pow2_add by lia. reflexivity.
  - apply float32_exact; lia.
Qed.

Lemma float64_mono (x y : R) : x <= y -> float64 x <= float64 y.
Proof. apply round_nearest_mono. lia. Qed.

Lemma float64_int (m : Z) : (Z.abs m < 2 ^ 53)%Z -> float64 (IZR m) = IZR m.
Proof.
  intros Hm. pose proof (round_nearest_exact 53 (-1022) 2045 ltac:(lia) m 0 Hm ltac:(lia)) as H.
  rewrite pow2_0, Rmult_1_r in H. exact H.
Qed.

(** The value of a rounding in a known binade. *)
Lemma binade_eq (emin : Z) (span : nat) (e : Z) (y : R) :
  (emin <= e <= emin + Z.of_nat span)%Z -> pow2 e <= y < pow2 (e + 1) ->
  binade emin span y = e.
Proof.
  intros He [Hlo Hhi]. pose proof (binade_range emin span y) as Hr.
  destruct (Z_lt_le_dec e (binade emin span y)) as [Hlt|Hge].
  - pose proof (binade_lower emin span y ltac:(lia)).
    pose proof (pow2_le (e + 1) (binade emin span y) ltac:(lia)). lra.
  - destruct (Z_lt_le_dec (binade emin span y) e) as [Hlt|Hge']; [|lia].
    pose proof (binade_upper emin span y ltac:(lia)).
    pose proof (pow2_le (binade emin span y + 1) e ltac:(lia)). lra.
Qed.

Lemma round_even_up (f : Z) (y : R) :
  IZR f + / 2 < y < IZR f + 1 -> round_even y = (f + 1)%Z.
Proof.
  intros H. unfold round_even.
  rewrite (Zfloor_eq f y) by lra.
  destruct (Rlt_dec (y - IZR f) (/ 2)); [lra|].
  destruct (Rlt_dec (/ 2) (y - IZR f)); [reflexivity|lra].
Qed.

Lemma float32_below_1 (f : Z) (y : R) :
  / 2 <= y < 1 -> IZR f + / 2 < y * 16777216 < IZR f + 1 ->
  float32 y = IZR (f + 1) / 16777216.
Proof.
  intros Hy Hf.
  pose proof pow2_m24 as Hp.
  unfold float32, round_nearest. destruct (Rlt_dec y 0); [lra|].
  unfold round_pos, ulp.
  rewrite (binade_eq (-126) 253 (-1) y); [| lia |].
  - change (-1 - 24 + 1)%Z with (-24)%Z. rewrite Hp.
    rewrite (round_even_up f); [reflexivity|].
    unfold Rdiv. rewrite Rinv_inv. exact Hf.
  - rewrite pow2_m1. change (-1 + 1)%Z with 0%Z. rewrite pow2_0. lra.
Qed.

(** *** Doubles *)

Lemma float64_exact (m k : Z) :
  (Z.abs m < 2 ^ 53)%Z -> (-1074 <= k)%Z -> float64 (IZR m * pow2 k) = IZR m * pow2 k.
Proof. intros Hm Hk. apply round_nearest_exact; lia. Qed.

Lemma float64_pow2 (k : Z) : (-1074 <= k)%Z -> float64 (pow2 k) = pow2 k.
Proof.
  intros Hk. pose proof (float64_exact 1 k ltac:(cbn; lia) Hk) as H.
  now rewrite Rmult_1_l in H.
Qed.

Lemma float64_opp (x : R) : float64 (- x) = - float64 x.
Proof. apply round_nearest_opp. lia. Qed.

Lemma float64_0 : float64 0 = 0.
Proof. apply (float64_int 0). cbn. lia. Qed.

Lemma float64_1 : float64 1 = 1.
Proof. apply (float64_int 1). cbn. lia. Qed.

Lemma float64_half : float64 (/ 2) = / 2.
Proof.
  pose proof (float64_exact 1 (-1) ltac:(cbn; lia) ltac:(lia)) as H.
  rewrite pow2_m1, Rmult_1_l in H. exact H.
Qed.

(** Below [2^1023] in size, the exact result rounds to a double without
    overflow. *)
Lemma float64_bounded (x : R) : Rabs x <= pow2 1023 -> Rabs (float64 x) <= pow2 1023.
Proof.
  intros H. pose proof (Rle_abs x) as H1. pose proof (Rle_abs (- x)) as H2.
  rewrite Rabs_Ropp in H2. apply Rabs_le.
  pose proof (float64_pow2 1023 ltac:(lia)) as Hp.
  split.
  - rewrite <- Hp, <- float64_opp. apply float64_mono. lra.
  - rewrite <- Hp. apply float64_mono. lra.
Qed.

Lemma Float64_Fin (x : R) :
  Rabs x <= pow2 1023 -> Float64 (Fin x) = Fin (float64 x).
Proof.
  intros H. apply float64_bounded in H. unfold Float64, rounded.
  pose proof (pow2_lt 1023 1024 ltac:(lia)).
  destruct (Rle_dec (pow2 1024) (Rabs (float64 x))); [lra|reflexivity].
Qed.

Lemma pow2_1023_large : IZR (2 ^ 53) <= pow2 1023.
Proof.
  rewrite <- (pow2_nonneg_exp 53) by lia. apply pow2_le. lia.
Qed.

Lemma Float64_small (x : R) :
  Rabs x <= IZR (2 ^ 53) -> Float64 (Fin x) = Fin (float64 x).
Proof.
  intros H. apply Float64_Fin. pose proof pow2_1023_large. lra.
Qed.

(** An integer below [2^53] in size is a double. *)
Lemma Float64_int (m : Z) :
  (Z.abs m < 2 ^ 53)%Z -> Float64 (Fin (IZR m)) = Fin (IZR m).
Proof.
  intros Hm. rewrite Float64_small, float64_int by (try rewrite <- abs_IZR; try apply IZR_le; lia).
  reflexivity.
Qed.



Lemma Float64_half : Float64 (Fin (/ 2)) = Fin (/ 2).
Proof.
  rewrite Float64_small, float64_half; [reflexivity|].
  rewrite Rabs_right by lra. apply Rle_trans with 1; [lra|].
  apply IZR_le. cbn. lia.
Qed.

(** *** Rounding a given number *)

Lemma round_even_down (f : Z) (y : R) :
  IZR f <= y < IZR f + / 2 -> round_even y = f.
Proof.
  intros H. unfold round_even.
  rewrite (Zfloor_eq f y) by lra.
  destruct (Rlt_dec (y - IZR f) (/ 2)); [reflexivity|lra].
Qed.

Lemma round_nearest_at (prec emin : Z) (span : nat) (e n : Z) (y : R) :
  (emin <= e <= emin + Z.of_nat span)%Z -> pow2 e <= y < pow2 (e + 1) ->
  round_even (y / pow2 (e - prec + 1)) = n ->
  round_nearest prec emin span y = IZR n * pow2 (e - prec + 1).
Proof.
  intros He Hy Hn. pose proof (pow2_pos e).
  unfold round_nearest. destruct (Rlt_dec y 0); [lra|].
  unfold round_pos, ulp. rewrite (binade_eq emin span e y He Hy). now rewrite Hn.
Qed.

Lemma pow2_inv (n : Z) : (0 <= n)%Z -> pow2 (- n) = / IZR (2 ^ n).
Proof. intros H. now rewrite pow2_neg, pow2_nonneg_exp. Qed.

(** The double nearest to 0.7, times 30, is below 21 and rounds to 21. *)
Lemma float64_product_21 :
  float64 (6305039478318694 / 9007199254740992 * 30) = 21.
Proof.
  unfold float64.
  rewrite (round_nearest_at 53 (-1022) 2045 4 5910974510923776).
  - change (4 - 53 + 1)%Z with (- (48))%Z. rewrite pow2_inv by lia.
    change (2 ^ 48)%Z with 281474976710656%Z. lra.
  - lia.
  - change (4 + 1)%Z with 5%Z. rewrite !pow2_nonneg_exp by lia.
    change (2 ^ 4)%Z with 16%Z. change (2 ^ 5)%Z with 32%Z. lra.
  - change (4 - 53 + 1)%Z with (- (48))%Z. rewrite pow2_inv by lia.
    change (2 ^ 48)%Z with 281474976710656%Z.
    unfold Rdiv at 1. rewrite Rinv_inv.
    change 5910974510923776%Z with (5910974510923775 + 1)%Z.
    apply round_even_up. lra.
Qed.

(** The mean of the float32 nearest to 0.3 and the float32 nearest to 0.2
    is stored as 0.25. *)
Lemma float32_mean_quarter :
  float32 ((10066330 / 33554432 + 13421773 / 67108864) / 2) = / 4.
Proof.
  unfold float32.
  rewrite (round_nearest_at 24 (-126) 253 (-2) 8388608).
  - change (-2 - 24 + 1)%Z with (- (25))%Z. rewrite pow2_inv by lia.
    change (2 ^ 25)%Z with 33554432%Z. lra.
  - lia.
  - change (-2 + 1)%Z with (- (1))%Z. change (-2)%Z with (- (2))%Z.
    rewrite !pow2_inv by lia.
    change (2 ^ 2)%Z with 4%Z. change (2 ^ 1)%Z with 2%Z. lra.
  - change (-2 - 24 + 1)%Z with (- (25))%Z. rewrite pow2_inv by lia.
    change (2 ^ 25)%Z with 33554432%Z.
    unfold Rdiv at 1. rewrite Rinv_inv.
    apply round_even_down. lra.
Qed.

(** *** A number of one format in a finer format *)

Section Two_formats.

Variables (prec emin : Z) (span : nat) (prec2 emin2 : Z) (span2 : nat).
Hypothesis prec_pos : (1 <= prec)%Z.
Hypothesis prec_le : (prec <= prec2)%Z.
Hypothesis low_le : (emin2 - prec2 <= emin - prec)%Z.

Lemma round_pos_mantissa (y : R) :
  0 <= y <= pow2 (emin + Z.of_nat span + 1) ->
  (0 <= round_even (y / ulp prec emin span y) <= 2 ^ prec)%Z.
Proof.
  intros [H0 H1]. pose proof (ulp_pos prec emin span y) as Hu.
  pose proof (binade_range emin span y) as Hr.
  assert (Hinv : 0 < / ulp prec emin span y) by now apply Rinv_0_lt_compat.
  split.
  - rewrite <- (round_even_IZR 0). apply round_even_mono.
    apply Rmult_le_pos; lra.
  - rewrite <- (round_even_IZR (2 ^ prec)). apply round_even_mono.
    pose proof (ulp_binade prec emin span y 1) as Hq.
    replace (prec - 1 + 1)%Z with prec in Hq by lia.
    rewrite (pow2_nonneg_exp prec) in Hq by lia. rewrite <- Hq.
    apply Rmult_le_compat_r; [lra|].
    destruct (Z_lt_le_dec (binade emin span y) (emin + Z.of_nat span)) as [Hlt|Hge].
    + left. now apply binade_upper.
    + replace (binade emin span y) with (emin + Z.of_nat span)%Z by lia. exact H1.
Qed.

Lemma round_pos_into (y : R) :
  0 <= y <= pow2 (emin + Z.of_nat span + 1) ->
  round_pos prec2 emin2 span2 (round_pos prec emin span y) = round_pos prec emin span y.
Proof.
  intros Hy. pose proof (round_pos_mantissa y Hy) as Hn.
  pose proof (binade_range emin span y) as Hr.
  unfold round_pos at 2 3.
  set (n := round_even (y / ulp prec emin span y)) in *.
  unfold ulp. set (k := (binade emin span y - prec + 1)%Z).
  assert (Hpow : (2 ^ prec <= 2 ^ prec2)%Z) by (apply Z.pow_le_mono_r; lia).
  destruct (Z.eq_dec n (2 ^ prec)%Z) as [E|NE].
  - replace (IZR n * pow2 k) with (IZR (2 ^ (prec - 1)) * pow2 (k + 1)).
    + apply round_pos_exact; [lia| |lia].
      split; [apply Z.pow_nonneg; lia|].
      apply Z.lt_le_trans with (2 ^ prec)%Z; [|exact Hpow].
      apply Z.pow_lt_mono_r; lia.
    + rewrite E, pow2_add, pow2_1.
      replace prec with ((prec - 1) + 1)%Z at 2 by lia.
      rewrite Z.pow_add_r, mult_IZR by lia. cbn. lra.
  - apply round_pos_exact; lia.
Qed.

Lemma round_nearest_into (x : R) :
  Rabs x <= pow2 (emin + Z.of_nat span + 1) ->
  round_nearest prec2 emin2 span2 (round_nearest prec emin span x)
  = round_nearest prec emin span x.
Proof.
  intros Hx. pose proof (Rle_abs x) as H1. pose proof (Rle_abs (- x)) as H2.
  rewrite Rabs_Ropp in H2.
  unfold round_nearest at 2 3. destruct (Rlt_dec x 0) as [Hneg|Hpos].
  - rewrite (round_nearest_opp prec2 emin2 span2) by lia. f_equal.
    pose proof (round_pos_nonneg prec emin span (- x) ltac:(lra)) as Hr.
    unfold round_nearest.
    destruct (Rlt_dec (round_pos prec emin span (- x)) 0); [lra|].
    apply round_pos_into. lra.
  - pose proof (round_pos_nonneg prec emin span x ltac:(lra)) as Hr.
    unfold round_nearest.
    destruct (Rlt_dec (round_pos prec emin span x) 0); [lra|].
    apply round_pos_into. lra.
Qed.

End Two_formats.

(** A float32 is a double, and a double rounds to itself. *)
Lemma float32_is_double (x : R) :
  Rabs x <= pow2 128 -> float64 (float32 x) = float32 x.
Proof. intros H. apply round_nearest_into; [lia|lia|lia|exact H]. Qed.

Lemma float64_idem (x : R) :
  Rabs x <= pow2 1024 -> float64 (float64 x) = float64 x.
Proof. intros H. apply round_nearest_into; [lia|lia|lia|exact H]. Qed.

Lemma float32_idem (x : R) :
  Rabs x <= pow2 128 -> float32 (float32 x) = float32 x.
Proof. intros H. apply round_nearest_into; [lia|lia|lia|exact H]. Qed.

Lemma float64_pow2_1024 : float64 (pow2 1024) = pow2 1024.
Proof.
  pose proof (round_nearest_exact 53 (-1022) 2045 ltac:(lia) 1 1024
                ltac:(cbn; lia) ltac:(lia)) as H.
  now rewrite Rmult_1_l in H.
Qed.

(** A result that does not overflow comes from a number below [2^1024]. *)
Lemma float64_finite_inv (x : R) :
  Rabs (float64 x) < pow2 1024 -> Rabs x < pow2 1024.
Proof.
  intros H. destruct (Rlt_dec (Rabs x) (pow2 1024)) as [|Hbig]; [assumption|exfalso].
  pose proof float64_pow2_1024 as Hp.
  destruct (Rle_dec 0 x) as [Hx|Hx].
  - rewrite Rabs_pos_eq in Hbig by exact Hx.
    assert (pow2 1024 <= float64 x) by (rewrite <- Hp; apply float64_mono; lra).
    pose proof (Rle_abs (float64 x)). lra.
  - rewrite Rabs_left in Hbig by lra.
    assert (float64 x <= - pow2 1024)
      by (rewrite <- Hp, <- float64_opp; apply float64_mono; lra).
    pose proof (Rle_abs (- float64 x)) as Ha. rewrite Rabs_Ropp in Ha. lra.
Qed.

Lemma Float64_idem (v : number) : Float64 (Float64 v) = Float64 v.
Proof.
  destruct v as [r| | |]; try reflexivity.
  unfold Float64, rounded.
  destruct (Rle_dec (pow2 1024) (Rabs (float64 r))) as [Hbig|Hsmall].
  - now destruct (Rlt_dec (float64 r) 0).
  - assert (Hr : Rabs r < pow2 1024) by (apply float64_finite_inv; lra).
    rewrite float64_idem by lra.
    destruct (Rle_dec (pow2 1024) (Rabs (float64 r))); [contradiction|reflexivity].
Qed.

(** Below a double [B] in size, an exact result rounds to a double below
    [B] in size. *)
Lemma Float64_within (B x : R) :
  float64 B = B -> B < pow2 1024 -> Rabs x <= B ->
  Float64 (Fin x) = Fin (float64 x) /\ Rabs (float64 x) <= B.
Proof.
  intros HB Hlt Hx. pose proof (Rle_abs x) as H1. pose proof (Rle_abs (- x)) as H2.
  rewrite Rabs_Ropp in H2.
  assert (Hy : Rabs (float64 x) <= B).
  { apply Rabs_le. split.
    - rewrite <- HB, <- float64_opp. apply float64_mono. lra.
    - rewrite <- HB. apply float64_mono. lra. }
  split; [|exact Hy]. unfold Float64, rounded.
  destruct (Rle_dec (pow2 1024) (Rabs (float64 x))); [lra|reflexivity].
Qed.

Lemma Float64_within_pow2 (k : Z) (x : R) :
  (-1074 <= k <= 1023)%Z -> Rabs x <= pow2 k ->
  Float64 (Fin x) = Fin (float64 x) /\ Rabs (float64 x) <= pow2 k.
Proof.
  intros Hk. apply Float64_within; [apply float64_pow2; lia|apply pow2_lt; lia].
Qed.

Lemma Float64_1 : Float64 (Fin 1) = Fin 1.
Proof. apply (Float64_int 1). cbn. lia. Qed.

Lemma Float64_0 : Float64 (Fin 0) = Fin 0.
Proof. apply (Float64_int 0). cbn. lia. Qed.

(** ** Properties of refineChannel *)

(** Decide the comparisons of a closed real expression. *)
Ltac real_split_min a b :=
  let H := fresh in
  destruct (Rle_dec a b) as [H|H];
  [ rewrite (Rmin_left a b H) in * | rewrite (Rmin_right a b) in * by lra ].

Ltac real_split_max a b :=
  let H := fresh in
  destruct (Rle_dec a b) as [H|H];
  [ rewrite (Rmax_right a b H) in * | rewrite (Rmax_left a b) in * by lra ].

Ltac real_cases :=
  repeat match goal with
         | |- context [Rlt_dec ?a ?b] => destruct (Rlt_dec a b)
         | _ : context [Rlt_dec ?a ?b] |- _ => destruct (Rlt_dec a b)
         | |- context [Rmin ?a ?b] => real_split_min a b
         | _ : context [Rmin ?a ?b] |- _ => real_split_min a b
         | |- context [Rmax ?a ?b] => real_split_max a b
         | _ : context [Rmax ?a ?b] |- _ => real_split_max a b
         end;
  try lra.

Lemma get_middle (pre : list number) (x : number) (rest : list number) :
  get (pre ++ x :: rest) (length pre) = x.
Proof.
  unfold get. now rewrite list_lookup_middle.
Qed.

Lemma refine_loop_trace (s : RefinementSettings) (alpha : number) (rest : list number) :
  forall (pre : list number) (smoothed : number) (done todo : list number),
    length done = length pre ->
    length todo = length rest ->
    snd (fold_left (refine_body s alpha (pre ++ rest))
           (seq (length pre) (length rest)) (smoothed, done ++ todo))
    = done ++ refine_trace s alpha smoothed rest.
Proof.
  induction rest as [|x rest IH]; intros pre smoothed done todo Hd Ht.
  - destruct todo; [reflexivity | discriminate].
  - destruct todo as [|t todo]; [discriminate|].
    cbn [length seq fold_left refine_body refine_trace].
    rewrite get_middle.
    set (smoothed' := smooth_stage alpha smoothed (gain_stage s (gate_stage s x))).
    replace (<[length pre := ToFloat32 (invert_stage s (clip_stage s smoothed'))]>
             (done ++ t :: todo))
      with ((done ++ [ToFloat32 (invert_stage s (clip_stage s smoothed'))]) ++ todo).
    2:{ rewrite <- Hd, insert_app_r_alt by lia.
        rewrite Nat.sub_diag. cbn. now rewrite <- app_assoc. }
    specialize (IH (pre ++ [x]) smoothed').
    rewrite <- app_assoc in IH. cbn [app] in IH.
    rewrite length_app in IH. cbn [length] in IH.
    rewrite Nat.add_1_r in IH.
    rewrite IH.
    + now rewrite <- app_assoc.
    + rewrite !length_app. cbn. lia.
    + cbn in Ht. lia.
Qed.

Lemma refineChannel_trace (raw : list number) (s : RefinementSettings)
    (bpm fps : number) :
  refineChannel raw s bpm fps = refine_trace s (smoothing_alpha s) (Fin 0) raw.
Proof.
  unfold refineChannel, new_Float32Array.
  apply (refine_loop_trace s _ raw [] (Fin 0) [] (replicate (length raw) (Fin 0))).
  - reflexivity.
  - apply length_replicate.
Qed.

Lemma refine_trace_length s alpha smoothed raw :
  length (refine_trace s alpha smoothed raw) = length raw.
Proof.
  revert smoothed; induction raw as [|x raw IH]; intros smoothed; cbn; [|rewrite IH]; reflexivity.
Qed.

(** *** The loop on finite numbers *)

Lemma clamp_bounds (x : R) : 0 <= clamp x 0 1 <= 1.
Proof. unfold clamp. real_cases. Qed.

Lemma clamp_id (x : R) : 0 <= x <= 1 -> clamp x 0 1 = x.
Proof. intros H. unfold clamp. real_cases. Qed.

Lemma Math_max_Fin (a b : R) : Math_max (Fin a) (Fin b) = Fin (Rmax a b).
Proof.
  unfold Math_max, Num.ltb, Rmax.
  destruct (Rlt_dec a b), (Rle_dec a b); try reflexivity; try lra.
  f_equal. lra.
Qed.

Lemma Math_min_Fin (a b : R) : Math_min (Fin a) (Fin b) = Fin (Rmin a b).
Proof.
  unfold Math_min, Num.ltb, Rmin.
  destruct (Rlt_dec b a), (Rle_dec a b); try reflexivity; try lra; f_equal; lra.
Qed.

Lemma gate_stage_Fin s x : gate_stage s (Fin x) = Fin (gated s x).
Proof. unfold gate_stage, gated. cbn. now destruct (Rlt_dec x (gate s)). Qed.

Lemma clip_stage_Fin s x : clip_stage s (Fin x) = Fin (clipped s x).
Proof.
  unfold clip_stage, clipped, clamp. destruct (clip s).
  - now rewrite Math_min_Fin, Math_max_Fin.
  - apply Math_max_Fin.
Qed.

Lemma clipped_nonneg s x : 0 <= clipped s x.
Proof. unfold clipped, clamp. destruct (clip s); apply Rmax_l. Qed.

Lemma clipped_unit s x : clip s = true -> 0 <= clipped s x <= 1.
Proof. unfold clipped. intros ->. apply clamp_bounds. Qed.

Lemma clipped_le s x : Rabs (clipped s x) <= Rmax 1 (Rabs x).
Proof.
  pose proof (clipped_nonneg s x) as H0. rewrite (Rabs_pos_eq _ H0).
  unfold clipped, clamp. pose proof (Rle_abs x). destruct (clip s); real_cases.
Qed.

Lemma ToFloat32_unit (v : R) : 0 <= v <= 1 -> ToFloat32 (Fin v) = Fin (float32 v).
Proof.
  intros H. apply ToFloat32_Fin. pose proof pow2_127_large.
  rewrite Rabs_pos_eq; lra.
Qed.

(** Powers of two that bound the loop. *)
Lemma pow2_double (k : Z) : pow2 k + pow2 k = pow2 (k + 1).
Proof. rewrite pow2_add, pow2_1. lra. Qed.

Lemma gated_le s x : Rabs (gated s x) <= Rabs x.
Proof.
  unfold gated. destruct (Rlt_dec x (gate s)); [|lra].
  rewrite Rabs_R0. apply Rabs_pos.
Qed.

(** On bounded settings and samples the gain/offset stage does not
    overflow. *)
Lemma gain_stage_Fin s x :
  bounded_settings s -> bounded_sample x ->
  gain_stage s (gate_stage s (Fin x)) = Fin (gained s x)
  /\ Rabs (gained s x) <= pow2 257.
Proof.
  intros [Ho Hg] Hx. unfold bounded_sample in Hx.
  rewrite gate_stage_Fin. unfold gain_stage, gained.
  pose proof (gated_le s x) as Hgx.
  assert (Hsum : Rabs (gated s x + offset s) <= pow2 129).
  { eapply Rle_trans; [apply Rabs_triang|].
    change 129%Z with (128 + 1)%Z. rewrite <- pow2_double. lra. }
  destruct (Float64_within_pow2 129 _ ltac:(lia) Hsum) as [E1 B1].
  cbn [Num.add]. rewrite E1. cbn [Num.mul].
  assert (Hprod : Rabs (float64 (gated s x + offset s) * gain s) <= pow2 257).
  { rewrite Rabs_mult. change 257%Z with (129 + 128)%Z. rewrite pow2_add.
    pose proof (Rabs_pos (float64 (gated s x + offset s))).
    pose proof (Rabs_pos (gain s)). nra. }
  exact (Float64_within_pow2 257 _ ltac:(lia) Hprod).
Qed.

Lemma invert_stage_Fin s c :
  Rabs c <= pow2 300 -> invert_stage s (Fin c) = Fin (inverted s c).
Proof.
  intros Hc. unfold invert_stage, inverted. destruct (invert s); [|reflexivity].
  cbn [Num.sub Num.neg Num.add].
  replace (1 + - c) with (1 - c) by lra.
  apply (Float64_within_pow2 301); [lia|].
  change 301%Z with (300 + 1)%Z. rewrite <- pow2_double.
  pose proof (pow2_ge_1 300 ltac:(lia)).
  eapply Rle_trans; [apply Rabs_triang|]. rewrite Rabs_Ropp, Rabs_R1. lra.
Qed.

Lemma inverted_unit s c : 0 <= c <= 1 -> 0 <= inverted s c <= 1.
Proof.
  intros Hc. unfold inverted. destruct (invert s); [|exact Hc].
  apply (round_nearest_between 53 (-1022) 2045 ltac:(lia) 0 1);
    [exact float64_0|exact float64_1|lra].
Qed.

(** *** Without smoothing *)

Lemma Num_mul_1_r (v : number) : (v * Fin 1)%num = v.
Proof.
  destruct v as [r| | |]; cbn; try reflexivity.
  - now rewrite Rmult_1_r.
  - unfold Num.inf_times. destruct (Req_dec_T 1 0); [lra|].
    destruct (Rlt_dec 0 1); [reflexivity|lra].
  - unfold Num.inf_times. destruct (Req_dec_T 1 0); [lra|].
    destruct (Rlt_dec 0 1); [reflexivity|lra].
Qed.

Lemma Num_add_0_l (v : number) : (Fin 0 + v)%num = v.
Proof. destruct v as [r| | |]; cbn; try reflexivity. now rewrite Rplus_0_l. Qed.

Lemma one_minus_one : Float64 (Fin 1 - Fin 1)%num = Fin 0.
Proof.
  cbn [Num.sub Num.neg Num.add]. replace (1 + - (1)) with 0 by lra.
  exact Float64_0.
Qed.

(** With [alpha = 1] and a finite state the filter returns its input. *)
Lemma smooth_stage_alpha_1 (v : R) (val : number) :
  smooth_stage (Fin 1) (Fin v) val = Float64 val.
Proof.
  unfold smooth_stage. rewrite one_minus_one. cbn [Num.mul].
  rewrite Rmult_0_r, Float64_0, Num_mul_1_r, Num_add_0_l.
  apply Float64_idem.
Qed.

(** With [alpha = 1] and a state that is not finite the filter returns
    [NaN]: infinity times zero. *)
Lemma smooth_stage_alpha_1_lost (sm val : number) :
  sm = PInf \/ sm = NInf \/ sm = NaN -> smooth_stage (Fin 1) sm val = NaN.
Proof.
  intros H. unfold smooth_stage. rewrite one_minus_one.
  destruct H as [-> | [-> | ->] ]; cbn [Num.mul]; unfold Num.inf_times;
    try (destruct (Req_dec_T 0 0); [|lra]); reflexivity.
Qed.

Lemma Float64_unit (x : R) :
  0 <= x <= 1 -> Float64 (Fin x) = Fin (float64 x) /\ 0 <= float64 x <= 1.
Proof.
  intros H. split.
  - apply Float64_small. rewrite Rabs_pos_eq by lra.
    apply Rle_trans with 1; [lra|]. apply IZR_le. cbn. lia.
  - apply (round_nearest_between 53 (-1022) 2045 ltac:(lia) 0 1);
      [exact float64_0|exact float64_1|exact H].
Qed.

Lemma smoothing_alpha_0 s : smooth s = 0 -> smoothing_alpha s = Fin 1.
Proof.
  intros Hs. unfold smoothing_alpha, Math_pow_half. rewrite Hs.
  destruct (Rlt_dec 0 0); [lra|]. rewrite sqrt_0, Float64_0.
  destruct (Float64_unit 0.95 ltac:(lra)) as [E _]. rewrite E.
  cbn [Num.mul]. rewrite Rmult_0_l, Float64_0.
  cbn [Num.sub Num.neg Num.add]. replace (1 + - 0) with 1 by lra.
  exact Float64_1.
Qed.

Lemma refine_trace_alpha_1 s (v : R) (raw : list R) :
  bounded_settings s -> Forall bounded_sample raw ->
  refine_trace s (Fin 1) (Fin v) (map Fin raw)
  = map (fun x => ToFloat32 (Fin (inverted s (clipped s (gained s x))))) raw.
Proof.
  intros Hs Hraw. revert v.
  induction Hraw as [|x raw Hx Hraw IH]; intros v; cbn [map refine_trace];
    [reflexivity|].
  destruct (gain_stage_Fin s x Hs Hx) as [E B].
  rewrite smooth_stage_alpha_1.
  assert (Ev : Float64 (gain_stage s (gate_stage s (Fin x))) = Fin (gained s x)).
  { rewrite <- E. unfold gain_stage. apply Float64_idem. }
  rewrite Ev, clip_stage_Fin, invert_stage_Fin, IH; [reflexivity|].
  eapply Rle_trans; [apply clipped_le|].
  pose proof (pow2_ge_1 300 ltac:(lia)). pose proof (pow2_le 257 300 ltac:(lia)).
  apply Rmax_lub; lra.
Qed.

(** With [smooth = 0] each output is the conversion of the clipped and
    inverted value of its own gated, offset and scaled sample. *)
Lemma refineChannel_alpha_1 (raw : list R) (s : RefinementSettings) (bpm fps : number) :
  smooth s = 0 -> bounded_settings s -> Forall bounded_sample raw ->
  refineChannel (map Fin raw) s bpm fps
  = map (fun x => ToFloat32 (Fin (inverted s (clipped s (gained s x))))) raw.
Proof.
  intros Hsm Hs Hraw. rewrite refineChannel_trace, smoothing_alpha_0 by exact Hsm.
  now apply refine_trace_alpha_1.
Qed.

(** *** With smoothing *)

(** For a [smooth] that is not negative and that a double can hold, the
    coefficient is a finite double. *)
Lemma smoothing_alpha_finite s :
  0 <= smooth s <= pow2 1024 ->
  exists a, smoothing_alpha s = Fin a /\ float64 a = a /\ Rabs a <= pow2 514.
Proof.
  intros [H0 H1]. unfold smoothing_alpha, Math_pow_half.
  destruct (Rlt_dec (smooth s) 0); [lra|].
  pose proof (pow2_pos 512) as Hp.
  assert (Hq : 0 <= sqrt (smooth s) <= pow2 512).
  { split; [apply sqrt_pos|].
    rewrite <- (sqrt_square (pow2 512)) by lra. apply sqrt_le_1_alt.
    change 1024%Z with (512 + 512)%Z in H1. now rewrite pow2_add in H1. }
  destruct (Float64_within_pow2 512 (sqrt (smooth s)) ltac:(lia)
              ltac:(rewrite Rabs_pos_eq; lra)) as [E1 B1]. rewrite E1.
  destruct (Float64_unit 0.95 ltac:(lra)) as [E2 B2]. rewrite E2.
  cbn [Num.mul].
  assert (Hm : Rabs (float64 (sqrt (smooth s)) * float64 0.95) <= pow2 512).
  { rewrite Rabs_mult, (Rabs_pos_eq (float64 0.95)) by lra.
    pose proof (Rabs_pos (float64 (sqrt (smooth s)))). nra. }
  destruct (Float64_within_pow2 512 _ ltac:(lia) Hm) as [E3 B3]. rewrite E3.
  cbn [Num.sub Num.neg Num.add].
  set (r := float64 (float64 (sqrt (smooth s)) * float64 0.95)) in *.
  assert (Hd : Rabs (1 + - r) <= pow2 513).
  { change 513%Z with (512 + 1)%Z. rewrite <- pow2_double.
    pose proof (pow2_ge_1 512 ltac:(lia)).
    eapply Rle_trans; [apply Rabs_triang|]. rewrite Rabs_Ropp, Rabs_R1. lra. }
  destruct (Float64_within_pow2 513 _ ltac:(lia) Hd) as [E4 B4].
  exists (float64 (1 + - r)). split; [exact E4|]. split.
  - apply float64_idem. pose proof (pow2_le 513 1024 ltac:(lia)). lra.
  - pose proof (pow2_le 513 514 ltac:(lia)). lra.
Qed.

(** Only numbers below [2^-1074] in size round to zero. *)
Lemma float64_zero_inv (y : R) : float64 y = 0 -> Rabs y <= pow2 (-1075).
Proof.
  intros Hy.
  pose proof (round_nearest_error 53 (-1022) 2045 y) as He.
  fold (float64 y) in He. rewrite Hy in He.
  replace (0 - y) with (- y) in He by lra. rewrite Rabs_Ropp in He.
  unfold ulp in He.
  pose proof (binade_range (-1022) 2045 (Rabs y)) as Hr.
  destruct (Z.eq_dec (binade (-1022) 2045 (Rabs y)) (-1022)%Z) as [E|NE].
  - rewrite E in He. change (-1022 - 53 + 1)%Z with (-1075 + 1)%Z in He.
    rewrite pow2_add, pow2_1 in He. lra.
  - exfalso.
    pose proof (binade_lower (-1022) 2045 (Rabs y) ltac:(lia)) as Hlo.
    pose proof (pow2_lt (binade (-1022) 2045 (Rabs y) - 53 + 1)
                  (binade (-1022) 2045 (Rabs y)) ltac:(lia)) as Hlt.
    pose proof (pow2_pos (binade (-1022) 2045 (Rabs y) - 53 + 1)). lra.
Qed.

(** Every number close to 1 rounds to 1. *)
Lemma float64_near_1 (a : R) : Rabs (a - 1) <= pow2 (-55) -> float64 a = 1.
Proof.
  intros Ha.
  assert (H55 : pow2 (-55) = / 36028797018963968).
  { change (-55)%Z with (- (55))%Z. now rewrite pow2_inv by lia. }
  rewrite H55 in Ha.
  assert (Hb : - / 36028797018963968 <= a - 1 <= / 36028797018963968).
  { unfold Rabs in Ha. destruct (Rcase_abs (a - 1)); lra. }
  clear Ha. unfold float64.
  destruct (Rle_dec 1 a) as [Hge|Hlt].
  - rewrite (round_nearest_at 53 (-1022) 2045 0 4503599627370496).
    + change (0 - 53 + 1)%Z with (- (52))%Z. rewrite pow2_inv by lia.
      change (IZR (2 ^ 52)) with 4503599627370496. lra.
    + lia.
    + rewrite pow2_0. change (0 + 1)%Z with 1%Z. rewrite pow2_1. lra.
    + change (0 - 53 + 1)%Z with (- (52))%Z. rewrite pow2_inv by lia.
      change (IZR (2 ^ 52)) with 4503599627370496.
      unfold Rdiv. rewrite Rinv_inv. apply round_even_down. lra.
  - rewrite (round_nearest_at 53 (-1022) 2045 (-1) 9007199254740992).
    + change (-1 - 53 + 1)%Z with (- (53))%Z. rewrite pow2_inv by lia.
      change (IZR (2 ^ 53)) with 9007199254740992. lra.
    + lia.
    + rewrite pow2_m1. change (-1 + 1)%Z with 0%Z. rewrite pow2_0. lra.
    + change (-1 - 53 + 1)%Z with (- (53))%Z. rewrite pow2_inv by lia.
      change (IZR (2 ^ 53)) with 9007199254740992.
      unfold Rdiv. rewrite Rinv_inv.
      refine (round_even_up 9007199254740991 _ _). lra.
Qed.

(** The complement of a double other than 1 is not rounded to zero. *)
Lemma double_complement_nonzero (a : R) :
  float64 a = a -> a <> 1 -> float64 (1 + - a) <> 0.
Proof.
  intros Ha Hne Hz. apply float64_zero_inv in Hz. apply Hne.
  rewrite <- Ha. apply float64_near_1.
  replace (a - 1) with (- (1 + - a)) by lra. rewrite Rabs_Ropp.
  pose proof (pow2_le (-1075) (-55) ltac:(lia)). lra.
Qed.

Lemma Float64_Fin_cases (x : R) :
  Float64 (Fin x) = Fin (float64 x) \/ Float64 (Fin x) = PInf \/ Float64 (Fin x) = NInf.
Proof.
  unfold Float64, rounded.
  destruct (Rle_dec (pow2 1024) (Rabs (float64 x))); [|now left].
  destruct (Rlt_dec (float64 x) 0); [now right; right|now right; left].
Qed.

Lemma Float64_settled (v : number) : settled v -> settled (Float64 v).
Proof.
  unfold settled. destruct v as [x| | |]; try easy. intros _.
  destruct (Float64_Fin_cases x) as [-> | [-> | ->] ]; discriminate.
Qed.

Lemma add_Fin_settled (u : number) (q : R) : settled u -> settled (u + Fin q)%num.
Proof. unfold settled. now destruct u. Qed.

Lemma mul_Fin_settled (u : number) (b : R) :
  settled u -> b <> 0 -> settled (u * Fin b)%num.
Proof.
  unfold settled. destruct u as [x| | |]; try easy; intros _ Hb; cbn;
    unfold Num.inf_times; destruct (Req_dec_T b 0); try contradiction;
    destruct (Rlt_dec 0 b); discriminate.
Qed.

(** One step of the filter never makes a state that is not a number out of
    one that is, as long as the coefficient and the scaled sample are
    bounded; and without smoothing it keeps the state finite. *)
Lemma smooth_stage_settled (a b : R) (sm : number) :
  float64 a = a -> Rabs a <= pow2 514 -> Rabs b <= pow2 257 ->
  settled sm -> (a = 1 -> exists v, sm = Fin v) ->
  settled (smooth_stage (Fin a) sm (Fin b))
  /\ (a = 1 -> exists v', smooth_stage (Fin a) sm (Fin b) = Fin v').
Proof.
  intros Ha Hab Hb Hsm Hfin.
  assert (Hq : Rabs (b * a) <= pow2 771).
  { rewrite Rabs_mult. change 771%Z with (257 + 514)%Z. rewrite pow2_add.
    pose proof (Rabs_pos a). pose proof (Rabs_pos b). nra. }
  destruct (Float64_within_pow2 771 _ ltac:(lia) Hq) as [Eq Bq].
  destruct (Req_dec_T a 1) as [E1|NE1].
  - destruct (Hfin E1) as [v ->]. subst a.
    assert (Hs : smooth_stage (Fin 1) (Fin v) (Fin b) = Fin (float64 (b * 1))).
    { rewrite smooth_stage_alpha_1. rewrite Rmult_1_r in Eq |- *. exact Eq. }
    rewrite Hs. split; [discriminate|]. intros _. now eexists.
  - split; [|intros E; contradiction].
    unfold smooth_stage. cbn [Num.sub Num.neg Num.add].
    assert (Hd : Rabs (1 + - a) <= pow2 515).
    { change 515%Z with (514 + 1)%Z. rewrite <- pow2_double.
      pose proof (pow2_ge_1 514 ltac:(lia)).
      eapply Rle_trans; [apply Rabs_triang|]. rewrite Rabs_Ropp, Rabs_R1. lra. }
    destruct (Float64_within_pow2 515 _ ltac:(lia) Hd) as [Eb _]. rewrite Eb.
    cbn [Num.mul] in Eq. cbn [Num.mul]. rewrite Eq.
    apply Float64_settled, add_Fin_settled, Float64_settled, mul_Fin_settled;
      [exact Hsm|now apply double_complement_nonzero].
Qed.

(** With [clip] set, a settled state is stored as a finite number of
    [[0,1]]. *)
Lemma clip_stage_settled s (v : number) :
  clip s = true -> settled v -> exists c, clip_stage s v = Fin c /\ 0 <= c <= 1.
Proof.
  intros Hclip Hv. destruct v as [x| | |]; [| contradiction | |].
  - exists (clipped s x). split; [apply clip_stage_Fin|now apply clipped_unit].
  - exists 1. unfold clip_stage. rewrite Hclip. split; [|lra].
    change (Math_min (Fin 1) PInf) with (Fin 1).
    rewrite Math_max_Fin, Rmax_right by lra. reflexivity.
  - exists 0. unfold clip_stage. rewrite Hclip. split; [reflexivity|lra].
Qed.

(** With [clip] set, on bounded settings and samples and a finite
    coefficient, every output is a finite number of [[0,1]]. *)
Lemma refine_trace_unit s (a : R) (sm : number) (raw : list R) :
  clip s = true -> bounded_settings s ->
  float64 a = a -> Rabs a <= pow2 514 ->
  settled sm -> (a = 1 -> exists v, sm = Fin v) ->
  Forall bounded_sample raw ->
  Forall (fun o => exists r, o = Fin r /\ 0 <= r <= 1)
         (refine_trace s (Fin a) sm (map Fin raw)).
Proof.
  intros Hclip Hs Ha Hab Hsm Hfin Hraw. revert sm Hsm Hfin.
  induction Hraw as [|x raw Hx Hraw IH]; intros sm Hsm Hfin; cbn [map refine_trace];
    constructor.
  - destruct (gain_stage_Fin s x Hs Hx) as [E B]. rewrite E.
    destruct (smooth_stage_settled a (gained s x) sm Ha Hab B Hsm Hfin) as [Hst _].
    destruct (clip_stage_settled s _ Hclip Hst) as (c & Ec & Hc). rewrite Ec.
    rewrite invert_stage_Fin.
    + pose proof (inverted_unit s _ Hc) as Hi.
      rewrite ToFloat32_unit by exact Hi.
      exists (float32 (inverted s c)). split; [reflexivity|].
      now apply float32_unit.
    + pose proof (pow2_ge_1 300 ltac:(lia)). rewrite Rabs_pos_eq; lra.
  - destruct (gain_stage_Fin s x Hs Hx) as [E B]. rewrite E.
    destruct (smooth_stage_settled a (gained s x) sm Ha Hab B Hsm Hfin) as [Hst Hf].
    now apply IH.
Qed.

(** *** The loop on all numbers *)

Lemma Math_max_0_not_negative (x : number) : not_negative (Math_max (Fin 0) x).
Proof.
  unfold not_negative. destruct x as [r| | |]; cbn; try reflexivity.
  - destruct (Rlt_dec 0 r); cbn; [destruct (Rlt_dec r 0); [lra|reflexivity]|].
    destruct (Rlt_dec 0 0); [lra|reflexivity].
  - destruct (Rlt_dec 0 0); [lra|reflexivity].
Qed.

Lemma clip_stage_not_negative s x : not_negative (clip_stage s x).
Proof. unfold clip_stage. destruct (clip s); apply Math_max_0_not_negative. Qed.

Lemma ToFloat32_not_negative (v : number) :
  not_negative v -> not_negative (ToFloat32 v).
Proof.
  unfold not_negative, ToFloat32, rounded. destruct v as [r| | |]; try easy.
  unfold Num.ltb at 1.
  destruct (Rlt_dec r 0) as [|Hr]; [discriminate|]. intros _.
  pose proof (float32_nonneg r ltac:(lra)).
  destruct (Rle_dec (pow2 128) (Rabs (float32 r))).
  - destruct (Rlt_dec (float32 r) 0); [lra|reflexivity].
  - unfold Num.ltb. destruct (Rlt_dec (float32 r) 0); [lra|reflexivity].
Qed.

Lemma ToFloat32_not_above_1 (v : number) :
  not_above_1 v -> not_above_1 (ToFloat32 v).
Proof.
  unfold not_above_1, ToFloat32, rounded. destruct v as [r| | |]; try easy.
  unfold Num.ltb at 1.
  destruct (Rlt_dec 1 r) as [|Hr]; [discriminate|]. intros _.
  pose proof (float32_le_1 r ltac:(lra)).
  destruct (Rle_dec (pow2 128) (Rabs (float32 r))) as [Hbig|].
  - destruct (Rlt_dec (float32 r) 0) as [|Hpos]; [reflexivity|exfalso].
    rewrite Rabs_pos_eq in Hbig by lra. pose proof pow2_127_large.
    pose proof (pow2_lt 127 128 ltac:(lia)). lra.
  - unfold Num.ltb. destruct (Rlt_dec 1 (float32 r)); [lra|reflexivity].
Qed.

Lemma invert_not_above_1 (v : number) :
  not_negative v -> not_above_1 (Float64 (Fin 1 - v)%num).
Proof.
  unfold not_negative, not_above_1. destruct v as [r| | |]; cbn; try easy.
  destruct (Rlt_dec r 0) as [|Hr]; [discriminate|]. intros _.
  unfold Float64, rounded.
  assert (Hy : float64 (1 + - r) <= 1).
  { rewrite <- float64_1 at 2. apply float64_mono. lra. }
  destruct (Rle_dec (pow2 1024) (Rabs (float64 (1 + - r)))) as [Hbig|].
  - destruct (Rlt_dec (float64 (1 + - r)) 0) as [|Hpos]; [reflexivity|exfalso].
    rewrite Rabs_pos_eq in Hbig by lra.
    pose proof (pow2_ge_1 1024 ltac:(lia)).
    pose proof (pow2_lt 0 1024 ltac:(lia)) as Hlt. rewrite pow2_0 in Hlt. lra.
  - unfold Num.ltb. destruct (Rlt_dec 1 (float64 (1 + - r))); [lra|reflexivity].
Qed.

Lemma refine_trace_not_negative s alpha smoothed raw :
  invert s = false -> Forall not_negative (refine_trace s alpha smoothed raw).
Proof.
  intros Hinv. revert smoothed.
  induction raw as [|x raw IH]; intros smoothed; cbn [refine_trace].
  - constructor.
  - constructor; [|apply IH].
    unfold invert_stage. rewrite Hinv.
    apply ToFloat32_not_negative, clip_stage_not_negative.
Qed.

Lemma refine_trace_not_above_1 s alpha smoothed raw :
  invert s = true -> Forall not_above_1 (refine_trace s alpha smoothed raw).
Proof.
  intros Hinv. revert smoothed.
  induction raw as [|x raw IH]; intros smoothed; cbn [refine_trace].
  - constructor.
  - constructor; [|apply IH].
    unfold invert_stage. rewrite Hinv.
    apply ToFloat32_not_above_1, invert_not_above_1, clip_stage_not_negative.
Qed.

(** The documented ranges are far inside the bounds. *)
Lemma valid_bounded s : valid_settings s -> bounded_settings s.
Proof.
  intros (Hg & Ho & _). pose proof (pow2_ge_1 128 ltac:(lia)) as H1.
  pose proof (pow2_le 3 128 ltac:(lia)) as H8.
  rewrite (pow2_nonneg_exp 3) in H8 by lia. change (IZR (2 ^ 3)) with 8 in H8.
  split; apply Rabs_le; lra.
Qed.

Lemma small_bounded (x : R) : Rabs x <= 1 -> bounded_sample x.
Proof.
  intros H. unfold bounded_sample. pose proof (pow2_ge_1 128 ltac:(lia)). lra.
Qed.

Lemma float32_value_bounded (x : R) : float32_value x -> bounded_sample x.
Proof. intros [_ H]. unfold bounded_sample. lra. Qed.

(** The part of C1 that the loop does establish: without inversion no
    output is negative, whatever the clip flag. *)
Lemma refineChannel_nonneg_no_invert raw s bpm fps :
  invert s = false -> Forall not_negative (refineChannel raw s bpm fps).
Proof.
  intros Hinv. rewrite refineChannel_trace. now apply refine_trace_not_negative.
Qed.

(** C1 (the code departs from the claim).  With [clip = false] and
    [invert = true] the inversion follows the lower clamp, so a value
    above 1 leaves the loop negative: the valid settings
    [gain = 2, clip = false, invert = true] send the raw track [[1]]
    to [[-1]]. *)
Theorem refineChannel_unclipped_inverted_is_negative :
  let s := {| gain := 2; offset := 0; smooth := 0; gate := 0;
              clip := false; invert := true; quantize := 0 |} in
  valid_settings s /\ clip s = false /\
  refineChannel [Fin 1] s (Fin 140) (Fin 30) = [Fin (-1)] /\
  ~ Forall not_negative (refineChannel [Fin 1] s (Fin 140) (Fin 30)).
Proof.
  intros s.
  assert (Hv : valid_settings s).
  { unfold valid_settings; cbn. repeat split; try lra; now left. }
  assert (Hg : gained s 1 = 2).
  { unfold gained, gated. cbn [gate offset gain s].
    destruct (Rlt_dec 1 0); [lra|]. replace (1 + 0) with 1 by lra.
    rewrite float64_1. replace (1 * 2) with 2 by lra.
    apply (float64_int 2). cbn. lia. }
  assert (Hr : refineChannel [Fin 1] s (Fin 140) (Fin 30) = [Fin (-1)]).
  { change [Fin 1] with (map Fin [1]).
    rewrite refineChannel_alpha_1;
      [|reflexivity|now apply valid_bounded
       |constructor; [apply small_bounded; rewrite Rabs_R1; lra|constructor]].
    cbn [map]. rewrite Hg. unfold clipped, inverted. cbn [clip invert s].
    rewrite Rmax_right by lra. replace (1 - 2) with (-1) by lra.
    rewrite (float64_int (-1)) by (cbn; lia).
    rewrite ToFloat32_Fin, float32_m1; [reflexivity|].
    pose proof pow2_127_large. rewrite Rabs_left; lra. }
  split; [exact Hv|split; [reflexivity|split; [exact Hr|]]].
  rewrite Hr. intros H. apply Forall_cons in H as [H _].
    unfold not_negative in H. cbn in H. destruct (Rlt_dec (-1) 0); [discriminate|lra].
Qed.
(** *** The outputs without smoothing *)

Lemma is_float32_clamp (x : R) : is_float32 x -> is_float32 (clamp x 0 1).
Proof.
  unfold is_float32, clamp. intros Hx.
  destruct (Rle_dec 1 x).
  - rewrite Rmin_left, Rmax_right by lra. apply float32_1.
  - rewrite Rmin_right by lra. destruct (Rle_dec 0 x).
    + now rewrite Rmax_right.
    + rewrite Rmax_left by lra. apply float32_0.
Qed.

(** A value of a [Float32Array] is a double. *)
Lemma float32_value_double (x : R) : float32_value x -> float64 x = x.
Proof.
  intros [Hf Hb]. unfold is_float32 in Hf. rewrite <- Hf.
  apply float32_is_double. lra.
Qed.

Lemma float32_value_unit (x : R) : is_float32 x -> 0 <= x <= 1 -> float32_value x.
Proof.
  intros Hf Hx. split; [exact Hf|]. pose proof (pow2_ge_1 128 ltac:(lia)).
  pose proof (pow2_lt 0 128 ltac:(lia)) as Hlt. rewrite pow2_0 in Hlt.
  rewrite Rabs_pos_eq; lra.
Qed.

(** With no gate, no offset and a gain of 1, the scaled sample is the
    sample, or 0 for a negative one. *)
Lemma gained_identity s (x : R) :
  gate s = 0 -> offset s = 0 -> gain s = 1 -> float32_value x ->
  gained s x = gated s x /\ clamp (gated s x) 0 1 = clamp x 0 1.
Proof.
  intros Hg Ho Hk Hx. unfold gained. rewrite Ho, Hk, Rplus_0_r.
  assert (Hd : float64 (gated s x) = gated s x).
  { unfold gated. destruct (Rlt_dec x (gate s)); [exact float64_0|].
    now apply float32_value_double. }
  rewrite Hd, Rmult_1_r, Hd. split; [reflexivity|].
  unfold gated, clamp. rewrite Hg. real_cases.
Qed.

Lemma refineChannel_clip_no_smooth (raw : list R) (s : RefinementSettings)
    (bpm fps : number) :
  smooth s = 0 -> clip s = true -> invert s = false ->
  bounded_settings s -> Forall bounded_sample raw ->
  refineChannel (map Fin raw) s bpm fps
  = map (fun x => Fin (float32 (clamp (gained s x) 0 1))) raw.
Proof.
  intros Hsm Hclip Hinv Hs Hraw. rewrite refineChannel_alpha_1 by assumption.
  apply map_ext. intros x. unfold inverted, clipped. rewrite Hinv, Hclip.
  apply ToFloat32_unit, clamp_bounds.
Qed.

Lemma float32_clamp_error (y : R) :
  Rabs (float32 (clamp y 0 1) - clamp y 0 1) <= pow2 (-25).
Proof.
  apply float32_error_unit. pose proof (clamp_bounds y). rewrite Rabs_pos_eq; lra.
Qed.

Lemma DEFAULT_bounded : bounded_settings DEFAULT_REFINEMENT.
Proof.
  apply valid_bounded. unfold valid_settings; cbn.
  repeat split; try lra; now left.
Qed.

(** Under the default settings a track of float32 numbers comes out
    clamped. *)
Lemma refineChannel_default (raw : list R) (bpm fps : number) :
  Forall float32_value raw ->
  refineChannel (map Fin raw) DEFAULT_REFINEMENT bpm fps
  = map (fun x => Fin (clamp x 0 1)) raw.
Proof.
  intros Hraw.
  rewrite refineChannel_clip_no_smooth;
    [|reflexivity|reflexivity|reflexivity|exact DEFAULT_bounded|].
  - apply map_ext_in. intros x Hx.
    pose proof (proj1 (Forall_forall _ _) Hraw x (proj2 (list_elem_of_In _ _) Hx)) as Hv.
    destruct (gained_identity DEFAULT_REFINEMENT x eq_refl eq_refl eq_refl Hv) as [E1 E2].
    rewrite E1, E2. f_equal. apply is_float32_clamp, Hv.
  - eapply Forall_impl; [exact Hraw|]. intros x. apply float32_value_bounded.
Qed.

(** C5 (as amended).  With [smooth = 0], [clip = true], [invert = false]
    and [quantize = 0], on a raw track of finite numbers up to [2^128] in
    size (as every float32 is) and with an offset and a gain up to [2^128]
    in size, the i-th output is the float32 nearest to [clamp(v_i, 0, 1)],
    within [2^-25] of it, where [v_i] is [(g_i + offset) * gain] as the
    doubles compute it and [g_i] is 0 when [raw[i]] is strictly below the
    gate and [raw[i]] otherwise; and the default settings give
    [clamp(raw[i], 0, 1)] itself on a track of float32 numbers. *)
Theorem refineChannel_smooth_0 (raw : list R) (s : RefinementSettings)
    (bpm fps : number) :
  smooth s = 0 -> clip s = true -> invert s = false -> quantize s = 0 ->
  bounded_settings s -> Forall bounded_sample raw ->
  refineChannel (map Fin raw) s bpm fps
    = map (fun x => Fin (float32 (clamp (gained s x) 0 1))) raw
  /\ (forall y, Rabs (float32 (clamp y 0 1) - clamp y 0 1) <= pow2 (-25))
  /\ (Forall float32_value raw ->
      refineChannel (map Fin raw) DEFAULT_REFINEMENT bpm fps
      = map (fun x => Fin (clamp x 0 1)) raw).
Proof.
  intros Hsm Hclip Hinv _ Hs Hraw. split; [|split].
  - now apply refineChannel_clip_no_smooth.
  - apply float32_clamp_error.
  - apply refineChannel_default.
Qed.

Lemma refineChannel_smooth_0_witness :
  refineChannel (map Fin [/ 4; 3 / 4])
    {| gain := 1; offset := 0; smooth := 0; gate := / 2;
       clip := true; invert := false; quantize := 0 |} (Fin 140) (Fin 30)
  = map (fun x =>
           Fin (float32
                  (clamp (gained {| gain := 1; offset := 0; smooth := 0; gate := / 2;
                                    clip := true; invert := false; quantize := 0 |} x)
                     0 1)))
        [/ 4; 3 / 4].
Proof.
  refine (proj1 (refineChannel_smooth_0 [/ 4; 3 / 4]
    {| gain := 1; offset := 0; smooth := 0; gate := / 2;
       clip := true; invert := false; quantize := 0 |} (Fin 140) (Fin 30)
    eq_refl eq_refl eq_refl eq_refl _ _)).
  - apply valid_bounded. unfold valid_settings; cbn.
    repeat split; try lra; now left.
  - constructor; [|constructor; [|constructor]];
      apply small_bounded; rewrite Rabs_pos_eq; lra.
Defined.

(** The float32 nearest to 0.2, and what the loop makes of it. *)
Lemma float32_fifth : is_float32 (13421773 / 67108864).
Proof.
  unfold is_float32.
  assert (Hp : pow2 (-26) = / 67108864).
  { change (pow2 (-26)) with (pow2 (- (26))).
    rewrite pow2_neg, (pow2_nonneg_exp 26) by lia. reflexivity. }
  pose proof (float32_exact 13421773 (-26) ltac:(cbn; lia) ltac:(lia)) as H.
  rewrite Hp in H. exact H.
Qed.

Lemma refineChannel_NaN_spreads (x : R) (bpm fps : number) :
  refineChannel [NaN; Fin x] DEFAULT_REFINEMENT bpm fps = [NaN; NaN].
Proof.
  rewrite refineChannel_trace, smoothing_alpha_0 by reflexivity.
  cbn [refine_trace].
  assert (H1 : smooth_stage (Fin 1) (Fin 0)
                 (gain_stage DEFAULT_REFINEMENT (gate_stage DEFAULT_REFINEMENT NaN))
               = NaN) by (rewrite smooth_stage_alpha_1; reflexivity).
  rewrite H1, smooth_stage_alpha_1_lost by (now right; right). reflexivity.
Qed.

(** The double [2^1024] is no double: the result is infinite. *)
Lemma Float64_overflow : Float64 (Fin (pow2 1024)) = PInf.
Proof.
  unfold Float64, rounded. rewrite float64_pow2_1024.
  pose proof (pow2_pos 1024).
  destruct (Rle_dec (pow2 1024) (Rabs (pow2 1024))) as [_|Hn].
  - destruct (Rlt_dec (pow2 1024) 0); [lra|reflexivity].
  - exfalso. apply Hn. rewrite Rabs_pos_eq; lra.
Qed.

(** After an overflow of the gain stage the filter state is infinite, and
    then, without smoothing, not a number. *)
Lemma refineChannel_overflow (bpm fps : number) :
  refineChannel [Fin 1; Fin (/ 2)]
    {| gain := pow2 1023; offset := 1; smooth := 0; gate := 0;
       clip := true; invert := false; quantize := 0 |} bpm fps
  = [Fin 1; NaN].
Proof.
  rewrite refineChannel_trace, smoothing_alpha_0 by reflexivity.
  cbn [refine_trace].
  set (s := {| gain := pow2 1023; offset := 1; smooth := 0; gate := 0;
               clip := true; invert := false; quantize := 0 |}).
  assert (Hg : gain_stage s (gate_stage s (Fin 1)) = PInf).
  { rewrite gate_stage_Fin. unfold gated, gain_stage. cbn [gate offset gain s].
    destruct (Rlt_dec 1 0); [lra|]. cbn [Num.add].
    replace (1 + 1) with (IZR 2) by lra. rewrite Float64_int by (cbn; lia).
    cbn [Num.mul]. replace (2 * pow2 1023) with (pow2 1024).
    - exact Float64_overflow.
    - change 1024%Z with (1 + 1023)%Z. now rewrite pow2_add, pow2_1. }
  rewrite smooth_stage_alpha_1, Hg.
  change (Float64 PInf) with PInf.
  rewrite smooth_stage_alpha_1_lost by now left.
  unfold clip_stage, invert_stage. cbn [clip invert s].
  change (Math_min (Fin 1) PInf) with (Fin 1).
  rewrite Math_max_Fin, Rmax_right by lra.
  rewrite ToFloat32_unit, float32_1 by lra. reflexivity.
Qed.

(** A sum that a double cannot hold: the tail [2^-77] is lost, and the
    float32 of the rounded sum differs from the float32 of the sum. *)
Lemma float64_tail_lost :
  float64 (/ 2 + pow2 (-25) + pow2 (-77)) = / 2 + pow2 (-25).
Proof.
  assert (H25 : pow2 (-25) = / 33554432).
  { change (-25)%Z with (- (25))%Z. now rewrite pow2_inv by lia. }
  assert (H77 : pow2 (-77) = / 151115727451828646838272).
  { change (-77)%Z with (- (77))%Z. now rewrite pow2_inv by lia. }
  assert (H53 : pow2 (-53) = / 9007199254740992).
  { change (-53)%Z with (- (53))%Z. now rewrite pow2_inv by lia. }
  unfold float64.
  rewrite (round_nearest_at 53 (-1022) 2045 (-1) 4503599895805952).
  - change (-1 - 53 + 1)%Z with (-53)%Z. rewrite H53, H25. lra.
  - lia.
  - rewrite pow2_m1. change (-1 + 1)%Z with 0%Z. rewrite pow2_0, H25, H77. lra.
  - change (-1 - 53 + 1)%Z with (-53)%Z. rewrite H53, H25, H77.
    unfold Rdiv. rewrite Rinv_inv. apply round_even_down. lra.
Qed.

Lemma round_even_tie (f : Z) (y : R) :
  y = IZR f + / 2 -> Z.even f = true -> round_even y = f.
Proof.
  intros -> He. unfold round_even.
  rewrite (Zfloor_eq f (IZR f + / 2)) by lra. rewrite He.
  destruct (Rlt_dec (IZR f + / 2 - IZR f) (/ 2)); [reflexivity|].
  destruct (Rlt_dec (/ 2) (IZR f + / 2 - IZR f)); [lra|reflexivity].
Qed.

Lemma float32_tie_even : float32 (/ 2 + pow2 (-25)) = / 2.
Proof.
  assert (H25 : pow2 (-25) = / 33554432).
  { change (-25)%Z with (- (25))%Z. now rewrite pow2_inv by lia. }
  unfold float32.
  rewrite (round_nearest_at 24 (-126) 253 (-1) 8388608).
  - change (-1 - 24 + 1)%Z with (-24)%Z. rewrite pow2_m24. lra.
  - lia.
  - rewrite pow2_m1. change (-1 + 1)%Z with 0%Z. rewrite pow2_0, H25. lra.
  - change (-1 - 24 + 1)%Z with (-24)%Z. rewrite pow2_m24, H25.
    unfold Rdiv. rewrite Rinv_inv. apply round_even_tie; [lra|reflexivity].
Qed.

(** C5 (as stated) fails.  The result array keeps float32 numbers: three
    times the float32 nearest to 0.2 is stored as 10066330 / 2^24, which is
    not that product.  The stored number is the float32 of the double
    result, not of the exact one: with the offset [2^-25 + 2^-77] the sample
    1/2 is stored as 1/2, while the float32 nearest to the exact sum is
    [1/2 + 2^-24].  A sample that is not a number spoils the filter state
    for good: after a [NaN] sample the default settings give [NaN] for the
    sample 1/2.  And so does an overflow: with the offset 1 and the gain
    [2^1023] the samples 1 and 1/2 give 1 and [NaN]. *)
Lemma refineChannel_smooth_0_not_exact :
  let s := {| gain := 3; offset := 0; smooth := 0; gate := 0;
              clip := true; invert := false; quantize := 0 |} in
  let x := 13421773 / 67108864 in
  let t := {| gain := 1; offset := pow2 (-25) + pow2 (-77); smooth := 0; gate := 0;
              clip := true; invert := false; quantize := 0 |} in
  let u := {| gain := pow2 1023; offset := 1; smooth := 0; gate := 0;
              clip := true; invert := false; quantize := 0 |} in
  is_float32 x
  /\ refineChannel [Fin x] s (Fin 140) (Fin 30) = [Fin (10066330 / 16777216)]
  /\ 10066330 / 16777216 <> clamp ((gated s x + offset s) * gain s) 0 1
  /\ refineChannel [Fin (/ 2)] t (Fin 140) (Fin 30) = [Fin (/ 2)]
  /\ float32 (clamp ((gated t (/ 2) + offset t) * gain t) 0 1) = / 2 + pow2 (-24)
  /\ refineChannel [NaN; Fin (/ 2)] DEFAULT_REFINEMENT (Fin 140) (Fin 30) = [NaN; NaN]
  /\ refineChannel [Fin 1; Fin (/ 2)] u (Fin 140) (Fin 30) = [Fin 1; NaN].
Proof.
  intros s x t u.
  assert (Hc : clamp ((gated s x + offset s) * gain s) 0 1 = 40265319 / 67108864).
  { unfold gated, clamp, x. cbn. real_cases. }
  assert (Hx : float32_value x).
  { apply float32_value_unit; [exact float32_fifth|unfold x; lra]. }
  assert (H25 : pow2 (-25) = / 33554432).
  { change (-25)%Z with (- (25))%Z. now rewrite pow2_inv by lia. }
  assert (H77 : pow2 (-77) = / 151115727451828646838272).
  { change (-77)%Z with (- (77))%Z. now rewrite pow2_inv by lia. }
  split; [exact float32_fifth|]. split; [|split; [|split; [|split; [|split]]]].
  - change [Fin x] with (map Fin [x]).
    rewrite refineChannel_clip_no_smooth;
      [|reflexivity|reflexivity|reflexivity| |].
    + cbn [map]. do 3 f_equal.
      assert (Hg : gained s x = 40265319 / 67108864).
      { unfold gained, gated. cbn [gate offset gain s].
        destruct (Rlt_dec x 0); [unfold x in *; lra|].
        rewrite Rplus_0_r, (float32_value_double x Hx).
        assert (Hp : pow2 (-26) = / 67108864).
        { change (-26)%Z with (- (26))%Z. now rewrite pow2_inv by lia. }
        pose proof (float64_exact 40265319 (-26) ltac:(cbn; lia) ltac:(lia)) as H.
        rewrite Hp in H. unfold x.
        replace (13421773 / 67108864 * 3) with (40265319 * / 67108864) by lra.
        rewrite H. lra. }
      rewrite Hg. unfold clamp. rewrite Rmin_right, Rmax_right by lra.
      rewrite (float32_below_1 10066329); [reflexivity| |]; lra.
    + apply valid_bounded. unfold valid_settings; cbn.
      repeat split; try lra; now left.
    + constructor; [|constructor]. now apply float32_value_bounded.
  - rewrite Hc. lra.
  - change [Fin (/ 2)] with (map Fin [/ 2]).
    rewrite refineChannel_clip_no_smooth;
      [|reflexivity|reflexivity|reflexivity| |].
    + cbn [map]. do 3 f_equal.
      assert (Hg : gained t (/ 2) = / 2 + pow2 (-25)).
      { unfold gained, gated. cbn [gate offset gain t].
        destruct (Rlt_dec (/ 2) 0); [lra|].
        replace (/ 2 + (pow2 (-25) + pow2 (-77)))
          with (/ 2 + pow2 (-25) + pow2 (-77)) by lra.
        rewrite float64_tail_lost, Rmult_1_r.
        replace (/ 2 + pow2 (-25)) with (IZR 16777217 * pow2 (-25)) by (rewrite H25; lra).
        apply float64_exact; [cbn; lia|lia]. }
      rewrite Hg. unfold clamp. rewrite Rmin_right, Rmax_right by (rewrite H25; lra).
      exact float32_tie_even.
    + split; cbn [offset gain t]; pose proof (pow2_ge_1 128 ltac:(lia));
        rewrite Rabs_pos_eq; rewrite ?H25, ?H77; lra.
    + constructor; [|constructor]. apply small_bounded. rewrite Rabs_pos_eq; lra.
  - unfold gated, clamp. cbn [gate offset gain t].
    destruct (Rlt_dec (/ 2) 0); [lra|]. rewrite Rmult_1_r.
    rewrite Rmin_right, Rmax_right by (rewrite H25, H77; lra).
    rewrite (float32_below_1 8388608);
      [rewrite pow2_m24; change (8388608 + 1)%Z with 8388609%Z; lra
      |rewrite H25, H77; lra|rewrite H25, H77; lra].
  - apply refineChannel_NaN_spreads.
  - apply refineChannel_overflow.
Qed.

(** *** Inverting twice *)

(** A float32 of [[2^-29, 1]] is a multiple of [2^-52]. *)
Lemma float32_dyadic (c : R) :
  is_float32 c -> pow2 (-29) <= c <= 1 -> exists m : Z, c = IZR m * pow2 (-52).
Proof.
  intros Hc [Hlo Hhi]. unfold is_float32, float32, round_nearest in Hc.
  pose proof (pow2_pos (-29)) as Hp.
  destruct (Rlt_dec c 0); [lra|].
  unfold round_pos, ulp in Hc.
  assert (Hb : (-29 <= binade (-126) 253 c)%Z).
  { rewrite <- (binade_eq (-126) 253 (-29) (pow2 (-29))).
    - now apply binade_mono.
    - lia.
    - split; [lra|]. apply pow2_lt. lia. }
  set (b := binade (-126) 253 c) in *.
  set (q := round_even (c / pow2 (b - 24 + 1))) in *.
  exists (q * 2 ^ (b - 24 + 1 + 52))%Z.
  rewrite mult_IZR, <- (pow2_nonneg_exp (b - 24 + 1 + 52)) by lia.
  rewrite Rmult_assoc, <- pow2_add.
  replace (b - 24 + 1 + 52 + -52)%Z with (b - 24 + 1)%Z by lia.
  symmetry. exact Hc.
Qed.

Lemma float32_near_1 (y : R) : 1 - pow2 (-29) <= y <= 1 -> float32 y = 1.
Proof.
  intros [Hlo Hhi].
  assert (H29 : pow2 (-29) = / 536870912).
  { change (-29)%Z with (- (29))%Z. now rewrite pow2_inv by lia. }
  assert (Hl : float32 (1 - pow2 (-29)) = 1).
  { rewrite (float32_below_1 16777215); rewrite ?H29;
      [change (16777215 + 1)%Z with 16777216%Z; lra|lra|lra]. }
  apply Rle_antisym.
  - rewrite <- float32_1. now apply float32_mono.
  - rewrite <- Hl. now apply float32_mono.
Qed.

(** The complement of a float32 of [[0,1]]: rounding it to a double first
    does not change its float32. *)
Lemma float32_complement (c : R) :
  is_float32 c -> 0 <= c <= 1 -> float32 (float64 (1 - c)) = float32 (1 - c).
Proof.
  intros Hc Hu. pose proof (pow2_pos (-29)) as Hp.
  destruct (Rle_dec (pow2 (-29)) c) as [Hbig|Hsmall].
  - destruct (float32_dyadic c Hc ltac:(lra)) as [m Hm].
    f_equal.
    assert (H52 : pow2 (-52) = / IZR (2 ^ 52)).
    { change (-52)%Z with (- (52))%Z. now rewrite pow2_inv by lia. }
    assert (Hpos : 0 < IZR (2 ^ 52)) by (apply (IZR_lt 0); cbn; lia).
    assert (Hm0 : (0 <= m <= 2 ^ 52)%Z).
    { rewrite H52 in Hm. split; apply le_IZR.
      - assert (0 <= c * IZR (2 ^ 52)) by nra.
        replace (c * IZR (2 ^ 52)) with (IZR m) in H by (rewrite Hm; field; lra).
        exact H.
      - assert (c * IZR (2 ^ 52) <= IZR (2 ^ 52)) by nra.
        replace (c * IZR (2 ^ 52)) with (IZR m) in H by (rewrite Hm; field; lra).
        exact H. }
    replace (1 - c) with (IZR (2 ^ 52 - m) * pow2 (-52)).
    + apply float64_exact; lia.
    + rewrite minus_IZR, Hm, H52. field. lra.
  - assert (Hlo : float64 (1 - pow2 (-29)) = 1 - pow2 (-29)).
    { assert (H29 : pow2 (-29) = / IZR (2 ^ 29)).
      { change (-29)%Z with (- (29))%Z. now rewrite pow2_inv by lia. }
      assert (Hpos : 0 < IZR (2 ^ 29)) by (apply (IZR_lt 0); cbn; lia).
      replace (1 - pow2 (-29)) with (IZR (2 ^ 29 - 1) * pow2 (-29))
        by (rewrite minus_IZR, H29; field; lra).
      apply float64_exact; [cbn; lia|lia]. }
    assert (Hd : 1 - pow2 (-29) <= float64 (1 - c) <= 1).
    { apply (round_nearest_between 53 (-1022) 2045 ltac:(lia) (1 - pow2 (-29)) 1);
        [exact Hlo|exact float64_1|lra]. }
    rewrite (float32_near_1 _ Hd), (float32_near_1 (1 - c)) by lra. reflexivity.
Qed.

Lemma refineChannel_inverted_identity (raw : list R) (bpm fps : number) :
  Forall float32_value raw ->
  refineChannel (map Fin raw) inverted_identity bpm fps
  = map Fin (map (fun x => float32 (1 - clamp x 0 1)) raw).
Proof.
  intros Hraw. rewrite refineChannel_alpha_1; [|reflexivity| |].
  - rewrite map_map. apply map_ext_in. intros x Hx.
    pose proof (proj1 (Forall_forall _ _) Hraw x (proj2 (list_elem_of_In _ _) Hx)) as Hv.
    destruct (gained_identity inverted_identity x eq_refl eq_refl eq_refl Hv) as [E1 E2].
    unfold inverted, clipped. cbn [invert clip inverted_identity].
    rewrite E1, E2. pose proof (clamp_bounds x) as Hc.
    assert (Hd : 0 <= float64 (1 - clamp x 0 1) <= 1).
    { apply (round_nearest_between 53 (-1022) 2045 ltac:(lia) 0 1);
        [exact float64_0|exact float64_1|lra]. }
    rewrite ToFloat32_unit by exact Hd. f_equal.
    apply float32_complement; [apply is_float32_clamp, Hv|exact Hc].
  - apply valid_bounded. unfold valid_settings; cbn.
    repeat split; try lra; now left.
  - eapply Forall_impl; [exact Hraw|]. intros x. apply float32_value_bounded.
Qed.

Lemma refineChannel_inverted_twice (raw : list R) (bpm fps bpm' fps' : number) :
  Forall float32_value raw ->
  refineChannel (refineChannel (map Fin raw) inverted_identity bpm fps)
      inverted_identity bpm' fps'
  = map (fun x => Fin (inverted_twice x)) raw.
Proof.
  intros Hraw. rewrite (refineChannel_inverted_identity raw) by exact Hraw.
  rewrite refineChannel_inverted_identity.
  - rewrite !map_map. apply map_ext. intros x. unfold inverted_twice. do 3 f_equal.
    apply clamp_id, float32_unit. pose proof (clamp_bounds x). lra.
  - apply Forall_map, Forall_forall. intros x _. cbn.
    pose proof (clamp_bounds x) as Hc.
    apply float32_value_unit; [|apply float32_unit; lra].
    unfold is_float32. apply float32_idem.
    pose proof (pow2_ge_1 128 ltac:(lia)). rewrite Rabs_pos_eq; lra.
Qed.

Lemma pow2_m24_twice : pow2 (-24) = 2 * pow2 (-25).
Proof. rewrite <- pow2_1, <- pow2_add. reflexivity. Qed.

Lemma inverted_twice_error (x : R) :
  Rabs (inverted_twice x - clamp x 0 1) <= pow2 (-24).
Proof.
  unfold inverted_twice. pose proof (clamp_bounds x) as Hc.
  set (c := clamp x 0 1) in *. set (y := float32 (1 - c)).
  assert (Hy : 0 <= y <= 1) by (apply float32_unit; lra).
  assert (E1 : Rabs (y - (1 - c)) <= pow2 (-25)).
  { apply float32_error_unit. rewrite Rabs_pos_eq; lra. }
  assert (E2 : Rabs (float32 (1 - y) - (1 - y)) <= pow2 (-25)).
  { apply float32_error_unit. rewrite Rabs_pos_eq; lra. }
  rewrite pow2_m24_twice.
  replace (float32 (1 - y) - c) with ((float32 (1 - y) - (1 - y)) + - (y - (1 - c))) by lra.
  eapply Rle_trans; [apply Rabs_triang|]. rewrite Rabs_Ropp. lra.
Qed.

Lemma inverted_twice_grid (x : R) (k : Z) :
  clamp x 0 1 = IZR k * pow2 (-24) -> inverted_twice x = clamp x 0 1.
Proof.
  intros Hk. unfold inverted_twice. pose proof (clamp_bounds x) as Hc.
  rewrite Hk in *. rewrite pow2_m24 in Hc.
  assert (Hk0 : (0 <= k <= 2 ^ 24)%Z).
  { split.
    - apply le_IZR. lra.
    - apply le_IZR. change (IZR (2 ^ 24)) with 16777216. lra. }
  assert (E : 1 - IZR k * pow2 (-24) = IZR (2 ^ 24 - k) * pow2 (-24)).
  { rewrite minus_IZR, pow2_m24. change (IZR (2 ^ 24)) with 16777216. lra. }
  rewrite E, float32_grid by lia. rewrite <- E.
  replace (1 - (1 - IZR k * pow2 (-24))) with (IZR k * pow2 (-24)) by lra.
  now apply float32_grid.
Qed.

(** With [clip] set, a [smooth] that is not negative and bounded offset,
    gain and samples, every output is a finite number of [[0,1]]. *)
Lemma refineChannel_clip_unit (raw : list R) (s : RefinementSettings)
    (bpm fps : number) :
  clip s = true -> 0 <= smooth s <= pow2 1024 -> bounded_settings s ->
  Forall bounded_sample raw ->
  Forall unit_value (refineChannel (map Fin raw) s bpm fps).
Proof.
  intros Hclip Hsm Hs Hraw. rewrite refineChannel_trace.
  destruct (smoothing_alpha_finite s Hsm) as (a & -> & Ha & Hab).
  apply refine_trace_unit; try assumption; [discriminate|].
  intros _. now exists 0.
Qed.

(** C6 (as amended).  Under the default settings with [invert = true],
    refining a track of float32 numbers twice gives, for each sample, a
    value within [2^-24] of the clipped original [clamp(raw[i], 0, 1)], and
    that value itself when it is a multiple of [2^-24]; and whenever
    [clip = true], [smooth] is not negative (and no more than [2^1024], as
    every double is) and the offset and the gain are up to [2^128] in
    size, every output of one application to such a track lies in
    [[0,1]]. *)
Theorem refineChannel_invert_twice (raw : list R) (bpm fps bpm' fps' : number) :
  Forall float32_value raw ->
  refineChannel (refineChannel (map Fin raw) inverted_identity bpm fps)
      inverted_identity bpm' fps'
    = map (fun x => Fin (inverted_twice x)) raw
  /\ (forall x, Rabs (inverted_twice x - clamp x 0 1) <= pow2 (-24))
  /\ (forall x k, clamp x 0 1 = IZR k * pow2 (-24) -> inverted_twice x = clamp x 0 1)
  /\ forall s : RefinementSettings,
       clip s = true -> 0 <= smooth s <= pow2 1024 -> bounded_settings s ->
       Forall unit_value (refineChannel (map Fin raw) s bpm fps).
Proof.
  intros Hraw.
  split; [now apply refineChannel_inverted_twice|].
  split; [apply inverted_twice_error|].
  split; [apply inverted_twice_grid|].
  intros s Hclip Hsm Hs. apply refineChannel_clip_unit; try assumption.
  eapply Forall_impl; [exact Hraw|]. intros x. apply float32_value_bounded.
Qed.

Lemma float32_quarter : float32_value (/ 4).
Proof.
  apply float32_value_unit; [|lra]. unfold is_float32.
  pose proof (float32_exact 1 (-2) ltac:(cbn; lia) ltac:(lia)) as H.
  change (-2)%Z with (- (2))%Z in H. rewrite pow2_inv in H by lia.
  change (IZR (2 ^ 2)) with 4 in H. rewrite Rmult_1_l in H. exact H.
Qed.

Lemma float32_three : float32_value 3.
Proof.
  split; [apply (float32_int 3); cbn; lia|].
  pose proof pow2_127_large. pose proof (pow2_lt 127 128 ltac:(lia)).
  rewrite Rabs_pos_eq; lra.
Qed.

Lemma refineChannel_invert_twice_witness :
  Forall unit_value
    (refineChannel (map Fin [/ 4; 3]) inverted_identity (Fin 140) (Fin 30)).
Proof.
  apply (proj2 (proj2 (proj2
           (refineChannel_invert_twice [/ 4; 3] (Fin 140) (Fin 30) (Fin 140) (Fin 30)
              ltac:(constructor; [exact float32_quarter|];
                    constructor; [exact float32_three|constructor]))))).
  - reflexivity.
  - change (0 <= 0 <= pow2 1024). pose proof (pow2_pos 1024). lra.
  - apply valid_bounded. unfold valid_settings; cbn.
    repeat split; try lra; now left.
Defined.

(** C6 (as stated) fails: refining the float32 nearest to 0.2 twice
    under the inverted default settings gives 3355443 / 2^24, the float32
    below it; and with [clip = true] a sample that is not a number comes
    out as it went in, outside [[0,1]], as does the sample 1/2 under a
    negative [smooth], whose square root is not a number, and the sample
    that follows an overflow of the gain stage. *)
Lemma refineChannel_invert_twice_not_exact :
  let x := 13421773 / 67108864 in
  refineChannel (refineChannel [Fin x] inverted_identity (Fin 140) (Fin 30))
      inverted_identity (Fin 140) (Fin 30)
    = [Fin (3355443 / 16777216)]
  /\ 3355443 / 16777216 <> clamp x 0 1
  /\ clip DEFAULT_REFINEMENT = true
  /\ ~ Forall unit_value (refineChannel [NaN] DEFAULT_REFINEMENT (Fin 140) (Fin 30))
  /\ ~ Forall unit_value
        (refineChannel [Fin (/ 2)]
           {| gain := 1; offset := 0; smooth := -1; gate := 0;
              clip := true; invert := false; quantize := 0 |} (Fin 140) (Fin 30))
  /\ ~ Forall unit_value
        (refineChannel [Fin 1; Fin (/ 2)]
           {| gain := pow2 1023; offset := 1; smooth := 0; gate := 0;
              clip := true; invert := false; quantize := 0 |} (Fin 140) (Fin 30)).
Proof.
  intros x. split; [|split; [|split; [|split; [|split]]]].
  - change [Fin x] with (map Fin [x]).
    rewrite refineChannel_inverted_twice.
    2:{ constructor; [|constructor].
        apply float32_value_unit; [exact float32_fifth|unfold x; lra]. }
    cbn [map]. do 2 f_equal.
    unfold inverted_twice.
    assert (Hc : clamp x 0 1 = x) by (apply clamp_id; unfold x; lra).
    rewrite Hc.
    rewrite (float32_below_1 13421772 (1 - x)); [| unfold x; lra | unfold x; lra].
    change (13421772 + 1)%Z with 13421773%Z.
    replace (1 - 13421773 / 16777216) with (IZR 3355443 * pow2 (-24)).
    + rewrite float32_grid; [rewrite pow2_m24; lra|cbn; lia].
    + rewrite pow2_m24. lra.
  - rewrite clamp_id; unfold x; lra.
  - reflexivity.
  - rewrite refineChannel_trace, smoothing_alpha_0 by reflexivity.
    cbn [refine_trace]. rewrite smooth_stage_alpha_1.
    intros H. apply Forall_cons in H as [(r & Hr & _) _]. discriminate.
  - rewrite refineChannel_trace. unfold smoothing_alpha, Math_pow_half.
    cbn [smooth]. destruct (Rlt_dec (-1) 0) as [_|Hn]; [|lra].
    cbn [refine_trace].
    intros H. apply Forall_cons in H as [(v & Hv & _) _].
    unfold smooth_stage in Hv. discriminate.
  - rewrite refineChannel_overflow. intros H.
    apply Forall_cons in H as [_ H]. apply Forall_cons in H as [(v & Hv & _) _].
    discriminate.
Qed.

(** C10.  The loop of [services/dsp.ts] never reads [bpm] or [fps]: any
    two choices of them give the same output, and so a settings edit caches
    the same tracks under any two configurations. *)
Theorem refineChannel_ignores_tempo (raw : list number) (s : RefinementSettings)
    (bpm1 fps1 bpm2 fps2 : number) :
  refineChannel raw s bpm1 fps1 = refineChannel raw s bpm2 fps2
  /\ forall rawChannels (config1 config2 : AnalysisConfig number) i prev,
       updateRefinement rawChannels config1 i s prev
       = updateRefinement rawChannels config2 i s prev.
Proof.
  split.
  - rewrite !refineChannel_trace. reflexivity.
  - intros rawChannels config1 config2 i prev. unfold updateRefinement.
    apply map_ext. intros ch.
    destruct (String.eqb (id ch) i); [|reflexivity].
    destruct (find _ rawChannels) as [raw'|]; [|reflexivity].
    f_equal.
Qed.

(** The quantize block leaves the working value alone. *)
Lemma quantize_stage_id quantizeFrames i final :
  Part001.quantize_stage quantizeFrames i final = final.
Proof. unfold Part001.quantize_stage. now destruct (Fin 0 <? quantizeFrames)%num. Qed.

Lemma fold_left_ext_in {A B} (f g : A -> B -> A) (l : list B) :
  (forall a b, f a b = g a b) -> forall a, fold_left f l a = fold_left g l a.
Proof.
  intros H. induction l as [|b l IH]; intros a; cbn; [reflexivity|].
  now rewrite H, IH.
Qed.

(** The two revisions of the loop compute the same track. *)
Lemma Part001_refineChannel_eq raw s bpm fps :
  Part001.refineChannel raw s bpm fps = refineChannel raw s bpm fps.
Proof.
  unfold Part001.refineChannel, refineChannel. f_equal.
  apply fold_left_ext_in. intros [smoothed result] i.
  unfold Part001.refine_body, refine_body.
  now rewrite quantize_stage_id.
Qed.

(** C2.  For [bpm > 0], [fps > 0] and valid settings with [quantize] in
    {4, 8, 16}, the output is the one obtained with [quantize = 0], in the
    revision that computes a step boundary and in the one that does not. *)
Theorem refineChannel_quantize_no_effect (raw : list number) (s : RefinementSettings)
    (bpm fps : R) :
  0 < bpm -> 0 < fps -> valid_settings s ->
  quantize s = 4 \/ quantize s = 8 \/ quantize s = 16 ->
  Part001.refineChannel raw s (Fin bpm) (Fin fps)
    = Part001.refineChannel raw (set_quantize 0 s) (Fin bpm) (Fin fps)
  /\ refineChannel raw s (Fin bpm) (Fin fps)
     = refineChannel raw (set_quantize 0 s) (Fin bpm) (Fin fps).
Proof.
  intros _ _ _ _. rewrite !Part001_refineChannel_eq. split; reflexivity.
Qed.

Lemma refineChannel_quantize_no_effect_witness :
  Part001.refineChannel [Fin (/ 4); Fin (3 / 4); Fin (/ 2)]
    (set_quantize 8 DEFAULT_REFINEMENT) (Fin 140) (Fin 30)
  = Part001.refineChannel [Fin (/ 4); Fin (3 / 4); Fin (/ 2)]
      (set_quantize 0 (set_quantize 8 DEFAULT_REFINEMENT)) (Fin 140) (Fin 30).
Proof.
  apply (refineChannel_quantize_no_effect [Fin (/ 4); Fin (3 / 4); Fin (/ 2)]
           (set_quantize 8 DEFAULT_REFINEMENT) 140 30).
  - lra.
  - lra.
  - unfold valid_settings; cbn. repeat split; try lra; right; right; now left.
  - right; now left.
Defined.
(** ** The cached tracks of the channel states *)

Lemma refineChannel_length raw s bpm fps :
  length (refineChannel raw s bpm fps) = length raw.
Proof. rewrite refineChannel_trace. apply refine_trace_length. Qed.

Lemma initialStates_ok (pre results : list (RawChannelData number)) (k : nat -> nat) :
  Forall (track_length_ok (pre ++ results))
    (imap (fun idx raw =>
             {| id := raw_id raw; settings := DEFAULT_REFINEMENT;
                processedValues := values raw; visible := true; mute := false;
                solo := false;
                color := default EmptyString (COLORS !! (k idx mod length COLORS)%nat) |})
          results).
Proof.
  revert pre k. induction results as [|raw results IH]; intros pre k; cbn.
  - constructor.
  - constructor.
    + exists raw. split; [|split; reflexivity].
      apply in_or_app. right. now left.
    + specialize (IH (pre ++ [raw]) (fun n => k (S n))).
      rewrite <- app_assoc in IH. exact IH.
Qed.

Lemma find_some_in {A} (p : A -> bool) (l : list A) (x : A) :
  find p l = Some x -> In x l /\ p x = true.
Proof. apply find_some. Qed.

Lemma updateRefinement_ok rawChannels config i s prev :
  Forall (track_length_ok rawChannels) prev ->
  Forall (track_length_ok rawChannels) (updateRefinement rawChannels config i s prev).
Proof.
  intros H. unfold updateRefinement. apply Forall_map.
  eapply Forall_impl; [exact H|]. intros ch Hch. cbn.
  destruct (String.eqb (id ch) i) eqn:Hid; [|exact Hch].
  destruct (find _ rawChannels) as [raw|] eqn:Hfind; [|exact Hch].
  apply find_some_in in Hfind as [Hin Hraw].
  apply String.eqb_eq in Hid, Hraw.
  exists raw. cbn. split; [exact Hin|]. split; [congruence|].
  apply refineChannel_length.
Qed.

Lemma toggleChannelState_ok rawChannels i key prev :
  Forall (track_length_ok rawChannels) prev ->
  Forall (track_length_ok rawChannels) (toggleChannelState i key prev).
Proof.
  intros H. unfold toggleChannelState. apply Forall_map.
  eapply Forall_impl; [exact H|]. intros ch Hch. cbn.
  destruct (String.eqb (id ch) i); exact Hch.
Qed.

Lemma raw_id_unique (rawChannels : list (RawChannelData number)) (a b : RawChannelData number) :
  NoDup (map raw_id rawChannels) -> In a rawChannels -> In b rawChannels ->
  raw_id a = raw_id b -> a = b.
Proof.
  induction rawChannels as [|x l IH]; intros Hnd Ha Hb Hab; [contradiction|].
  cbn in Hnd. apply NoDup_cons in Hnd as [Hx Hnd].
  destruct Ha as [<-|Ha], Hb as [<-|Hb]; try reflexivity.
  - exfalso. apply Hx. rewrite Hab. apply list_elem_of_In, in_map, Hb.
  - exfalso. apply Hx. rewrite <- Hab. apply list_elem_of_In, in_map, Ha.
  - now apply IH.
Qed.

(** What the loop and the component do establish of C7: the refined track
    is as long as the raw one, for all settings, [bpm] and [fps]; hence in
    every state the component reaches, each channel's cached
    [processedValues] is as long as the values of a raw channel with its
    id, which is its own raw channel when the ids are distinct. *)
Lemma refineChannel_preserves_length :
  (forall (raw : list number) (s : RefinementSettings) (bpm fps : number),
      length (refineChannel raw s bpm fps) = length raw)
  /\ (forall rawChannels config states,
         reachable rawChannels config states ->
         Forall (track_length_ok rawChannels) states)
  /\ (forall rawChannels config states,
         NoDup (map raw_id rawChannels) ->
         reachable rawChannels config states ->
         Forall (fun ch => forall raw, In raw rawChannels -> raw_id raw = id ch ->
                   length (processedValues ch) = length (values raw)) states).
Proof.
  assert (Hreach : forall rawChannels config states,
             reachable rawChannels config states ->
             Forall (track_length_ok rawChannels) states).
  { intros rawChannels config states H. induction H.
    - apply (initialStates_ok [] rawChannels (fun n => n)).
    - now apply updateRefinement_ok.
    - now apply toggleChannelState_ok. }
  split; [exact refineChannel_length|]. split; [exact Hreach|].
  intros rawChannels config states Hnd H.
  eapply Forall_impl; [exact (Hreach _ _ _ H)|].
  intros ch (raw0 & Hin0 & Hid0 & Hlen0) raw Hin Hid.
  now rewrite (raw_id_unique rawChannels raw raw0 Hnd Hin Hin0) by congruence.
Qed.

(** C7 (the code departs from the claim).  A first selection of two files
    makes both of them masters, so their tracks get the same ids; a
    settings edit then refines, for every channel state with the edited
    id, the first raw channel with that id.  With a first master of three
    frames and a second of one frame, an edit of "energy" leaves the
    tenth channel state, the energy of the second master, with a cached
    track of three values, while its raw track has one. *)
Theorem updateRefinement_duplicate_id_breaks_length :
  let raws :=
    channels "master"%string "a"%string (initial_tracks 3)
      (replicate 3 (Fin 0), replicate 3 (Fin 0))
    ++ channels "master"%string "b"%string (initial_tracks 1)
         (replicate 1 (Fin 0), replicate 1 (Fin 0)) in
  let states :=
    updateRefinement raws config_30fps "energy"%string DEFAULT_REFINEMENT
      (initialStates raws) in
  map file_type (handleFileUpload [] (Some [("a1", "a.wav"); ("b2", "b.wav")]%string))
    = [master; master]
  /\ reachable raws config_30fps states
  /\ exists ch raw,
       states !! 9%nat = Some ch /\ raws !! 9%nat = Some raw
       /\ id ch = raw_id raw
       /\ length (processedValues ch) = 3%nat
       /\ length (values raw) = 1%nat.
Proof.
  intros raws states. split; [reflexivity|]. split; [apply reach_update, reach_init|].
  exists {| id := "energy"%string; settings := DEFAULT_REFINEMENT;
            processedValues :=
              refineChannel (replicate 3 (Fin 0)) DEFAULT_REFINEMENT
                (bpm config_30fps) (fps config_30fps);
            visible := true; mute := false; solo := false;
            color := "#d946ef"%string |}.
  exists {| raw_id := "energy"%string; raw_name := "b Energy"%string;
            sourceId := "master"%string;
            values := replicate 1 (Fin 0); type := energy_t |}.
  split; [reflexivity|]. split; [reflexivity|]. split; [reflexivity|].
  split; [|reflexivity]. cbn [processedValues]. now rewrite refineChannel_length.
Qed.

(** ** The visibility resolver *)

Lemma existsb_solo_spec (states : list ChannelState) :
  existsb solo states = true <-> exists ch, In ch states /\ solo ch = true.
Proof. apply existsb_exists. Qed.

(** C8.  The resolver keeps the channels in place and gives each the
    visibility of the spec: off when its eye is off; else its own solo flag
    when some channel is soloed; else the negation of its mute flag.  So
    when some channel is soloed, a channel that is not resolves to
    invisible, muted or not. *)
Theorem visibleChannels_effective (states : list ChannelState) :
  let anySolo := existsb solo states in
  (anySolo = true <-> exists ch, In ch states /\ solo ch = true)
  /\ visibleChannels states
     = map (fun ch => with_visible (effective_visibility anySolo ch) ch) states
  /\ (forall (i : nat) (ch : ChannelState),
         states !! i = Some ch ->
         exists ch', visibleChannels states !! i = Some ch' /\
                     same_but_visible ch ch' /\
                     visible ch' = effective_visibility anySolo ch)
  /\ (forall (i : nat) (ch soloed : ChannelState),
         In soloed states -> solo soloed = true ->
         states !! i = Some ch -> solo ch = false ->
         exists ch', visibleChannels states !! i = Some ch' /\ visible ch' = false).
Proof.
  intros anySolo.
  assert (Hmap : visibleChannels states
     = map (fun ch => with_visible (effective_visibility anySolo ch) ch) states).
  { unfold visibleChannels. fold anySolo. apply map_ext. intros ch.
    unfold effective_visibility.
    destruct (negb (visible ch)); [reflexivity|]. now destruct anySolo. }
  split; [apply existsb_solo_spec|]. split; [exact Hmap|]. split.
  - intros i ch Hi. exists (with_visible (effective_visibility anySolo ch) ch).
    split; [|split; [repeat split|reflexivity]].
    rewrite Hmap, list_lookup_fmap, Hi. reflexivity.
  - intros i ch soloed Hin Hsolo Hi Hch.
    exists (with_visible (effective_visibility anySolo ch) ch). split.
    + rewrite Hmap, list_lookup_fmap, Hi. reflexivity.
    + cbn. unfold effective_visibility.
      destruct (negb (visible ch)); [reflexivity|].
      replace anySolo with true; [exact Hch|].
      symmetry. apply existsb_solo_spec. now exists soloed.
Qed.

Lemma visibleChannels_effective_witness :
  let a := {| id := "energy"; settings := DEFAULT_REFINEMENT; processedValues := [];
              visible := true; mute := false; solo := false; color := "#06b6d4" |}%string in
  let b := {| id := "low"; settings := DEFAULT_REFINEMENT; processedValues := [];
              visible := true; mute := false; solo := true; color := "#d946ef" |}%string in
  exists ch', visibleChannels [a; b] !! 0%nat = Some ch' /\ visible ch' = false.
Proof.
  intros a b.
  apply (proj2 (proj2 (proj2 (visibleChannels_effective [a; b]))) 0%nat a b).
  - right. now left.
  - reflexivity.
  - reflexivity.
  - reflexivity.
Defined.

(** ** The extraction and the decoded source *)

Lemma pb_ret {A} (a : A) : preserves_buffer (ret a).
Proof. intros h. reflexivity. Qed.

Lemma pb_bind {A B} (m : M A) (k : A -> M B) :
  preserves_buffer m -> (forall a, preserves_buffer (k a)) ->
  preserves_buffer (bind m k).
Proof.
  intros Hm Hk h. unfold bind. specialize (Hm h).
  destruct (m h) as [[a| |] h']; cbn in *; try assumption.
  now rewrite Hk.
Qed.

Lemma pb_diverge {A} : preserves_buffer (@diverge A).
Proof. intros h. reflexivity. Qed.

Lemma pb_get_sampleRate : preserves_buffer get_sampleRate.
Proof. intros h. reflexivity. Qed.

Lemma pb_get_duration : preserves_buffer get_duration.
Proof. intros h. reflexivity. Qed.

Lemma pb_get_numberOfChannels : preserves_buffer get_numberOfChannels.
Proof. intros h. reflexivity. Qed.

Lemma pb_getChannelData c : preserves_buffer (getChannelData c).
Proof. intros h. unfold getChannelData. now destruct (_ <? _)%nat. Qed.

Lemma pb_length_of ref : preserves_buffer (length_of ref).
Proof. intros h. reflexivity. Qed.

Lemma pb_load ref i : preserves_buffer (load ref i).
Proof. intros h. reflexivity. Qed.

Lemma pb_alloc n : preserves_buffer (alloc_Float32Array n).
Proof. intros h. unfold alloc_Float32Array. now destruct (Float32Array_length h n). Qed.

Lemma pb_forM {S} (body : number -> S -> M S) (l : list number) :
  (forall i s, preserves_buffer (body i s)) ->
  forall s, preserves_buffer (forM l body s).
Proof.
  intros Hbody. induction l as [|i l IH]; intros s; cbn [forM].
  - apply pb_ret.
  - apply pb_bind; [apply Hbody | exact IH].
Qed.

Lemma pb_for_range {S} (start bound : number) (body : number -> S -> M S) (s : S) :
  (forall i s, preserves_buffer (body i s)) ->
  preserves_buffer (for_range start bound body s).
Proof.
  intros Hbody. unfold for_range. destruct (loop_plan start bound).
  - now apply pb_forM.
  - apply pb_diverge.
Qed.

Ltac preserves :=
  repeat first
    [ apply pb_ret | apply pb_diverge | apply pb_get_sampleRate
    | apply pb_get_duration | apply pb_get_numberOfChannels
    | apply pb_getChannelData | apply pb_length_of | apply pb_load
    | apply pb_alloc
    | apply pb_bind; [|intros ?]
    | apply pb_for_range; intros ? ?
    | match goal with |- preserves_buffer (if ?b then _ else _) => destruct b end ].

Lemma sample_body_preserves l r alpha i a : preserves_buffer (sample_body l r alpha i a).
Proof. unfold sample_body. preserves. Qed.

Lemma frame_body_preserves l r spf alpha f t :
  preserves_buffer (frame_body l r spf alpha f t).
Proof. unfold frame_body. preserves. Qed.

Lemma phase_body_preserves config spb f p : preserves_buffer (phase_body config spb f p).
Proof. unfold phase_body. preserves. Qed.

(** The extraction of [services/dsp.ts] only reads the decoded source:
    whatever the source, the configuration and the way the call ends, every
    sample of every channel is afterwards what it was before. *)
Lemma analyzeAudioBuffer_preserves_buffer config sourceId sourceName :
  preserves_buffer (analyzeAudioBuffer config sourceId sourceName).
Proof.
  unfold analyzeAudioBuffer. preserves.
Qed.

(** *** Running the model on a given source *)

Lemma bind_eq {A B} (m : M A) (k : A -> M B) (h : heap) (a : A) (h' : heap) :
  m h = (Returns a, h') -> bind m k h = k a h'.
Proof. intros H. unfold bind. now rewrite H. Qed.

Lemma bind_buffer_after {A B} (m : M A) (k : A -> M B) (h : heap) :
  (forall a, preserves_buffer (k a)) ->
  buffer (snd (bind m k h)) = buffer (snd (m h)).
Proof.
  intros Hk. unfold bind. destruct (m h) as [[a| |] h']; cbn; try reflexivity.
  apply Hk.
Qed.

Lemma Zfloor_INR (k : nat) : Zfloor (INR k) = Z.of_nat k.
Proof. rewrite INR_IZR_INZ. apply ZfloorZ. Qed.

Lemma Zceil_INR (k : nat) : Zceil (INR k) = Z.of_nat k.
Proof. rewrite INR_IZR_INZ. apply Zceil_eq. lra. Qed.

Lemma index_of_INR (k : nat) : index_of (Fin (INR k)) = Some k.
Proof.
  unfold index_of. pose proof (pos_INR k).
  destruct (Rle_dec 0 (INR k)); [|contradiction].
  rewrite Zfloor_INR, Nat2Z.id, <- INR_IZR_INZ.
  now destruct (Req_dec_T (INR k) (INR k)).
Qed.

Lemma index_of_nat (k : nat) : index_of (Fin (0 + INR k)) = Some k.
Proof. rewrite Rplus_0_l. apply index_of_INR. Qed.

Lemma loop_plan_from_0 (n : nat) :
  loop_plan (Fin 0) (Fin (INR n))
  = Some (map (fun k => Fin (0 + INR k)) (seq 0 n)).
Proof.
  unfold loop_plan. rewrite Rminus_0_r, Zceil_INR, Nat2Z.id. reflexivity.
Qed.

Lemma mix_body_run (c c2 : nat) (i : number) (h : heap) :
  Part001.mix_body c c2 i tt h
  = store c i
      (Float64 (Float64 (aget (samples (buffer h) c) i
                         + aget (samples (buffer h) c2) i)%num / Fin 2)%num) h.
Proof. reflexivity. Qed.

(** C9 (the code departs from the claim).  The extraction of
    [services/dsp.ts] leaves every sample of the source in place, but the
    revision of [unnamed/part_001] mixes a stereo source down into its
    channel 0: on the source with left channel [[1]] and right channel
    [[0]] it leaves [[0.5]] in the left channel. *)
Theorem Part001_analyzeAudioBuffer_overwrites_channel_0 :
  channelData (buffer stereo_source) = [[Fin 1]; [Fin 0]]
  /\ channelData
       (buffer (snd (Part001.analyzeAudioBuffer config_30fps "master" "mix" stereo_source)))
     = [[Fin 0.5]; [Fin 0]]
  /\ buffer (snd (analyzeAudioBuffer config_30fps "master" "mix" stereo_source))
     = buffer stereo_source.
Proof.
  split; [reflexivity|]. split; [|apply analyzeAudioBuffer_preserves_buffer].
  unfold Part001.analyzeAudioBuffer.
  rewrite (bind_eq (getChannelData 0) _ stereo_source 0%nat stereo_source eq_refl).
  rewrite (bind_eq get_numberOfChannels _ stereo_source 2%nat stereo_source eq_refl).
  rewrite bind_buffer_after by (intros; preserves).
  cbn [Nat.ltb Nat.leb].
  rewrite (bind_eq (getChannelData 1) _ stereo_source 1%nat stereo_source eq_refl).
  rewrite (bind_eq (length_of 0) _ stereo_source (Fin (INR 1)) stereo_source eq_refl).
  unfold for_range. rewrite loop_plan_from_0. cbn [seq map forM].
  rewrite (bind_eq (Part001.mix_body 0 1 _ tt) _ stereo_source tt _
             (mix_body_run 0 1 _ stereo_source)).
  cbn [ret snd buffer channelData stereo_source samples].
  unfold aget, aset. rewrite index_of_nat. cbn.
  replace (1 + 0) with (IZR 1) by lra. rewrite Float64_int by (cbn; lia).
  cbn [Num.div]. destruct (Req_dec_T 2 0); [lra|].
  replace (1 / 2) with (/ 2) by lra.
  rewrite Float64_half, ToFloat32_unit, float32_half by lra.
  do 3 f_equal. lra.
Qed.

Lemma alloc_run n k h :
  Float32Array_length h n = Some k ->
  alloc_Float32Array n h = (Returns (replicate k (Fin 0)), bump h).
Proof. intros H. unfold alloc_Float32Array. now rewrite H. Qed.

Lemma alloc_throws n h :
  Float32Array_length h n = None -> alloc_Float32Array n h = (Throws RangeError, h).
Proof. intros H. unfold alloc_Float32Array. now rewrite H. Qed.

Lemma Float32Array_length_ToIndex h n k :
  Float32Array_length h n = Some k -> ToIndex n = Some k.
Proof.
  unfold Float32Array_length. destruct (ToIndex n) as [j|]; [|discriminate].
  now destruct (N.of_nat j <=? limit h)%N.
Qed.

(** The next allocation of an array of an admissible length. *)
Ltac alloc_step n HT :=
  match goal with
  | |- context [bind (alloc_Float32Array ?x) ?k ?hh] =>
      rewrite (bind_eq (alloc_Float32Array x) k hh _ _ (alloc_run x n hh HT))
  end.

Lemma bind_throws {A B} (m : M A) (k : A -> M B) h e h' :
  m h = (Throws e, h') -> bind m k h = (Throws e, h').
Proof. intros H. unfold bind. now rewrite H. Qed.

(** A loop whose body always returns and keeps the heap returns, keeps the
    heap, and carries an invariant of the loop state along. *)
Lemma forM_returns {S} (I : S -> Prop) (P : number -> Prop)
    (body : number -> S -> M S) (h : heap) (l : list number) :
  Forall P l ->
  (forall i s, P i -> I s -> exists s', body i s h = (Returns s', h) /\ I s') ->
  forall s, I s -> exists s', forM l body s h = (Returns s', h) /\ I s'.
Proof.
  intros Hl Hbody. induction Hl as [|i l Hi Hl IH]; intros s Hs; cbn [forM].
  - exists s. now split.
  - destruct (Hbody i s Hi Hs) as (s1 & Hrun & Hs1).
    rewrite (bind_eq _ _ h s1 h Hrun). now apply IH.
Qed.

Lemma getChannelData_0_run h :
  (1 <= numberOfChannels (buffer h))%nat -> getChannelData 0 h = (Returns 0%nat, h).
Proof.
  intros Hn. unfold getChannelData. now rewrite (proj2 (Nat.ltb_lt _ _) Hn).
Qed.

Lemma channelDataR_run h :
  exists r,
    (if (1 <? numberOfChannels (buffer h))%nat then getChannelData 1 else ret 0%nat) h
    = (Returns r, h)
    /\ r = (if (1 <? numberOfChannels (buffer h))%nat then 1 else 0)%nat.
Proof.
  destruct (1 <? numberOfChannels (buffer h))%nat eqn:E.
  - exists 1%nat. unfold getChannelData. now rewrite E.
  - now exists 0%nat.
Qed.

(** The sample loop never runs away: its bound is a finite length or
    follows its start. *)
Lemma sample_loop_plan (start spf : number) (len : R) :
  exists l, loop_plan start (Math_min (start + spf)%num (Fin len)) = Some l.
Proof.
  destruct start as [s| | |], spf as [p| | |]; cbn;
    repeat match goal with
           | |- context [Rlt_dec ?a ?b] => destruct (Rlt_dec a b); cbn
           end; eauto.
Qed.

Lemma sample_body_run l r alpha i a h :
  exists a', sample_body l r alpha i a h = (Returns a', h).
Proof. eexists. reflexivity. Qed.

Lemma sample_loop_run l r alpha start spf len a h :
  exists a',
    for_range start (Math_min (start + spf)%num (Fin len))
      (sample_body l r alpha) a h = (Returns a', h).
Proof.
  unfold for_range. destruct (sample_loop_plan start spf len) as [pl ->].
  assert (Hpl : Forall (fun _ : number => True) pl) by now apply Forall_forall.
  destruct (forM_returns (fun _ => True) (fun _ => True)
              (sample_body l r alpha) h pl Hpl) with (s := a) as (a' & Hrun & _).
  - intros i s _ _. destruct (sample_body_run l r alpha i s h) as [s' Hs']. eauto.
  - exact I.
  - eauto.
Qed.

Lemma length_aset a i v : length (aset a i v) = length a.
Proof. unfold aset. destruct (index_of i); [apply length_insert|reflexivity]. Qed.

Lemma frame_body_run l r spf alpha f t h :
  exists t',
    frame_body l r spf alpha f t h = (Returns t', h)
    /\ forall n, tracks_length n t -> tracks_length n t'.
Proof.
  unfold frame_body.
  rewrite (bind_eq (length_of l) _ h _ h eq_refl).
  destruct (sample_loop_run l r alpha (f * spf)%num spf
              (INR (length (samples (buffer h) l)))
              {| sumSq := Fin 0; sumLow := Fin 0; sumHigh := Fin 0; sumDiff := Fin 0;
                 localMax := Fin 0; sums_lpState := st_lpState t |} h) as [a Ha].
  rewrite (bind_eq _ _ h a h Ha).
  eexists. split; [reflexivity|].
  intros n (He & Hl & Hm & Hh & Hb & Hw & Ht).
  unfold tracks_length; cbn [st_energy st_low st_mid st_high st_brightness st_width st_transient].
  rewrite !length_aset. repeat split; try assumption.
  destruct (Fin 0 <? f)%num; [rewrite length_aset|]; assumption.
Qed.

Lemma trunc_IZR z : Num.trunc (IZR z) = z.
Proof.
  unfold Num.trunc. destruct (Rle_dec 0 (IZR z)).
  - apply ZfloorZ.
  - apply Zceil_eq. lra.
Qed.

(** Once the arrays are allocated, the frame loops run over the frame
    numbers below the length of the arrays. *)
Lemma frames_plan (x : number) (n : nat) :
  ToIndex (Math_ceil x) = Some n ->
  loop_plan (Fin 0) (Math_ceil x) = Some (frame_numbers n).
Proof.
  destruct x as [r| | |]; cbn [Math_ceil ToIndex]; try discriminate.
  - rewrite trunc_IZR.
    destruct ((0 <=? Zceil r) && (Zceil r <=? 2 ^ 53 - 1))%Z eqn:E; [|discriminate].
    intros [= <-]. unfold loop_plan, frame_numbers.
    rewrite Rminus_0_r. do 3 f_equal. f_equal. apply Zceil_eq. lra.
  - intros [= <-]. reflexivity.
Qed.

Lemma frame_loop_run l r spf alpha (nums : list number) t h n :
  tracks_length n t ->
  exists t',
    forM nums (frame_body l r spf alpha) t h = (Returns t', h) /\ tracks_length n t'.
Proof.
  intros Ht.
  apply (forM_returns (tracks_length n) (fun _ => True)); [now apply Forall_forall| |exact Ht].
  intros i s _ Hs. destruct (frame_body_run l r spf alpha i s h) as (s' & Hrun & Hlen).
  exists s'. split; [exact Hrun|now apply Hlen].
Qed.

Lemma phase_loop_run config spb (nums : list number) (p : list number * list number) h n :
  length (fst p) = n -> length (snd p) = n ->
  exists p',
    forM nums (phase_body config spb) p h = (Returns p', h)
    /\ length (fst p') = n /\ length (snd p') = n.
Proof.
  intros H1 H2.
  apply (forM_returns (fun p => length (fst p) = n /\ length (snd p) = n) (fun _ => True));
    [now apply Forall_forall| |now split].
  intros i s _ [Hs1 Hs2]. eexists. split; [reflexivity|].
  cbn. now rewrite !length_aset.
Qed.

(** When [Math.ceil(duration * fps)] is an admissible array length [n],
    the extraction returns: nine arrays are allocated, the source is not
    touched, and the tracks are those the two loops compute over the frame
    numbers below [n]. *)
Lemma analyzeAudioBuffer_loops config sourceId sourceName h n :
  (1 <= numberOfChannels (buffer h))%nat ->
  Float32Array_length h (Math_ceil (Float64 (duration (buffer h) * fps config)%num)) = Some n ->
  exists t p,
    forM (frame_numbers n)
      (frame_body 0 (right_channel (buffer h))
         (Math_floor (Float64 (sampleRate (buffer h) / fps config)%num)) (Fin 0.15))
      (initial_tracks n) (Nat.iter 7 bump h)
      = (Returns t, Nat.iter 7 bump h)
    /\ forM (frame_numbers n) (phase_body config (Fin 60 / bpm config)%num)
         (replicate n (Fin 0), replicate n (Fin 0)) (Nat.iter 9 bump h)
       = (Returns p, Nat.iter 9 bump h)
    /\ tracks_length n t /\ length (fst p) = n /\ length (snd p) = n
    /\ analyzeAudioBuffer config sourceId sourceName h
       = (Returns (channels sourceId sourceName t p), Nat.iter 9 bump h).
Proof.
  intros Hn HT. unfold analyzeAudioBuffer.
  rewrite (bind_eq (getChannelData 0) _ h _ h (getChannelData_0_run h Hn)).
  rewrite (bind_eq get_numberOfChannels _ h _ h eq_refl).
  destruct (channelDataR_run h) as (r & HR & Hr).
  rewrite (bind_eq _ _ h _ h HR).
  rewrite (bind_eq get_duration _ h _ h eq_refl).
  rewrite (bind_eq get_sampleRate _ h _ h eq_refl).
  do 7 (alloc_step n HT).
  unfold for_range. rewrite (frames_plan _ n (Float32Array_length_ToIndex _ _ _ HT)).
  fold (right_channel (buffer h)) in Hr. subst r.
  destruct (frame_loop_run 0 (right_channel (buffer h))
              (Math_floor (Float64 (sampleRate (buffer h) / fps config)%num)) (Fin 0.15)
              (frame_numbers n) (initial_tracks n) (Nat.iter 7 bump h) n)
    as (t & Ht & Hlen).
  { unfold tracks_length; cbn. now rewrite !length_replicate. }
  exists t.
  cbn [Nat.iter] in Ht |- *. pose proof Ht as Ht'. unfold initial_tracks in Ht'.
  rewrite (bind_eq _ _ _ t _ Ht').
  do 2 (alloc_step n HT).
  destruct (phase_loop_run config (Fin 60 / bpm config)%num (frame_numbers n)
              (replicate n (Fin 0), replicate n (Fin 0))
              (Nat.iter 9 bump h) n) as (p & Hp & Hp1 & Hp2);
    [apply length_replicate|apply length_replicate|].
  exists p. cbn [Nat.iter] in Hp.
  rewrite (bind_eq _ _ _ p _ Hp).
  split; [exact Ht|]. split; [exact Hp|]. split; [exact Hlen|].
  split; [exact Hp1|]. split; [exact Hp2|]. reflexivity.
Qed.

Lemma analyzeAudioBuffer_run config sourceId sourceName h n :
  (1 <= numberOfChannels (buffer h))%nat ->
  Float32Array_length h (Math_ceil (Float64 (duration (buffer h) * fps config)%num)) = Some n ->
  exists tracks,
    analyzeAudioBuffer config sourceId sourceName h
      = (Returns tracks, Nat.iter 9 bump h)
    /\ length tracks = (if is_master sourceId then 9 else 7)%nat
    /\ Forall (fun t => length (values t) = n) tracks.
Proof.
  intros Hn HT.
  destruct (analyzeAudioBuffer_loops config sourceId sourceName h n Hn HT)
    as (t & p & _ & _ & Hlen & Hp1 & Hp2 & Hrun).
  exists (channels sourceId sourceName t p). split; [exact Hrun|].
  unfold channels. split.
  { rewrite length_app. now destruct (is_master sourceId). }
  destruct Hlen as (He & Hl & Hm & Hh & Hb & Hw & Htr).
  apply Forall_app. split.
  - repeat constructor; assumption.
  - destruct (is_master sourceId); repeat constructor; assumption.
Qed.

Lemma analyzeAudioBuffer_throws config sourceId sourceName h :
  (1 <= numberOfChannels (buffer h))%nat ->
  Float32Array_length h (Math_ceil (Float64 (duration (buffer h) * fps config)%num)) = None ->
  analyzeAudioBuffer config sourceId sourceName h = (Throws RangeError, h).
Proof.
  intros Hn HT. unfold analyzeAudioBuffer.
  rewrite (bind_eq (getChannelData 0) _ h _ h (getChannelData_0_run h Hn)).
  rewrite (bind_eq get_numberOfChannels _ h _ h eq_refl).
  destruct (channelDataR_run h) as (r & HR & _).
  rewrite (bind_eq _ _ h _ h HR).
  rewrite (bind_eq get_duration _ h _ h eq_refl).
  rewrite (bind_eq get_sampleRate _ h _ h eq_refl).
  apply bind_throws, alloc_throws, HT.
Qed.

Lemma ToIndex_ceil_negative (x : R) : x <= -1 -> ToIndex (Math_ceil (Fin x)) = None.
Proof.
  intros Hx. cbn [Math_ceil ToIndex]. rewrite trunc_IZR.
  pose proof (Zceil_bound x) as [Hlo _].
  assert (Hz : (Zceil x < 0)%Z) by (apply lt_IZR; lra).
  now rewrite (proj2 (Z.leb_gt _ _) Hz).
Qed.

Lemma ToIndex_ceil_nonneg (x : R) :
  0 <= x <= 9007199254740991 ->
  ToIndex (Math_ceil (Fin x)) = Some (Z.to_nat (Zceil x)).
Proof.
  intros Hx. cbn [Math_ceil ToIndex]. rewrite trunc_IZR.
  pose proof (Zceil_bound x) as [Hlo Hhi].
  assert (Hz : (0 <= Zceil x)%Z) by (apply le_IZR; lra).
  assert (Hz' : (Zceil x <= 2 ^ 53 - 1)%Z).
  { change (2 ^ 53 - 1)%Z with 9007199254740991%Z.
    assert (Zceil x < 9007199254740991 + 1)%Z; [|lia].
    apply lt_IZR. rewrite plus_IZR. lra. }
  now rewrite (proj2 (Z.leb_le _ _) Hz), (proj2 (Z.leb_le _ _) Hz').
Qed.

Lemma Float32Array_length_None h n :
  ToIndex n = None -> Float32Array_length h n = None.
Proof. intros H. unfold Float32Array_length. now rewrite H. Qed.

Lemma Float32Array_length_within h n k :
  ToIndex n = Some k -> (N.of_nat k <= limit h)%N -> Float32Array_length h n = Some k.
Proof.
  intros H Hk. unfold Float32Array_length. rewrite H.
  now rewrite (proj2 (N.leb_le _ _) Hk).
Qed.

Lemma Float32Array_length_0 h n :
  ToIndex n = Some 0%nat -> Float32Array_length h n = Some 0%nat.
Proof.
  intros H. unfold Float32Array_length. rewrite H.
  now rewrite (proj2 (N.leb_le _ _)) by lia.
Qed.

Lemma length_0_nil {A} (l : list A) : length l = 0%nat -> l = [].
Proof. now destruct l. Qed.

(** A product of [-1] or less rounds to a double of [-1] or less, or
    overflows: its ceiling is no length. *)
Lemma ToIndex_ceil_Float64_negative (x : R) :
  x <= -1 -> ToIndex (Math_ceil (Float64 (Fin x))) = None.
Proof.
  intros Hx. unfold Float64, rounded.
  destruct (Rle_dec (pow2 1024) (Rabs (float64 x))).
  - now destruct (Rlt_dec (float64 x) 0).
  - apply ToIndex_ceil_negative.
    replace (-1) with (float64 (-1)); [now apply float64_mono|].
    apply (float64_int (-1)). cbn. lia.
Qed.

(** An integer product below [2^53] is the number of frames. *)
Lemma ToIndex_ceil_Float64_int (x : R) (m : Z) :
  x = IZR m -> (0 <= m < 2 ^ 53)%Z ->
  ToIndex (Math_ceil (Float64 (Fin x))) = Some (Z.to_nat m).
Proof.
  intros -> Hm. rewrite Float64_int by lia.
  rewrite ToIndex_ceil_nonneg.
  - f_equal. f_equal. apply Zceil_eq. lra.
  - split; [apply (IZR_le 0); lia|apply IZR_le; lia].
Qed.

(** A product of [(0,1]] that is not tiny makes one frame. *)
Lemma ToIndex_ceil_Float64_unit (x : R) :
  / 1048576 <= x <= 1 -> ToIndex (Math_ceil (Float64 (Fin x))) = Some 1%nat.
Proof.
  intros [Hlo Hhi].
  assert (Hp : pow2 (-20) = / 1048576).
  { change (pow2 (-20)) with (pow2 (- (20))).
    rewrite pow2_neg, (pow2_nonneg_exp 20) by lia. reflexivity. }
  assert (H1 : float64 (/ 1048576) = / 1048576).
  { rewrite <- Hp. apply float64_pow2. lia. }
  pose proof (float64_mono _ _ Hlo) as Ha. rewrite H1 in Ha.
  pose proof (float64_mono _ _ Hhi) as Hb. rewrite float64_1 in Hb.
  rewrite Float64_small.
  - rewrite ToIndex_ceil_nonneg by lra.
    replace (Zceil (float64 x)) with 1%Z; [reflexivity|].
    symmetry. apply Zceil_eq. lra.
  - rewrite Rabs_right by lra. apply Rle_trans with 1; [lra|].
    apply IZR_le. cbn. lia.
Qed.

(** With [fps = 0] and a finite duration the length of the arrays is 0. *)
Lemma ToIndex_fps_0 (d : R) :
  ToIndex (Math_ceil (Float64 (Fin d * Fin 0)%num)) = Some 0%nat.
Proof.
  cbn [Num.mul]. rewrite Rmult_0_r.
  apply (ToIndex_ceil_Float64_int 0 0); [reflexivity|lia].
Qed.

(** C3 as stated fails.  With [fps = 0] the extraction does not fail: it
    allocates its nine arrays and returns nine tracks without values. *)
Lemma analyzeAudioBuffer_accepts_fps_0 :
  (fps config_0fps <=? Fin 0)%num = true
  /\ exists tracks,
       analyzeAudioBuffer config_0fps "master" "mix" mono_source
         = (Returns tracks, Nat.iter 9 bump mono_source)
       /\ length tracks = 9%nat
       /\ Forall (fun t => values t = []) tracks
       /\ allocated (Nat.iter 9 bump mono_source) = 9%nat.
Proof.
  split.
  { cbn. destruct (Rle_dec 0 0); [reflexivity|lra]. }
  destruct (analyzeAudioBuffer_run config_0fps "master" "mix" mono_source 0)
    as (tracks & Hrun & Hlen & Hvals).
  - cbn. lia.
  - apply Float32Array_length_0, ToIndex_fps_0.
  - exists tracks. repeat split; try assumption.
    eapply Forall_impl; [exact Hvals|]. intros t. apply length_0_nil.
Qed.

(** C3, amended.  The extraction checks neither [fps] nor [sampleRate].
    On a source with a channel: when [Math.ceil(duration * fps)] is not a
    length that a [Float32Array] can be given, as whenever
    [duration * fps <= -1], the first allocation throws a [RangeError], the
    heap being as it was: no output array exists and no track is
    returned; and with [fps = 0] and a finite duration the extraction
    returns its tracks, each without values, whatever the sample rate. *)
Theorem analyzeAudioBuffer_has_no_validation
    (config : AnalysisConfig number) (sourceId sourceName : string) (h : heap) :
  (1 <= numberOfChannels (buffer h))%nat ->
  let totalFrames := Math_ceil (Float64 (duration (buffer h) * fps config)%num) in
  (Float32Array_length h totalFrames = None ->
     analyzeAudioBuffer config sourceId sourceName h = (Throws RangeError, h))
  /\ (forall d r, duration (buffer h) = Fin d -> fps config = Fin r ->
        d * r <= -1 ->
        analyzeAudioBuffer config sourceId sourceName h = (Throws RangeError, h))
  /\ (forall d, duration (buffer h) = Fin d -> fps config = Fin 0 ->
        exists tracks,
          analyzeAudioBuffer config sourceId sourceName h
            = (Returns tracks, Nat.iter 9 bump h)
          /\ Forall (fun t => values t = []) tracks).
Proof.
  intros Hn totalFrames. subst totalFrames. split; [|split].
  - now apply analyzeAudioBuffer_throws.
  - intros d r Hd Hr Hdr. apply analyzeAudioBuffer_throws; [exact Hn|].
    rewrite Hd, Hr. now apply Float32Array_length_None, ToIndex_ceil_Float64_negative.
  - intros d Hd Hr.
    destruct (analyzeAudioBuffer_run config sourceId sourceName h 0 Hn)
      as (tracks & Hrun & _ & Hvals).
    { rewrite Hd, Hr. apply Float32Array_length_0, ToIndex_fps_0. }
    exists tracks. split; [exact Hrun|].
    eapply Forall_impl; [exact Hvals|]. intros t. apply length_0_nil.
Qed.

Lemma analyzeAudioBuffer_has_no_validation_witness :
  analyzeAudioBuffer config_negative_fps "master" "mix" mono_source
  = (Throws RangeError, mono_source).
Proof.
  assert (Hn : (1 <= numberOfChannels (buffer mono_source))%nat) by (cbn; lia).
  destruct (analyzeAudioBuffer_has_no_validation
              config_negative_fps "master" "mix" mono_source Hn)
    as (_ & Hneg & _).
  apply (Hneg (1 / 48000) (-96000)); [reflexivity|reflexivity|lra].
Defined.

(** *** Frames without samples *)

(** With [samplesPerFrame = 0] a frame covers no sample: the sums stay 0
    and are divided by [end - start = 0]. *)
Lemma frame_body_empty l r alpha (k : nat) (t : tracks) (h : heap) :
  let f := Fin (0 + INR k) in
  exists t',
    frame_body l r (Fin 0) alpha f t h = (Returns t', h)
    /\ st_energy t' = aset (st_energy t) f NaN
    /\ st_low t' = aset (st_low t) f NaN
    /\ st_high t' = aset (st_high t) f NaN
    /\ st_brightness t' = aset (st_brightness t) f NaN
    /\ st_width t' = aset (st_width t) f NaN.
Proof.
  intros f. unfold frame_body.
  rewrite (bind_eq (length_of l) _ h _ h eq_refl).
  assert (Hend : Math_min (f * Fin 0 + Fin 0)%num
                   (Fin (INR (length (samples (buffer h) l))))
                 = Fin ((0 + INR k) * 0 + 0)).
  { cbn. pose proof (pos_INR (length (samples (buffer h) l))).
    destruct (Rlt_dec _ _); [lra|reflexivity]. }
  rewrite Hend.
  assert (Hplan : loop_plan (f * Fin 0)%num (Fin ((0 + INR k) * 0 + 0)) = Some []).
  { cbn. replace (Zceil _) with 0%Z; [reflexivity|]. symmetry. apply Zceil_eq. lra. }
  unfold for_range. rewrite Hplan. cbn [forM].
  rewrite (bind_eq (ret _) _ h _ h eq_refl).
  assert (Hdiv : (Fin 0 / (Fin ((0 + INR k) * 0 + 0) - f * Fin 0))%num = NaN).
  { cbn. destruct (Req_dec_T _ 0); [|lra]. destruct (Req_dec_T 0 0); [reflexivity|lra]. }
  cbn [sumSq sumLow sumHigh sumDiff]. rewrite Hdiv.
  eexists. split; [reflexivity|]. cbn. repeat split.
Qed.

Lemma aset_filled (j n : nat) :
  (j < n)%nat -> aset (filled j n) (Fin (0 + INR j)) NaN = filled (S j) n.
Proof.
  intros Hj. unfold aset, filled. rewrite index_of_nat.
  rewrite insert_app_r_alt by (rewrite length_replicate; lia).
  rewrite length_replicate, Nat.sub_diag.
  replace (n - j)%nat with (S (n - S j)) by lia.
  replace (S j) with (j + 1)%nat at 2 by lia.
  rewrite replicate_add, <- app_assoc. reflexivity.
Qed.

Lemma empty_frames_loop l r alpha h n :
  forall m j t,
    (j + m = n)%nat ->
    st_energy t = filled j n -> st_low t = filled j n -> st_high t = filled j n ->
    st_brightness t = filled j n -> st_width t = filled j n ->
    exists t',
      forM (map (fun k => Fin (0 + INR k)) (seq j m))
        (frame_body l r (Fin 0) alpha) t h = (Returns t', h)
      /\ st_energy t' = filled n n /\ st_low t' = filled n n
      /\ st_high t' = filled n n /\ st_brightness t' = filled n n
      /\ st_width t' = filled n n.
Proof.
  induction m as [|m IH]; intros j t Hjm He Hl Hh Hb Hw; cbn [seq map forM].
  - exists t. rewrite Nat.add_0_r in Hjm. subst n.
    split; [reflexivity|]. repeat split; assumption.
  - destruct (frame_body_empty l r alpha j t h) as (t1 & Hrun & He1 & Hl1 & Hh1 & Hb1 & Hw1).
    rewrite (bind_eq _ _ h t1 h Hrun).
    apply (IH (S j) t1); [lia|..].
    + rewrite He1, He. apply aset_filled. lia.
    + rewrite Hl1, Hl. apply aset_filled. lia.
    + rewrite Hh1, Hh. apply aset_filled. lia.
    + rewrite Hb1, Hb. apply aset_filled. lia.
    + rewrite Hw1, Hw. apply aset_filled. lia.
Qed.

Lemma filled_all (n : nat) : filled n n = replicate n NaN.
Proof. unfold filled. rewrite Nat.sub_diag. apply app_nil_r. Qed.

Lemma forM_deterministic {S} l (body : number -> S -> M S) s h (o1 o2 : outcome S * heap) :
  forM l body s h = o1 -> forM l body s h = o2 -> o1 = o2.
Proof. congruence. Qed.

(** When a frame has no sample at all ([samplesPerFrame = 0], that is
    [fps > sampleRate]), the energy, low, high, brightness and width tracks
    are [NaN] at every frame. *)
Lemma analyzeAudioBuffer_empty_frames config sourceId sourceName h n :
  (1 <= numberOfChannels (buffer h))%nat ->
  Float32Array_length h (Math_ceil (Float64 (duration (buffer h) * fps config)%num)) = Some n ->
  Math_floor (Float64 (sampleRate (buffer h) / fps config)%num) = Fin 0 ->
  exists t p,
    analyzeAudioBuffer config sourceId sourceName h
      = (Returns (channels sourceId sourceName t p), Nat.iter 9 bump h)
    /\ st_energy t = replicate n NaN /\ st_low t = replicate n NaN
    /\ st_high t = replicate n NaN /\ st_brightness t = replicate n NaN
    /\ st_width t = replicate n NaN.
Proof.
  intros Hn HT Hspf.
  destruct (analyzeAudioBuffer_loops config sourceId sourceName h n Hn HT)
    as (t & p & Ht & _ & _ & _ & _ & Hrun).
  rewrite Hspf in Ht.
  assert (H0 : filled 0 n = replicate n (Fin 0)).
  { unfold filled. cbn. now rewrite Nat.sub_0_r. }
  destruct (empty_frames_loop 0 (right_channel (buffer h)) (Fin 0.15)
              (Nat.iter 7 bump h) n n 0%nat (initial_tracks n))
    as (t' & Ht' & He & Hl & Hh & Hb & Hw); try (symmetry; exact H0); [lia|].
  unfold frame_numbers in Ht. rewrite Ht in Ht'. injection Ht' as <-.
  exists t, p. rewrite <- filled_all. repeat split; assumption.
Qed.

(** C4 (the code departs from the claim).  A mono source of one sample at
    48000 Hz analysed at 96000 frames per second, at 140 beats per minute:
    the two frames cover no sample, the frame sums are divided by
    [end - start = 0], and the energy and width tracks are [NaN] at both
    frames, neither in [[0,1]] nor finite, nor 0 for the width of a mono
    source. *)
Theorem analyzeAudioBuffer_NaN_on_empty_frames :
  numberOfChannels (buffer mono_source) = 1%nat
  /\ sampleRate (buffer mono_source) = Fin 48000
  /\ fps config_96000fps = Fin 96000 /\ bpm config_96000fps = Fin 140
  /\ exists tracks h',
       analyzeAudioBuffer config_96000fps "master" "mix" mono_source
         = (Returns tracks, h')
       /\ (exists e, tracks !! 0%nat = Some e /\ raw_id e = "energy"%string
                     /\ values e = [NaN; NaN])
       /\ (exists w, tracks !! 6%nat = Some w /\ raw_id w = "width"%string
                     /\ values w = [NaN; NaN]).
Proof.
  repeat (split; [reflexivity|]).
  destruct (analyzeAudioBuffer_empty_frames config_96000fps "master" "mix"
              mono_source 2) as (t & p & Hrun & He & _ & _ & _ & Hw).
  - cbn. lia.
  - apply Float32Array_length_within; [|cbn; lia].
    cbn [mono_source buffer duration config_96000fps fps Num.mul].
    apply (ToIndex_ceil_Float64_int _ 2); [lra|lia].
  - cbn [mono_source buffer sampleRate config_96000fps fps Num.div].
    destruct (Req_dec_T 96000 0); [lra|].
    replace (48000 / 96000) with (/ 2) by lra. rewrite Float64_half.
    cbn [Math_floor]. f_equal.
    change 0 with (IZR 0). f_equal. apply Zfloor_eq. lra.
  - eexists. eexists. split; [exact Hrun|]. split.
    + eexists. split; [reflexivity|]. split; [reflexivity|]. exact He.
    + eexists. split; [reflexivity|]. split; [reflexivity|]. exact Hw.
Qed.

(** ** The ranges of stored values *)

Lemma Rdiv_nonneg (a b : R) : 0 <= a -> 0 < b -> 0 <= a / b.
Proof.
  intros Ha Hb. unfold Rdiv. apply Rmult_le_pos; [exact Ha|].
  left. now apply Rinv_0_lt_compat.
Qed.

Lemma Math_min_1_unit (x : number) : nonneg x -> unit_value (Math_min (Fin 1) x).
Proof.
  intros (r & -> & Hr). cbn. destruct (Rlt_dec r 1).
  - exists r. split; [reflexivity|lra].
  - exists 1. split; [reflexivity|lra].
Qed.

(** The transient value is in range whatever the difference is. *)
Lemma transient_unit (delta : number) :
  unit_value (if (Fin 0 <? delta)%num then Math_min (Fin 1) (delta * Fin 4)%num else Fin 0).
Proof.
  assert (H0 : unit_value (Fin 0)) by (exists 0; split; [reflexivity|lra]).
  assert (H1 : unit_value (Fin 1)) by (exists 1; split; [reflexivity|lra]).
  destruct delta as [d| | |]; cbn; try exact H0.
  - destruct (Rlt_dec 0 d); [|exact H0].
    apply (Math_min_1_unit (Fin (d * 4))). exists (d * 4). split; [reflexivity|lra].
  - unfold Num.inf_times. destruct (Req_dec_T 4 0); [lra|].
    destruct (Rlt_dec 0 4); [|lra]. exact H1.
Qed.

(** A value of [[0,1]] is stored as a value of [[0,1]]. *)
Lemma ToFloat32_unit_value (v : number) : unit_value v -> unit_value (ToFloat32 v).
Proof.
  intros (r & -> & Hr). rewrite ToFloat32_unit by exact Hr.
  exists (float32 r). split; [reflexivity|]. now apply float32_unit.
Qed.

Lemma Forall_aset (P : number -> Prop) (a : list number) (f v : number) :
  Forall P a -> P (ToFloat32 v) -> Forall P (aset a f v).
Proof.
  intros Ha Hv. unfold aset. destruct (index_of f); [|exact Ha].
  now apply Forall_insert.
Qed.

Lemma Fin_div (a b : R) : b <> 0 -> (Fin a / Fin b)%num = Fin (a / b).
Proof. intros Hb. cbn. now destruct (Req_dec_T b 0). Qed.

Lemma unit_value_0 : unit_value (Fin 0).
Proof. exists 0. split; [reflexivity|lra]. Qed.

(** * Further properties of the code *)

(** ** refineChannel *)

(** X1.  Whatever the clip flag, the other settings and the samples
    ([NaN] and the infinities included): without inversion no output of
    [refineChannel] is negative, and with inversion no output exceeds 1. *)
Theorem refineChannel_one_sided_bound (raw : list number) (s : RefinementSettings)
    (bpm fps : number) :
  (invert s = false -> Forall not_negative (refineChannel raw s bpm fps))
  /\ (invert s = true -> Forall not_above_1 (refineChannel raw s bpm fps)).
Proof.
  rewrite refineChannel_trace. split; intros Hinv.
  - now apply refine_trace_not_negative.
  - now apply refine_trace_not_above_1.
Qed.

Lemma refineChannel_one_sided_bound_witness :
  Forall not_above_1
    (refineChannel [Fin 3; Fin 0.5]
       {| gain := 2; offset := 0; smooth := 0.5; gate := 0;
          clip := false; invert := true; quantize := 0 |} (Fin 140) (Fin 30)).
Proof.
  apply (proj2 (refineChannel_one_sided_bound [Fin 3; Fin 0.5]
           {| gain := 2; offset := 0; smooth := 0.5; gate := 0;
              clip := false; invert := true; quantize := 0 |} (Fin 140) (Fin 30))).
  reflexivity.
Defined.

Lemma refine_trace_set_quantize q s alpha smoothed raw :
  refine_trace (set_quantize q s) alpha smoothed raw = refine_trace s alpha smoothed raw.
Proof.
  revert smoothed. induction raw as [|x raw IH]; intros smoothed; cbn [refine_trace].
  - reflexivity.
  - now rewrite IH.
Qed.

(** X2.  The loop of [unnamed/part_001] reads neither the tempo nor the
    quantize setting either: its output is that of the loop of
    [services/dsp.ts], for any two choices of [bpm], [fps] and [quantize]
    (zero, negative and off-grid values included). *)
Theorem Part001_refineChannel_ignores_tempo_and_quantize (raw : list number)
    (s : RefinementSettings) (q : R) (bpm fps bpm' fps' : number) :
  Part001.refineChannel raw (set_quantize q s) bpm fps
  = refineChannel raw s bpm' fps'.
Proof.
  rewrite Part001_refineChannel_eq, !refineChannel_trace.
  apply refine_trace_set_quantize.
Qed.

Lemma refine_trace_app s alpha smoothed (a b : list number) :
  take (length a) (refine_trace s alpha smoothed (a ++ b))
  = refine_trace s alpha smoothed a.
Proof.
  revert smoothed. induction a as [|x a IH]; intros smoothed; cbn.
  - now rewrite take_0.
  - now rewrite IH.
Qed.

(** X3.  The pass has no lookahead: the outputs for the first samples of a
    track are the same whatever samples follow them. *)
Theorem refineChannel_prefix (raw more : list number) (s : RefinementSettings)
    (bpm fps : number) :
  take (length raw) (refineChannel (raw ++ more) s bpm fps)
  = refineChannel raw s bpm fps.
Proof. rewrite !refineChannel_trace. apply refine_trace_app. Qed.

Lemma unit_samples_finite (l : list number) :
  Forall unit_sample l ->
  exists xs, l = map Fin xs /\ Forall (fun x => 0 <= x <= 1 /\ is_float32 x) xs.
Proof.
  induction 1 as [|v l (x & -> & Hx) _ (xs & -> & Hxs)].
  - now exists [].
  - exists (x :: xs). split; [reflexivity|now constructor].
Qed.

Lemma unit_samples_float32 (xs : list R) :
  Forall (fun x => 0 <= x <= 1 /\ is_float32 x) xs -> Forall float32_value xs.
Proof.
  intros H. eapply Forall_impl; [exact H|]. intros x [Hu Hf].
  now apply float32_value_unit.
Qed.

(** Under the default settings a track of float32 numbers of [[0,1]] is
    its own refinement. *)
Lemma refineChannel_default_fixes (raw : list number) (bpm fps : number) :
  Forall unit_sample raw ->
  refineChannel raw DEFAULT_REFINEMENT bpm fps = raw.
Proof.
  intros Hraw. destruct (unit_samples_finite raw Hraw) as (xs & -> & Hxs).
  rewrite refineChannel_default by now apply unit_samples_float32.
  apply map_ext_in. intros x Hx.
  destruct (proj1 (Forall_forall _ _) Hxs x (proj2 (list_elem_of_In _ _) Hx)) as [Hu _].
  now rewrite clamp_id.
Qed.

(** ** The channel states *)

Lemma initialStates_lookup (results : list (RawChannelData number)) (i : nat) :
  initialStates results !! i
  = (fun raw =>
       {| id := raw_id raw; settings := DEFAULT_REFINEMENT;
          processedValues := values raw; visible := true; mute := false;
          solo := false;
          color := default EmptyString (COLORS !! (i mod length COLORS)%nat) |})
    <$> results !! i.
Proof. unfold initialStates. apply list_lookup_imap. Qed.

Lemma initialStates_ids (results : list (RawChannelData number)) :
  map id (initialStates results) = map raw_id results.
Proof.
  apply list_eq. intros i.
  rewrite !list_lookup_fmap, initialStates_lookup.
  now destruct (results !! i).
Qed.

Lemma updateRefinement_ids rawChannels config i s prev :
  map id (updateRefinement rawChannels config i s prev) = map id prev.
Proof.
  unfold updateRefinement. rewrite map_map. apply map_ext. intros ch.
  destruct (String.eqb (id ch) i); [|reflexivity].
  now destruct (find _ rawChannels).
Qed.

Lemma updateRefinement_colors rawChannels config i s prev :
  map color (updateRefinement rawChannels config i s prev) = map color prev.
Proof.
  unfold updateRefinement. rewrite map_map. apply map_ext. intros ch.
  destruct (String.eqb (id ch) i); [|reflexivity].
  now destruct (find _ rawChannels).
Qed.

Lemma toggleChannelState_ids i key prev :
  map id (toggleChannelState i key prev) = map id prev.
Proof.
  unfold toggleChannelState. rewrite map_map. apply map_ext. intros ch.
  now destruct (String.eqb (id ch) i).
Qed.

Lemma toggleChannelState_colors i key prev :
  map color (toggleChannelState i key prev) = map color prev.
Proof.
  unfold toggleChannelState. rewrite map_map. apply map_ext. intros ch.
  now destruct (String.eqb (id ch) i).
Qed.

(** X5.  Whatever the user edits or toggles, the component holds one
    channel state per raw channel, in the order of the raw channels, with
    the raw channel's id and the colour it was given at the start. *)
Theorem reachable_states_follow_raw_channels
    (rawChannels : list (RawChannelData number)) (config : AnalysisConfig number)
    (states : list ChannelState) :
  reachable rawChannels config states ->
  map id states = map raw_id rawChannels
  /\ map color states = map color (initialStates rawChannels)
  /\ length states = length rawChannels.
Proof.
  intros H.
  assert (H2 : map id states = map raw_id rawChannels
               /\ map color states = map color (initialStates rawChannels)).
  { induction H as [|i s prev _ [IH1 IH2]|i key prev _ [IH1 IH2]].
    - split; [apply initialStates_ids|reflexivity].
    - now rewrite updateRefinement_ids, updateRefinement_colors.
    - now rewrite toggleChannelState_ids, toggleChannelState_colors. }
  destruct H2 as [H1 H2]. repeat split; try assumption.
  rewrite <- (length_map id), H1. apply length_map.
Qed.

Lemma reachable_states_follow_raw_channels_witness :
  let raws := [ {| raw_id := "energy"; raw_name := "mix Energy"; sourceId := "master";
                   values := [Fin (/ 2); Fin 1; Fin 0]; type := energy_t |};
                {| raw_id := "low"; raw_name := "mix Low"; sourceId := "master";
                   values := [Fin 0; Fin (/ 2); Fin 1]; type := energy_t |} ]%string in
  let cfg := {| fps := Fin 30; bpm := Fin 140; timeSignature := Fin 4 |} in
  map id (toggleChannelState "low" key_solo
            (updateRefinement raws cfg "energy" inverted_identity (initialStates raws)))
  = ["energy"; "low"]%string.
Proof.
  intros raws cfg.
  apply (proj1 (reachable_states_follow_raw_channels raws cfg _
                  (reach_toggle raws cfg "low"%string key_solo _
                     (reach_update raws cfg "energy"%string inverted_identity _
                        (reach_init raws cfg))))).
Defined.

Lemma find_none_all {A} (p : A -> bool) (l : list A) :
  (forall x, In x l -> p x = false) -> find p l = None.
Proof.
  induction l as [|x l IH]; intros H; cbn; [reflexivity|].
  rewrite (H x) by now left. apply IH. intros y Hy. apply H. now right.
Qed.

Lemma map_id_on {A} (f : A -> A) (l : list A) :
  (forall x, In x l -> f x = x) -> map f l = l.
Proof.
  induction l as [|x l IH]; intros H; cbn; [reflexivity|].
  rewrite (H x) by now left. f_equal. apply IH. intros y Hy. apply H. now right.
Qed.

(** X6.  A settings edit for an id that no raw channel carries, or that no
    channel state carries, changes nothing. *)
Theorem updateRefinement_unknown_id (rawChannels : list (RawChannelData number))
    (config : AnalysisConfig number) (i : string) (s : RefinementSettings)
    (prev : list ChannelState) :
  (forall raw, In raw rawChannels -> raw_id raw <> i)
  \/ (forall ch, In ch prev -> id ch <> i) ->
  updateRefinement rawChannels config i s prev = prev.
Proof.
  intros H. unfold updateRefinement. apply map_id_on. intros ch Hch.
  destruct (String.eqb (id ch) i) eqn:E; [|reflexivity].
  apply String.eqb_eq in E. destruct H as [H|H].
  - rewrite find_none_all; [reflexivity|].
    intros raw Hraw. apply String.eqb_neq. now apply H.
  - now destruct (H ch Hch).
Qed.

Lemma updateRefinement_unknown_id_witness :
  let raws := [ {| raw_id := "energy"; raw_name := "mix Energy"; sourceId := "master";
                   values := [Fin (/ 2); Fin 1; Fin 0]; type := energy_t |} ]%string in
  let cfg := {| fps := Fin 30; bpm := Fin 140; timeSignature := Fin 4 |} in
  updateRefinement raws cfg "width" inverted_identity (initialStates raws)
  = initialStates raws.
Proof.
  intros raws cfg. apply updateRefinement_unknown_id. left.
  intros raw [<-|[]]. discriminate.
Defined.

Lemma toggle_toggle key ch : toggle key (toggle key ch) = ch.
Proof. destruct ch as [i s p v m so c], key; cbn; now destruct v, m, so. Qed.

(** X7.  Toggling the same flag of the same channel twice gives back the
    channel states as they were; a toggle never touches settings or
    cached tracks. *)
Theorem toggleChannelState_twice (i : string) (key : FlagKey)
    (prev : list ChannelState) :
  toggleChannelState i key (toggleChannelState i key prev) = prev
  /\ map settings (toggleChannelState i key prev) = map settings prev
  /\ map processedValues (toggleChannelState i key prev) = map processedValues prev.
Proof.
  unfold toggleChannelState. repeat split.
  - rewrite map_map. apply map_id_on. intros ch _.
    destruct (String.eqb (id ch) i) eqn:E; cbn [toggle id]; rewrite E; [|reflexivity].
    apply toggle_toggle.
  - rewrite map_map. apply map_ext. intros ch. now destruct (String.eqb (id ch) i).
  - rewrite map_map. apply map_ext. intros ch. now destruct (String.eqb (id ch) i).
Qed.

Lemma existsb_solo_resolved (anySolo : bool) (states : list ChannelState) :
  existsb solo
    (map (fun ch =>
            if negb (visible ch) then with_visible false ch
            else if anySolo then with_visible (solo ch) ch
            else with_visible (negb (mute ch)) ch) states)
  = existsb solo states.
Proof.
  induction states as [|ch states IH]; cbn; [reflexivity|].
  rewrite IH. f_equal.
  destruct (negb (visible ch)); [reflexivity|]. now destruct anySolo.
Qed.

Lemma existsb_solo_visibleChannels states :
  existsb solo (visibleChannels states) = existsb solo states.
Proof. apply existsb_solo_resolved. Qed.

(** X8.  Resolving visibility twice is resolving it once. *)
Theorem visibleChannels_idempotent (states : list ChannelState) :
  visibleChannels (visibleChannels states) = visibleChannels states.
Proof.
  unfold visibleChannels at 1. rewrite existsb_solo_visibleChannels.
  unfold visibleChannels. rewrite map_map. apply map_ext. intros ch.
  destruct ch as [i s p v m so c]. cbn.
  destruct v; cbn; [|reflexivity].
  destruct (existsb solo states); cbn.
  - now destruct so.
  - now destruct m.
Qed.

Lemma existsb_solo_updateRefinement rawChannels config i s prev :
  existsb solo (updateRefinement rawChannels config i s prev) = existsb solo prev.
Proof.
  unfold updateRefinement.
  induction prev as [|ch prev IH]; cbn; [reflexivity|].
  rewrite IH. f_equal.
  destruct (String.eqb (id ch) i); [|reflexivity].
  now destruct (find _ rawChannels).
Qed.

(** X9.  A settings edit commutes with a flag toggle and with the
    visibility resolver: the edit touches settings and cached track, the
    other two touch flags only. *)
Theorem updateRefinement_commutes (rawChannels : list (RawChannelData number))
    (config : AnalysisConfig number) (i j : string) (s : RefinementSettings)
    (key : FlagKey) (prev : list ChannelState) :
  toggleChannelState j key (updateRefinement rawChannels config i s prev)
  = updateRefinement rawChannels config i s (toggleChannelState j key prev)
  /\ visibleChannels (updateRefinement rawChannels config i s prev)
     = updateRefinement rawChannels config i s (visibleChannels prev).
Proof.
  split.
  - unfold toggleChannelState, updateRefinement. rewrite !map_map.
    apply map_ext. intros ch.
    destruct (String.eqb (id ch) j) eqn:Ej, (String.eqb (id ch) i) eqn:Ei;
      cbn [toggle id]; rewrite ?Ei, ?Ej; try reflexivity;
      destruct (find _ rawChannels); cbn [toggle id]; rewrite ?Ej; reflexivity.
  - unfold visibleChannels at 1. rewrite existsb_solo_updateRefinement.
    unfold visibleChannels, updateRefinement. rewrite !map_map.
    apply map_ext. intros ch.
    destruct (String.eqb (id ch) i) eqn:Ei.
    + destruct (find _ rawChannels); cbn;
        destruct (negb (visible ch)), (existsb solo prev); cbn; rewrite Ei; reflexivity.
    + destruct (negb (visible ch)), (existsb solo prev); cbn; rewrite Ei; reflexivity.
Qed.

Lemma initialStates_in (results : list (RawChannelData number)) (ch : ChannelState) :
  In ch (initialStates results) ->
  exists raw, In raw results /\ id ch = raw_id raw
              /\ settings ch = DEFAULT_REFINEMENT /\ processedValues ch = values raw
              /\ visible ch = true /\ mute ch = false /\ solo ch = false.
Proof.
  intros Hin. apply list_elem_of_In, list_elem_of_lookup in Hin as [i Hi].
  rewrite initialStates_lookup in Hi.
  destruct (results !! i) as [raw|] eqn:Hraw; [|discriminate].
  injection Hi as <-. exists raw. cbn. repeat split; try reflexivity.
  apply list_elem_of_In. eapply list_elem_of_lookup_2. exact Hraw.
Qed.

Lemma Forall_In {A} (P : A -> Prop) (l : list A) :
  (forall x, In x l -> P x) -> Forall P l.
Proof.
  intros H. apply Forall_forall. intros x Hx. apply H. now apply list_elem_of_In.
Qed.

Lemma Forall_In_1 {A} (P : A -> Prop) (l : list A) (x : A) :
  Forall P l -> In x l -> P x.
Proof.
  intros H Hx. rewrite Forall_forall in H. apply H. now apply list_elem_of_In.
Qed.

(** Every reachable channel state caches the refinement of some raw track
    with its id, under its current settings. *)
Lemma reachable_refined (rawChannels : list (RawChannelData number))
    (config : AnalysisConfig number) (states : list ChannelState) :
  Forall (fun raw => Forall unit_sample (values raw)) rawChannels ->
  reachable rawChannels config states ->
  Forall (fun ch => exists raw, In raw rawChannels /\ raw_id raw = id ch
            /\ processedValues ch
               = refineChannel (values raw) (settings ch) (bpm config) (fps config))
         states.
Proof.
  intros Hunit H.
  induction H as [|i s prev _ IH|i key prev _ IH].
  - apply Forall_In. intros ch Hch.
    destruct (initialStates_in rawChannels ch Hch)
      as (raw & Hin & Hid & Hs & Hp & _).
    exists raw. split; [exact Hin|]. split; [now symmetry|].
    rewrite Hp, Hs. symmetry. apply refineChannel_default_fixes.
    exact (Forall_In_1 _ _ _ Hunit Hin).
  - unfold updateRefinement. apply Forall_map.
    eapply Forall_impl; [exact IH|]. intros ch Hch. cbn.
    destruct (String.eqb (id ch) i) eqn:Hid; [|exact Hch].
    destruct (find _ rawChannels) as [raw|] eqn:Hfind; [|exact Hch].
    apply find_some_in in Hfind as [Hin Hraw].
    apply String.eqb_eq in Hid, Hraw.
    exists raw. cbn. split; [exact Hin|]. split; [congruence|reflexivity].
  - unfold toggleChannelState. apply Forall_map.
    eapply Forall_impl; [exact IH|]. intros ch Hch. cbn.
    destruct (String.eqb (id ch) i); exact Hch.
Qed.

(** X10.  The cache is coherent.  When the raw channels have distinct ids
    and values in [[0,1]], then in every state the component reaches, each
    channel's cached [processedValues] is exactly what [refineChannel]
    gives on its raw track under its current settings. *)
Theorem reachable_cache_coherent (rawChannels : list (RawChannelData number))
    (config : AnalysisConfig number) (states : list ChannelState) :
  NoDup (map raw_id rawChannels) ->
  Forall (fun raw => Forall unit_sample (values raw)) rawChannels ->
  reachable rawChannels config states ->
  Forall (cache_coherent rawChannels config) states.
Proof.
  intros Hnd Hunit H.
  eapply Forall_impl; [exact (reachable_refined _ _ _ Hunit H)|].
  intros ch (raw0 & Hin0 & Hid0 & Hp) raw Hin Hid.
  now rewrite (raw_id_unique rawChannels raw raw0 Hnd Hin Hin0) by congruence.
Qed.

Lemma reachable_cache_coherent_witness :
  let raws := [ {| raw_id := "energy"; raw_name := "mix Energy"; sourceId := "master";
                   values := [Fin (/ 2); Fin 1; Fin 0]; type := energy_t |} ]%string in
  let cfg := {| fps := Fin 30; bpm := Fin 140; timeSignature := Fin 4 |} in
  Forall (cache_coherent raws cfg)
    (toggleChannelState "energy" key_mute
       (updateRefinement raws cfg "energy" inverted_identity (initialStates raws))).
Proof.
  intros raws cfg. apply reachable_cache_coherent.
  - repeat constructor. intros H. inversion H.
  - constructor; [|constructor]. cbn [values].
    constructor; [|constructor; [|constructor; [|constructor]]].
    + exists (/ 2). split; [reflexivity|]. split; [lra|exact float32_half].
    + exists 1. split; [reflexivity|]. split; [lra|exact float32_1].
    + exists 0. split; [reflexivity|]. split; [lra|exact float32_0].
  - apply reach_toggle, reach_update, reach_init.
Defined.

(** ** The tracks analyzeAudioBuffer returns *)

Lemma list_ascii_of_string_append (a b : string) :
  list_ascii_of_string (a ++ b) = list_ascii_of_string a ++ list_ascii_of_string b.
Proof. induction a as [|c a IH]; cbn; [reflexivity|now rewrite IH]. Qed.

Lemma rstr_append (a b : string) : rstr (a ++ b) = rstr b ++ rstr a.
Proof. unfold rstr. rewrite list_ascii_of_string_append. apply rev_app_distr. Qed.

Lemma rstr_inj (a b : string) : rstr a = rstr b -> a = b.
Proof.
  unfold rstr. intros H. apply (f_equal (@rev _)) in H. rewrite !rev_involutive in H.
  apply (f_equal string_of_list_ascii) in H.
  now rewrite !string_of_list_ascii_of_string in H.
Qed.

Lemma append_inv_l (p a b : string) : (p ++ a = p ++ b)%string -> a = b.
Proof. induction p as [|c p IH]; cbn; [easy|]. intros [= H]. now apply IH. Qed.

Lemma append_inv_r (a b f : string) : (a ++ f = b ++ f)%string -> a = b.
Proof.
  intros H. apply (f_equal rstr) in H. rewrite !rstr_append in H.
  apply app_inv_head in H. now apply rstr_inj.
Qed.

Lemma channels_ids sourceId sourceName t p :
  map raw_id (channels sourceId sourceName t p)
  = map (String.append (id_prefix sourceId sourceName)) feature_names
    ++ (if is_master sourceId then phase_ids else []).
Proof.
  unfold channels, id_prefix. rewrite map_app. f_equal.
  now destruct (is_master sourceId).
Qed.

Lemma NoDup_feature_names : NoDup (feature_names ++ phase_ids).
Proof.
  unfold feature_names, phase_ids. cbn.
  repeat (apply NoDup_cons_2;
          [rewrite ?elem_of_cons, elem_of_nil; intros H;
           repeat (destruct H as [H|H]; [discriminate H|]); exact H|]).
  apply NoDup_nil_2.
Qed.

Lemma NoDup_prefixed (prefix : string) (l : list string) :
  NoDup l -> NoDup (map (String.append prefix) l).
Proof.
  intros H. apply NoDup_fmap_2; [|exact H].
  intros a b. apply append_inv_l.
Qed.

Lemma channels_ids_NoDup sourceId sourceName t p :
  NoDup (map raw_id (channels sourceId sourceName t p)).
Proof.
  rewrite channels_ids. unfold id_prefix.
  destruct (is_master sourceId).
  - change (map (String.append "") feature_names) with feature_names.
    apply NoDup_feature_names.
  - rewrite app_nil_r. apply NoDup_prefixed.
    pose proof NoDup_feature_names as H. now apply NoDup_app in H as [H _].
Qed.

(** X11.  Whatever the source, the configuration and the way the call
    ends (return or exception), the extraction of [services/dsp.ts] leaves
    the sample rate, the duration and every sample of every channel of the
    decoded source as they were. *)
Theorem analyzeAudioBuffer_reads_only (config : AnalysisConfig number)
    (sourceId sourceName : string) (h : heap) :
  buffer (snd (analyzeAudioBuffer config sourceId sourceName h)) = buffer h.
Proof. apply analyzeAudioBuffer_preserves_buffer. Qed.

(** X12.  When [Math.ceil(duration * fps)] is an admissible array length
    [n], the extraction returns nine tracks for the master and seven for a
    stem; each has [n] values and carries the source id it was given; the
    ids are the feature names behind the prefix of the source (none for the
    master, the name and an underscore for a stem), followed for the master
    by the two phase ids; and no two of them are equal. *)
Theorem analyzeAudioBuffer_tracks (config : AnalysisConfig number)
    (sid sourceName : string) (h : heap) (n : nat) :
  (1 <= numberOfChannels (buffer h))%nat ->
  Float32Array_length h (Math_ceil (Float64 (duration (buffer h) * fps config)%num)) = Some n ->
  exists tracks,
    analyzeAudioBuffer config sid sourceName h = (Returns tracks, Nat.iter 9 bump h)
    /\ length tracks = (if is_master sid then 9 else 7)%nat
    /\ Forall (fun c => length (values c) = n /\ sourceId c = sid) tracks
    /\ map raw_id tracks
       = map (String.append (id_prefix sid sourceName)) feature_names
         ++ (if is_master sid then phase_ids else [])
    /\ NoDup (map raw_id tracks).
Proof.
  intros Hn HT.
  destruct (analyzeAudioBuffer_loops config sid sourceName h n Hn HT)
    as (t & p & _ & _ & Hlen & Hp1 & Hp2 & Hrun).
  exists (channels sid sourceName t p). split; [exact Hrun|].
  split; [|split; [|split; [apply channels_ids|apply channels_ids_NoDup]]].
  - unfold channels. rewrite length_app. now destruct (is_master sid).
  - destruct Hlen as (He & Hl & Hm & Hh & Hb & Hw & Htr). unfold channels.
    apply Forall_app. split.
    + repeat constructor; assumption.
    + destruct (is_master sid); repeat constructor; assumption.
Qed.

Lemma analyzeAudioBuffer_tracks_witness :
  exists tracks,
    analyzeAudioBuffer config_30fps "k3x9" "drums" mono_source
      = (Returns tracks, Nat.iter 9 bump mono_source)
    /\ map raw_id tracks
       = [ "drums_energy"; "drums_low"; "drums_mid"; "drums_high";
           "drums_transient"; "drums_brightness"; "drums_width" ]%string.
Proof.
  destruct (analyzeAudioBuffer_tracks config_30fps "k3x9" "drums" mono_source 1)
    as (tracks & Hrun & _ & _ & Hids & _).
  - cbn. lia.
  - apply Float32Array_length_within; [|cbn; lia].
    cbn [mono_source buffer duration config_30fps fps Num.mul].
    apply ToIndex_ceil_Float64_unit. lra.
  - exists tracks. split; [exact Hrun|]. exact Hids.
Defined.

Ltac enumerate_names :=
  repeat match goal with
         | H : In _ (_ :: _) |- _ => destruct H as [<-|H]
         | H : In _ [] |- _ => destruct H
         end.

Lemma stem_id_not_master (n f m : string) :
  In f feature_names -> In m (feature_names ++ phase_ids) ->
  ((n ++ "_") ++ f)%string <> m.
Proof.
  unfold feature_names, phase_ids. cbn [app]. intros Hf Hm Heq.
  apply (f_equal rstr) in Heq. rewrite !rstr_append in Heq.
  enumerate_names; cbn in Heq; discriminate Heq.
Qed.

Lemma stem_ids_differ (n1 n2 f1 f2 : string) :
  In f1 feature_names -> In f2 feature_names ->
  ((n1 ++ "_") ++ f1)%string = ((n2 ++ "_") ++ f2)%string -> n1 = n2 /\ f1 = f2.
Proof.
  unfold feature_names. intros H1 H2 Heq.
  assert (Hr := f_equal rstr Heq). rewrite !rstr_append in Hr.
  enumerate_names; cbn in Hr; try discriminate Hr;
    (split; [|reflexivity]);
    apply append_inv_r in Heq; now apply append_inv_r in Heq.
Qed.

Lemma in_channels_id sourceId sourceName t p (c : RawChannelData number) :
  In c (channels sourceId sourceName t p) ->
  In (raw_id c)
     (map (String.append (id_prefix sourceId sourceName)) feature_names
      ++ (if is_master sourceId then phase_ids else [])).
Proof.
  intros H. rewrite <- (channels_ids sourceId sourceName t p). now apply in_map.
Qed.

(** X13.  Ids across sources.  A track of the master and a track of a stem
    never share an id, and tracks of two stems share an id only if the
    stems have the same name; but two sources analysed as master get the
    same ids, and so do two stems of the same name. *)
Theorem channel_ids_across_sources (n1 n2 sid1 sid2 : string)
    (t1 t2 : tracks) (p1 p2 : list number * list number)
    (a b : RawChannelData number) :
  In a (channels sid1 n1 t1 p1) -> In b (channels sid2 n2 t2 p2) ->
  (is_master sid1 = true -> is_master sid2 = false -> raw_id a <> raw_id b)
  /\ (is_master sid1 = false -> is_master sid2 = false -> n1 <> n2 ->
      raw_id a <> raw_id b)
  /\ (is_master sid1 = is_master sid2 -> (is_master sid1 = false -> n1 = n2) ->
      map raw_id (channels sid1 n1 t1 p1) = map raw_id (channels sid2 n2 t2 p2)).
Proof.
  intros Ha Hb.
  apply in_channels_id in Ha, Hb. unfold id_prefix in Ha, Hb.
  repeat split.
  - intros M1 M2 Heq. rewrite M1 in Ha. rewrite M2, app_nil_r in Hb.
    change (map (String.append "") feature_names) with feature_names in Ha.
    apply in_map_iff in Hb as (f & Hf & Hfin).
    apply (stem_id_not_master n2 f (raw_id a)); [exact Hfin|exact Ha|].
    now rewrite Hf.
  - intros M1 M2 Hn Heq. rewrite M1, app_nil_r in Ha. rewrite M2, app_nil_r in Hb.
    apply in_map_iff in Ha as (f1 & Hf1 & Hin1).
    apply in_map_iff in Hb as (f2 & Hf2 & Hin2).
    apply Hn. apply (stem_ids_differ n1 n2 f1 f2 Hin1 Hin2). congruence.
  - intros HM Hname. rewrite !channels_ids. unfold id_prefix. rewrite <- HM.
    destruct (is_master sid1); [reflexivity|]. now rewrite Hname.
Qed.

Lemma channel_ids_across_sources_witness :
  let a := {| raw_id := "energy"; raw_name := "mix Energy"; sourceId := "master";
              values := ([] : list number); type := energy_t |}%string in
  let b := {| raw_id := "energy_energy"; raw_name := "energy Energy"; sourceId := "k3x9";
              values := ([] : list number); type := energy_t |}%string in
  raw_id a <> raw_id b.
Proof.
  intros a b.
  apply (proj1 (channel_ids_across_sources "mix" "energy" "master" "k3x9"
                  (initial_tracks 0) (initial_tracks 0) ([], []) ([], []) a b
                  (or_introl eq_refl) (or_introl eq_refl))); reflexivity.
Defined.

(** ** The values analyzeAudioBuffer produces *)

(** [1 - 2^-53] is the double next below 1. *)
Lemma float64_below_1 : float64 (1 - pow2 (-53)) = 1 - pow2 (-53).
Proof.
  assert (H : 1 - pow2 (-53) = IZR (2 ^ 53 - 1) * pow2 (-53)).
  { rewrite minus_IZR, <- (pow2_nonneg_exp 53) by lia.
    rewrite Rmult_minus_distr_r, <- pow2_add. change (53 + -53)%Z with 0%Z.
    rewrite pow2_0. lra. }
  rewrite H. apply float64_exact; lia.
Qed.

Lemma Math_floor_below_1 (sr r : R) :
  0 < r -> 0 <= sr <= r * (1 - pow2 (-53)) ->
  Math_floor (Float64 (Fin sr / Fin r)%num) = Fin 0.
Proof.
  intros Hr [H0 H1]. rewrite Fin_div by lra.
  pose proof (pow2_pos (-53)) as Hp.
  assert (Hq0 : 0 <= sr / r) by (apply Rdiv_nonneg; lra).
  assert (Hq1 : sr / r <= 1 - pow2 (-53)).
  { apply Rmult_le_reg_r with r; [lra|]. unfold Rdiv.
    rewrite Rmult_assoc, Rinv_l by lra. lra. }
  pose proof (float64_mono _ _ Hq0) as Ha. rewrite float64_0 in Ha.
  pose proof (float64_mono _ _ Hq1) as Hb. rewrite float64_below_1 in Hb.
  rewrite Float64_small.
  - cbn [Math_floor]. f_equal. change 0 with (IZR 0). f_equal.
    apply Zfloor_eq. cbn. lra.
  - rewrite Rabs_right by lra. apply Rle_trans with 1; [lra|].
    apply IZR_le. cbn. lia.
Qed.

(** X15.  When the frame rate exceeds the sample rate, a frame holds no
    sample and its sums are divided by zero: for a source with a channel
    whose frame count [n = Math.ceil(duration * fps)] is a length its
    arrays can be given, and [0 <= sampleRate <= fps * (1 - 2^-53)] with
    [fps > 0] (the quotient then does not round up to 1), the extraction
    returns, and the energy, low, high, brightness and width tracks are
    [NaN] at every one of their [n] frames. *)
Theorem analyzeAudioBuffer_fps_above_sampleRate (config : AnalysisConfig number)
    (sourceId sourceName : string) (h : heap) (n : nat) (sr r : R) :
  (1 <= numberOfChannels (buffer h))%nat ->
  Float32Array_length h (Math_ceil (Float64 (duration (buffer h) * fps config)%num))
    = Some n ->
  sampleRate (buffer h) = Fin sr -> fps config = Fin r ->
  0 < r -> 0 <= sr <= r * (1 - pow2 (-53)) ->
  exists t p,
    analyzeAudioBuffer config sourceId sourceName h
      = (Returns (channels sourceId sourceName t p), Nat.iter 9 bump h)
    /\ st_energy t = replicate n NaN
    /\ st_low t = replicate n NaN
    /\ st_high t = replicate n NaN
    /\ st_brightness t = replicate n NaN
    /\ st_width t = replicate n NaN.
Proof.
  intros Hn HT Hsr Hfps Hr0 Hr.
  apply analyzeAudioBuffer_empty_frames; [exact Hn|exact HT|].
  rewrite Hsr, Hfps. now apply Math_floor_below_1.
Qed.

Lemma analyzeAudioBuffer_fps_above_sampleRate_witness :
  exists t p,
    analyzeAudioBuffer config_96000fps "k3x9" "drums" stereo_source
      = (Returns (channels "k3x9" "drums" t p), Nat.iter 9 bump stereo_source)
    /\ st_energy t = replicate 2 NaN.
Proof.
  destruct (analyzeAudioBuffer_fps_above_sampleRate config_96000fps "k3x9" "drums"
              stereo_source 2 48000 96000)
    as (t & p & Hrun & He & _); try reflexivity; try lra.
  - cbn. lia.
  - apply Float32Array_length_within; [|cbn; lia].
    cbn [stereo_source buffer duration config_96000fps fps Num.mul].
    apply (ToIndex_ceil_Float64_int _ 2); [lra|lia].
  - pose proof (pow2_le (-53) (-1) ltac:(lia)) as Hp. rewrite pow2_m1 in Hp. lra.
  - now exists t, p.
Defined.

Lemma frame_body_transient l r spf alpha f t h :
  exists t' delta,
    frame_body l r spf alpha f t h = (Returns t', h)
    /\ st_transient t'
       = (if (Fin 0 <? f)%num then aset (st_transient t) f (transient_of delta)
          else st_transient t).
Proof.
  unfold frame_body.
  rewrite (bind_eq (length_of l) _ h _ h eq_refl).
  destruct (sample_loop_run l r alpha (f * spf)%num spf
              (INR (length (samples (buffer h) l)))
              {| sumSq := Fin 0; sumLow := Fin 0; sumHigh := Fin 0; sumDiff := Fin 0;
                 localMax := Fin 0; sums_lpState := st_lpState t |} h) as [a Ha].
  rewrite (bind_eq _ _ h a h Ha).
  eexists. eexists. split; [reflexivity|]. cbn [st_transient]. reflexivity.
Qed.

Lemma index_of_positive (f : number) (k : nat) :
  (Fin 0 <? f)%num = true -> index_of f = Some k -> k <> 0%nat.
Proof.
  destruct f as [x| | |]; cbn; try discriminate.
  destruct (Rlt_dec 0 x) as [Hx|]; [|discriminate]. intros _.
  destruct (Rle_dec 0 x); [|discriminate].
  destruct (Req_dec_T x (IZR (Zfloor x))) as [Heq|]; [|discriminate].
  intros [= <-]. rewrite Heq in Hx. apply lt_IZR in Hx. lia.
Qed.

Lemma transient_ok_step (tr : list number) (f delta : number) :
  transient_ok tr ->
  transient_ok (if (Fin 0 <? f)%num then aset tr f (transient_of delta) else tr).
Proof.
  intros [Hu H0]. destruct (Fin 0 <? f)%num eqn:Hf; [|now split].
  split.
  - apply Forall_aset; [exact Hu|apply ToFloat32_unit_value, transient_unit].
  - unfold aset. destruct (index_of f) as [k|] eqn:Hk; [|exact H0].
    intros x. rewrite list_lookup_insert_ne; [apply H0|].
    exact (index_of_positive f k Hf Hk).
Qed.

(** X16.  The transient track is in range on every source, even where the
    energy it is derived from is not a number, and it starts at 0: whenever
    the extraction returns, every value of the transient track (the fifth,
    "Punch") is a finite number of [[0,1]] and the value of frame 0 is 0. *)
Theorem analyzeAudioBuffer_transient (config : AnalysisConfig number)
    (sid sourceName : string) (h : heap) (n : nat) :
  (1 <= numberOfChannels (buffer h))%nat ->
  Float32Array_length h (Math_ceil (Float64 (duration (buffer h) * fps config)%num)) = Some n ->
  exists tracks tr,
    analyzeAudioBuffer config sid sourceName h = (Returns tracks, Nat.iter 9 bump h)
    /\ tracks !! 4%nat = Some tr
    /\ raw_id tr = (id_prefix sid sourceName ++ "transient")%string
    /\ length (values tr) = n
    /\ Forall unit_value (values tr)
    /\ (forall x, values tr !! 0%nat = Some x -> x = Fin 0).
Proof.
  intros Hn HT.
  destruct (analyzeAudioBuffer_loops config sid sourceName h n Hn HT)
    as (t & p & Ht & _ & Hlen & _ & _ & Hrun).
  eexists. eexists. split; [exact Hrun|]. split; [reflexivity|].
  split; [reflexivity|]. cbn [values].
  split; [now destruct Hlen as (_ & _ & _ & _ & _ & _ & Htr)|].
  destruct (forM_returns (fun t => transient_ok (st_transient t)) (fun _ => True)
              (frame_body 0 (right_channel (buffer h))
                 (Math_floor (Float64 (sampleRate (buffer h) / fps config)%num)) (Fin 0.15))
              (Nat.iter 7 bump h) (frame_numbers n))
    with (s := initial_tracks n) as (t' & Ht' & Hok).
  - now apply Forall_forall.
  - intros f s _ Hs.
    destruct (frame_body_transient 0 (right_channel (buffer h))
                (Math_floor (Float64 (sampleRate (buffer h) / fps config)%num)) (Fin 0.15)
                f s (Nat.iter 7 bump h)) as (s' & delta & Hrun' & Htr).
    exists s'. split; [exact Hrun'|]. rewrite Htr. now apply transient_ok_step.
  - cbn. split; [apply Forall_replicate, unit_value_0|].
    intros x Hx. apply lookup_replicate in Hx. now destruct Hx.
  - rewrite Ht in Ht'. injection Ht' as <-. exact Hok.
Qed.

Lemma analyzeAudioBuffer_transient_witness :
  exists tracks tr,
    analyzeAudioBuffer config_96000fps "master" "mix" mono_source
      = (Returns tracks, Nat.iter 9 bump mono_source)
    /\ tracks !! 4%nat = Some tr
    /\ Forall unit_value (values tr).
Proof.
  destruct (analyzeAudioBuffer_transient config_96000fps "master" "mix" mono_source 2)
    as (tracks & tr & Hrun & Htr & _ & _ & Hunit & _).
  - cbn. lia.
  - apply Float32Array_length_within; [|cbn; lia].
    cbn [mono_source buffer duration config_96000fps fps Num.mul].
    apply (ToIndex_ceil_Float64_int _ 2); [lra|lia].
  - now exists tracks, tr.
Defined.

(** ** The mix-down of unnamed/part_001 *)

Lemma mix_body_step (Rr rest : list (list number)) (A R1 : list number)
    (j : nat) (h : heap) :
  channelData (buffer h) = A :: R1 :: rest ->
  Part001.mix_body 0 1 (Fin (0 + INR j)) tt h
  = (Returns tt, with_channels (mix_step R1 A j :: R1 :: rest) h).
Proof.
  intros Hc. rewrite mix_body_run. unfold store, with_channels, samples.
  rewrite Hc. cbn [lookup list_lookup default]. unfold aget, aset.
  rewrite index_of_nat. reflexivity.
Qed.

Lemma with_channels_twice cs cs' h :
  with_channels cs (with_channels cs' h) = with_channels cs h.
Proof. reflexivity. Qed.

Lemma mix_loop (rest : list (list number)) (R1 : list number) (l : list nat) :
  forall (A : list number) (h : heap),
    channelData (buffer h) = A :: R1 :: rest ->
    forM (map (fun k => Fin (0 + INR k)) l) (Part001.mix_body 0 1) tt h
    = (Returns tt, with_channels (fold_left (mix_step R1) l A :: R1 :: rest) h).
Proof.
  induction l as [|j l IH]; intros A h Hc; cbn [map forM fold_left].
  - unfold ret, with_channels. rewrite <- Hc. now destruct h as [[? ? ?] ? ?].
  - rewrite (bind_eq _ _ h tt _ (mix_body_step rest rest A R1 j h Hc)).
    rewrite (IH (mix_step R1 A j)) by reflexivity.
    reflexivity.
Qed.

Lemma mix_steps_lookup (L R1 : list number) (m : nat) :
  forall (j : nat) (A : list number),
    (forall i, A !! i
               = if (i <? j)%nat
                 then (fun x => ToFloat32
                             (Float64 (Float64 (x + default NaN (R1 !! i))%num
                                       / Fin 2)%num)) <$> L !! i
                 else L !! i) ->
    forall i, fold_left (mix_step R1) (seq j m) A !! i
              = if (i <? j + m)%nat
                then (fun x => ToFloat32
                             (Float64 (Float64 (x + default NaN (R1 !! i))%num
                                       / Fin 2)%num)) <$> L !! i
                else L !! i.
Proof.
  induction m as [|m IH]; intros j A HA i; cbn [seq fold_left].
  - rewrite Nat.add_0_r. apply HA.
  - replace (j + S m)%nat with (S j + m)%nat by lia. apply IH. clear i.
    intros i. unfold mix_step.
    destruct (Nat.eq_dec i j) as [->|Hne].
    + rewrite (proj2 (Nat.ltb_lt j (S j))) by lia.
      pose proof (HA j) as Hj. rewrite Nat.ltb_irrefl in Hj.
      destruct (L !! j) as [x|] eqn:HL.
      * rewrite list_lookup_insert_eq by (eapply lookup_lt_Some; exact Hj).
        rewrite Hj. reflexivity.
      * rewrite list_insert_ge by (now apply lookup_ge_None_1). exact Hj.
    + rewrite list_lookup_insert_ne by congruence. rewrite HA.
      destruct (i <? j)%nat eqn:E1, (i <? S j)%nat eqn:E2; try reflexivity.
      * apply Nat.ltb_lt in E1. apply Nat.ltb_ge in E2. lia.
      * apply Nat.ltb_ge in E1. apply Nat.ltb_lt in E2. lia.
Qed.

Lemma mix_steps_all (L R1 : list number) :
  fold_left (mix_step R1) (seq 0 (length L)) L = mixdown L R1.
Proof.
  apply list_eq. intros i.
  rewrite (mix_steps_lookup L R1 (length L) 0 L) by (intros k; reflexivity).
  unfold mixdown. rewrite list_lookup_imap. cbn [Nat.add].
  destruct (i <? length L)%nat eqn:E; [reflexivity|].
  apply Nat.ltb_ge in E. now rewrite (lookup_ge_None_2 L i E).
Qed.

(** X18.  What the extraction of [unnamed/part_001] does to the decoded
    source, on every source and however the call ends: a source with two or
    more channels gets, in channel 0, the float32 of the sample-by-sample
    mean of channels 0 and 1, the mean as the doubles compute it, and keeps
    its other channels, sample rate and duration; a source with fewer
    channels is left as it was. *)
Theorem Part001_analyzeAudioBuffer_buffer_effect (config : AnalysisConfig number)
    (sourceId sourceName : string) (h : heap) :
  buffer (snd (Part001.analyzeAudioBuffer config sourceId sourceName h))
  = match channelData (buffer h) with
    | L :: R1 :: rest =>
        {| sampleRate := sampleRate (buffer h); duration := duration (buffer h);
           channelData := mixdown L R1 :: R1 :: rest |}
    | _ => buffer h
    end.
Proof.
  destruct h as [[sr d cs] al lim]. cbn [buffer channelData sampleRate duration].
  unfold Part001.analyzeAudioBuffer.
  destruct cs as [|L [|R1 rest]].
  - reflexivity.
  - set (h := {| buffer := {| sampleRate := sr; duration := d; channelData := [L] |};
                 allocated := al; limit := lim |}).
    rewrite (bind_eq (getChannelData 0) _ h 0%nat h eq_refl).
    rewrite (bind_eq get_numberOfChannels _ h 1%nat h eq_refl).
    rewrite bind_buffer_after by (intros; preserves). reflexivity.
  - set (h := {| buffer := {| sampleRate := sr; duration := d;
                              channelData := L :: R1 :: rest |};
                 allocated := al; limit := lim |}).
    rewrite (bind_eq (getChannelData 0) _ h 0%nat h eq_refl).
    rewrite (bind_eq get_numberOfChannels _ h (S (S (length rest))) h eq_refl).
    rewrite bind_buffer_after by (intros; preserves).
    cbn [Nat.ltb Nat.leb].
    rewrite (bind_eq (getChannelData 1) _ h 1%nat h eq_refl).
    rewrite (bind_eq (length_of 0) _ h (Fin (INR (length L))) h eq_refl).
    unfold for_range. rewrite loop_plan_from_0.
    rewrite (mix_loop rest R1 (seq 0 (length L)) L h) by reflexivity.
    cbn [snd with_channels buffer sampleRate duration h].
    now rewrite mix_steps_all.
Qed.

(** The mean is stored as a float32: the float32 nearest to 0.3 and the
    float32 nearest to 0.2 leave 0.25 in channel 0. *)
Lemma mixdown_rounds :
  mixdown [Fin (10066330 / 33554432)] [Fin (13421773 / 67108864)] = [Fin (/ 4)].
Proof.
  unfold mixdown. cbn.
  assert (Hp : pow2 (-26) = / 67108864).
  { change (-26)%Z with (- (26))%Z. now rewrite pow2_inv by lia. }
  assert (Hs : 10066330 / 33554432 + 13421773 / 67108864 = IZR 33554433 * pow2 (-26))
    by (rewrite Hp; lra).
  rewrite Hs, Float64_small, float64_exact; [|cbn; lia|lia|].
  - cbn [Num.div]. destruct (Req_dec_T 2 0); [lra|].
    assert (Hq : pow2 (-27) = / 134217728).
    { change (-27)%Z with (- (27))%Z. now rewrite pow2_inv by lia. }
    replace (IZR 33554433 * pow2 (-26) / 2) with (IZR 33554433 * pow2 (-27))
      by (rewrite Hp, Hq; lra).
    rewrite Float64_small, float64_exact; [|cbn; lia|lia|].
    + rewrite ToFloat32_Fin.
      * replace (IZR 33554433 * pow2 (-27))
          with ((10066330 / 33554432 + 13421773 / 67108864) / 2) by (rewrite Hq; lra).
        now rewrite float32_mean_quarter.
      * pose proof pow2_127_large. rewrite Hq, Rabs_pos_eq; lra.
    + rewrite Hq, Rabs_pos_eq by lra. apply Rle_trans with 1; [lra|].
      apply IZR_le. cbn. lia.
  - rewrite Hp, Rabs_pos_eq by lra. apply Rle_trans with 1; [lra|].
    apply IZR_le. cbn. lia.
Qed.

(** ** Importing files *)

Lemma handleFileUpload_roles (files : list AudioFile)
    (picked : option (list (string * string))) :
  exists added,
    handleFileUpload files picked = files ++ added
    /\ Forall (fun f => file_type f = (if (length files =? 0)%nat then master else stem))
              added
    /\ length added = match picked with Some l => length l | None => 0%nat end.
Proof.
  destruct picked as [l|]; cbn.
  - eexists. split; [reflexivity|]. split.
    + apply Forall_fmap, Forall_forall. now intros [rid nm] _.
    + apply length_map.
  - exists []. rewrite app_nil_r. repeat split. constructor.
Qed.

(** X19.  Roles of imported files.  One call tags all the files it adds
    alike: master when no file was held before, stem otherwise, and it keeps
    the files already held.  So the list is always some masters followed by
    stems, with a master first whenever it is not empty; and a first
    selection of several files makes them all masters. *)
Theorem uploaded_roles (files : list AudioFile) :
  uploaded files ->
  (exists k m, map file_type files = replicate k master ++ replicate m stem
               /\ (files <> [] -> (1 <= k)%nat))
  /\ (forall l, map file_type (handleFileUpload [] (Some l))
                = replicate (length l) master).
Proof.
  intros H. split.
  - induction H as [|files picked _ (k & m & Hty & Hk)].
    + exists 0%nat, 0%nat. split; [reflexivity|]. now intros [].
    + destruct (handleFileUpload_roles files picked) as (added & -> & Hroles & _).
      rewrite map_app, Hty.
      destruct files as [|f files].
      * exists (length added), 0%nat.
        destruct k; [|discriminate]. destruct m; [|discriminate]. cbn.
        rewrite app_nil_r. split.
        -- clear -Hroles. induction Hroles as [|a added Ha _ IH]; cbn; [reflexivity|].
           cbn in Ha. now rewrite Ha, IH.
        -- destruct added; [now intros []|cbn; lia].
      * exists k, (m + length added)%nat. split.
        -- rewrite replicate_add, app_assoc. f_equal.
           clear -Hroles. induction Hroles as [|a added Ha _ IH]; cbn; [reflexivity|].
           cbn in Ha. now rewrite Ha, IH.
        -- intros _. now apply Hk.
  - intros l. cbn. rewrite map_map. cbn.
    induction l as [|[rid nm] l IH]; cbn; [reflexivity|now rewrite IH].
Qed.

Lemma uploaded_roles_witness :
  let files :=
    handleFileUpload (handleFileUpload [] (Some [("a1", "mix.wav"); ("b2", "drums.wav")]%string))
      (Some [("c3", "bass.wav")]%string) in
  exists k m, map file_type files = replicate k master ++ replicate m stem
              /\ (files <> [] -> (1 <= k)%nat).
Proof.
  exact (proj1 (uploaded_roles _
           (uploaded_more _ (Some [("c3", "bass.wav")]%string)
              (uploaded_more _ (Some [("a1", "mix.wav"); ("b2", "drums.wav")]%string)
                 uploaded_none)))).
Defined.

(** ** Exporting *)















Lemma reachable_ids rawChannels config states :
  reachable rawChannels config states -> map id states = map raw_id rawChannels.
Proof.
  induction 1 as [|i s prev _ IH|i key prev _ IH].
  - apply initialStates_ids.
  - now rewrite updateRefinement_ids.
  - now rewrite toggleChannelState_ids.
Qed.

Lemma find_unique {A} (f : A -> string) (l : list A) (x : A) :
  NoDup (map f l) -> In x l ->
  find (fun y => String.eqb (f y) (f x)) l = Some x.
Proof.
  induction l as [|y l IH]; cbn [map find In]; intros Hnd Hin; [easy|].
  apply NoDup_cons in Hnd as [Hy Hnd].
  destruct Hin as [->|Hin].
  - now rewrite String.eqb_refl.
  - destruct (String.eqb (f y) (f x)) eqn:E; [|now apply IH].
    apply String.eqb_eq in E. exfalso. apply Hy. rewrite E.
    apply list_elem_of_In, in_map, Hin.
Qed.



(** ** The zoom of the timeline *)

Lemma strict_eq_refl (a : option number) :
  Timeline.strict_eq a a = false -> a = Some NaN.
Proof.
  destruct a as [[r| | |]|]; cbn; try discriminate; [|reflexivity].
  now destruct (Req_dec_T r r).
Qed.

Lemma zoom_cases (st : Timeline.State) :
  Timeline.refAreaLeft (Timeline.zoom st) = None
  /\ Timeline.refAreaRight (Timeline.zoom st) = None
  /\ ((Timeline.left (Timeline.zoom st) = Timeline.left st
       /\ Timeline.right (Timeline.zoom st) = Timeline.right st)
      \/ (Timeline.refAreaLeft st = Some NaN
          /\ Timeline.left (Timeline.zoom st) = NaN
          /\ Timeline.refAreaRight st = Some (Timeline.right (Timeline.zoom st)))).
Proof.
  unfold Timeline.zoom.
  destruct (Timeline.strict_eq (Timeline.refAreaLeft st) (Timeline.refAreaLeft st)) eqn:E;
    cbn [orb]; [cbn; auto|].
  apply strict_eq_refl in E. rewrite E.
  destruct (Timeline.refAreaRight st) as [r|] eqn:Er; cbn [Timeline.strict_eq]; [|cbn; auto].
  assert (Hlt : Num.ltb r NaN = false) by now destruct r.
  rewrite Hlt.
  assert (Hsub : Num.ltb (Num.sub r NaN) (Fin 0.1) = false) by now destruct r.
  rewrite Hsub. cbn. split; [reflexivity|]. split; [reflexivity|]. right.
  repeat split; reflexivity.
Qed.

Lemma handle_left (duration : number) (ev : Timeline.Event) (st : Timeline.State) :
  Timeline.left st = Fin 0 \/ Timeline.left st = NaN ->
  Timeline.left (Timeline.handle duration ev st) = Fin 0
  \/ Timeline.left (Timeline.handle duration ev st) = NaN.
Proof.
  intros H. destruct ev as [[label|]|[label|]| |]; cbn [Timeline.handle]; try exact H.
  - destruct (Timeline.refAreaLeft st) as [l|]; [|exact H].
    destruct (truthy l); exact H.
  - destruct (zoom_cases st) as (_ & _ & [[-> _]|(_ & -> & _)]); [exact H|now right].
  - now left.
Qed.

Lemma handle_range (duration : number) (ev : Timeline.Event) (st : Timeline.State) :
  presses_number ev ->
  Timeline.left st = Fin 0 /\ Timeline.right st = duration
    /\ Timeline.refAreaLeft st <> Some NaN ->
  Timeline.left (Timeline.handle duration ev st) = Fin 0
  /\ Timeline.right (Timeline.handle duration ev st) = duration
  /\ Timeline.refAreaLeft (Timeline.handle duration ev st) <> Some NaN.
Proof.
  intros Hev (Hl & Hr & Hn).
  destruct ev as [[label|]|[label|]| |]; cbn [Timeline.handle]; auto.
  - cbn. split; [exact Hl|]. split; [exact Hr|]. intros [= ->]. exact Hev.
  - destruct (Timeline.refAreaLeft st) as [l|] eqn:El.
    2:{ rewrite ?El; auto. }
    destruct (truthy l); cbn; rewrite ?El; auto.
  - destruct (zoom_cases st) as (E1 & _ & [[-> ->]|(E & _)]); [|contradiction].
    rewrite E1. repeat split; auto.
Qed.

(** X22.  The zoom of the timeline never zooms.  Whatever the user does
    on the chart, the left end of the visible range is [0] or [NaN]; and
    as long as no press lands on a label that is not a number, the range
    stays the full one, from [0] to [duration]: releasing the mouse drops
    the selection instead of applying it. *)
Theorem Timeline_zoom_keeps_range (duration : number) (events : list Timeline.Event) :
  let st := Timeline.run duration events (Timeline.initial duration) in
  (Timeline.left st = Fin 0 \/ Timeline.left st = NaN)
  /\ (Forall presses_number events ->
      Timeline.left st = Fin 0 /\ Timeline.right st = duration).
Proof.
  cbv zeta. unfold Timeline.run. split.
  - assert (H0 : Timeline.left (Timeline.initial duration) = Fin 0
                 \/ Timeline.left (Timeline.initial duration) = NaN) by now left.
    revert H0. generalize (Timeline.initial duration).
    induction events as [|ev events IH]; intros st H; cbn [fold_left]; [exact H|].
    apply IH. now apply handle_left.
  - intros Hev.
    assert (H0 : Timeline.left (Timeline.initial duration) = Fin 0
                 /\ Timeline.right (Timeline.initial duration) = duration
                 /\ Timeline.refAreaLeft (Timeline.initial duration) <> Some NaN)
      by (cbn; repeat split; discriminate).
    revert H0. generalize (Timeline.initial duration).
    induction Hev as [|ev events Hx _ IH]; intros st H; cbn [fold_left].
    + destruct H as (Hl & Hr & _). now split.
    + apply IH. now apply handle_range.
Qed.

Lemma Timeline_zoom_keeps_range_witness :
  let st := Timeline.run (Fin 180)
              [Timeline.MouseDown (Some (Fin 12)); Timeline.MouseMove (Some (Fin 40));
               Timeline.MouseUp]
              (Timeline.initial (Fin 180)) in
  Timeline.left st = Fin 0 /\ Timeline.right st = Fin 180.
Proof.
  apply (proj2 (Timeline_zoom_keeps_range (Fin 180)
           [Timeline.MouseDown (Some (Fin 12)); Timeline.MouseMove (Some (Fin 40));
            Timeline.MouseUp])).
  repeat constructor.
Defined.

(** ** The playback cursor *)








(** ** The signal preview *)

(** A read inside the bounds gives an element of the array. *)
Lemma aget_Forall (P : number -> Prop) (a : list number) (f : number) :
  Forall P a -> (Fin 0 <=? f)%num = true -> (f <? Fin (INR (length a)))%num = true ->
  (exists z, f = Fin (IZR z)) -> P (aget a f).
Proof.
  intros H H0 H1 [z ->]. cbn in H0, H1.
  destruct (Rle_dec 0 (IZR z)) as [Hz|]; [|discriminate].
  destruct (Rlt_dec (IZR z) (INR (length a))) as [Hlt|]; [|discriminate].
  apply le_IZR in Hz. rewrite INR_IZR_INZ in Hlt. apply lt_IZR in Hlt.
  unfold aget, index_of. rewrite ZfloorZ.
  destruct (Rle_dec 0 (IZR z)) as [_|Hn]; [|exfalso; apply Hn, (IZR_le 0); lia].
  destruct (Req_dec_T (IZR z) (IZR z)) as [_|Hn]; [|now exfalso].
  destruct (lookup_lt_is_Some_2 a (Z.to_nat z)) as [x Hx]; [lia|].
  rewrite Hx. cbn. exact (Forall_lookup_1 _ _ _ _ H Hx).
Qed.

Lemma Math_floor_integer (x f : number) :
  Math_floor x = f -> (Fin 0 <=? f)%num = true ->
  (exists n : nat, (f <? Fin (INR n))%num = true) -> exists z, f = Fin (IZR z).
Proof.
  intros <- H0 [n Hn]. destruct x as [r| | |]; cbn in *; try discriminate.
  now exists (Zfloor r).
Qed.

(** X24.  The signal preview shows the refined raw track.  With distinct
    raw ids and raw tracks of float32 numbers of [[0,1]], in every state
    the component reaches and for a selected id that is not empty and names
    a raw channel: the previewed value is the output of [refineChannel] on
    that raw track, under the current settings of the channel, at the frame
    [Math.floor(currentTime * fps)], the product being the double that the
    multiplication returns, and [0] when that frame is outside the track or
    not a number; with [clip] set and valid settings it is a finite number
    of [[0,1]]. *)
Theorem currentSignalValue_refined (rawChannels : list (RawChannelData number))
    (config : AnalysisConfig number) (states : list ChannelState)
    (raw : RawChannelData number) (t : number) :
  NoDup (map raw_id rawChannels) ->
  Forall (fun raw => Forall unit_sample (values raw)) rawChannels ->
  reachable rawChannels config states ->
  In raw rawChannels -> raw_id raw <> ""%string ->
  exists ch,
    In ch states /\ id ch = raw_id raw
    /\ currentSignalValue (Some (raw_id raw)) t states config
       = (let frame := Math_floor (Float64 (t * fps config)%num) in
          if ((Fin 0 <=? frame)%num
              && (frame <? Fin (INR (length (values raw))))%num)%bool
          then aget (refineChannel (values raw) (settings ch) (bpm config) (fps config))
                    frame
          else Fin 0)
    /\ (clip (settings ch) = true -> valid_settings (settings ch) ->
        unit_value (currentSignalValue (Some (raw_id raw)) t states config)).
Proof.
  intros Hnd Hunit Hreach Hin Hne.
  pose proof (reachable_ids _ _ _ Hreach) as Hids.
  assert (Hsel : In (raw_id raw) (map id states)).
  { rewrite Hids. now apply in_map. }
  apply in_map_iff in Hsel as (ch & Hid & Hch).
  exists ch. split; [exact Hch|]. split; [exact Hid|].
  assert (Hfind : find (fun c => String.eqb (id c) (raw_id raw)) states = Some ch).
  { rewrite <- Hid. apply find_unique; [now rewrite Hids|exact Hch]. }
  pose proof (Forall_In_1 _ _ _ (reachable_refined _ _ _ Hunit Hreach) Hch)
    as (raw' & Hin' & Hid' & Hp).
  assert (raw' = raw) as ->.
  { apply (raw_id_unique rawChannels raw' raw Hnd Hin' Hin). congruence. }
  assert (Hval : currentSignalValue (Some (raw_id raw)) t states config
       = (let frame := Math_floor (Float64 (t * fps config)%num) in
          if ((Fin 0 <=? frame)%num
              && (frame <? Fin (INR (length (values raw))))%num)%bool
          then aget (refineChannel (values raw) (settings ch) (bpm config) (fps config))
                    frame
          else Fin 0)).
  { unfold currentSignalValue.
    rewrite (proj2 (String.eqb_neq _ _) Hne), Hfind, Hp, refineChannel_length.
    reflexivity. }
  split; [exact Hval|].
  intros Hclip Hsm. rewrite Hval. cbv zeta.
  destruct ((Fin 0 <=? Math_floor (Float64 (t * fps config)%num))%num
            && (Math_floor (Float64 (t * fps config)%num)
                <? Fin (INR (length (values raw))))%num)%bool eqn:E;
    [|apply unit_value_0].
  apply andb_prop in E as [E1 E2].
  destruct (unit_samples_finite (values raw) (Forall_In_1 _ _ _ Hunit Hin))
    as (xs & Hxs & Hfl).
  apply aget_Forall.
  - rewrite Hxs. apply refineChannel_clip_unit;
      [exact Hclip| |now apply valid_bounded|].
    { destruct Hsm as (_ & _ & Hs & _). pose proof (pow2_ge_1 1024 ltac:(lia)). lra. }
    eapply Forall_impl; [exact (unit_samples_float32 xs Hfl)|].
    intros x. apply float32_value_bounded.
  - exact E1.
  - now rewrite refineChannel_length.
  - apply (Math_floor_integer (Float64 (t * fps config)%num)); [reflexivity|exact E1|].
    now exists (length (values raw)).
Qed.

Lemma currentSignalValue_refined_witness :
  let raw := {| raw_id := "energy"; raw_name := "mix Energy"; sourceId := "master";
                values := [Fin (/ 2); Fin 1; Fin 0]; type := energy_t |}%string in
  let cfg := {| fps := Fin 30; bpm := Fin 140; timeSignature := Fin 4 |} in
  let states := updateRefinement [raw] cfg "energy" inverted_identity (initialStates [raw]) in
  exists ch,
    In ch states /\ id ch = raw_id raw
    /\ currentSignalValue (Some (raw_id raw)) (Fin (/ 16)) states cfg
       = (let frame := Math_floor (Float64 (Fin (/ 16) * fps cfg)%num) in
          if ((Fin 0 <=? frame)%num
              && (frame <? Fin (INR (length (values raw))))%num)%bool
          then aget (refineChannel (values raw) (settings ch) (bpm cfg) (fps cfg)) frame
          else Fin 0)
    /\ (clip (settings ch) = true -> valid_settings (settings ch) ->
        unit_value (currentSignalValue (Some (raw_id raw)) (Fin (/ 16)) states cfg)).
Proof.
  intros raw cfg states.
  apply (currentSignalValue_refined [raw] cfg states raw (Fin (/ 16))).
  - repeat constructor. intros H. inversion H.
  - constructor; [|constructor]. cbn [values raw].
    constructor; [|constructor; [|constructor; [|constructor]]].
    + exists (/ 2). split; [reflexivity|]. split; [lra|exact float32_half].
    + exists 1. split; [reflexivity|]. split; [lra|exact float32_1].
    + exists 0. split; [reflexivity|]. split; [lra|exact float32_0].
  - apply reach_update, reach_init.
  - now left.
  - discriminate.
Defined.

(** The frame is taken from the rounded product: at the double nearest to
    0.7 and 30 frames per second the product is below 21, and the frame
    that is previewed is 21. *)
Lemma preview_frame_rounds :
  6305039478318694 / 9007199254740992 * 30 < 21
  /\ Math_floor (Float64 (Fin (6305039478318694 / 9007199254740992) * Fin 30)%num)
     = Fin 21.
Proof.
  split; [lra|]. cbn [Num.mul].
  rewrite Float64_small, float64_product_21.
  - cbn [Math_floor]. change 21 with (IZR 21). now rewrite ZfloorZ.
  - rewrite Rabs_pos_eq by lra. apply Rle_trans with 21; [lra|].
    apply IZR_le. cbn. lia.
Qed.

(** ** The chart data *)

Lemma entry_fold_hasVisible (chs : list ChannelState) (i : number) :
  forall (entry : Timeline.Entry) (b : bool),
    snd (fold_left
           (fun '(entry, hasVisible) ch =>
              if visible ch
              then (obj_set entry (id ch) (Timeline.read (processedValues ch) i), true)
              else (entry, hasVisible))
           chs (entry, b))
    = b || existsb visible chs.
Proof.
  induction chs as [|ch chs IH]; intros entry b; cbn [fold_left existsb].
  - now rewrite orb_false_r.
  - destruct (visible ch); rewrite IH; cbn; [now rewrite orb_true_r|reflexivity].
Qed.

Lemma entry_of_hasVisible (chs : list ChannelState) (T d i : number) :
  snd (Timeline.entry_of chs T d i) = existsb visible chs.
Proof. unfold Timeline.entry_of. now rewrite entry_fold_hasVisible. Qed.

Lemma sampled_frames_nil (i stop step : Z) :
  (1 <= step)%Z -> (stop <= i)%Z -> sampled_frames i stop step = [].
Proof.
  intros Hs Hi. unfold sampled_frames.
  assert (((stop - i + step - 1) / step < 1)%Z) by (apply Z.div_lt_upper_bound; lia).
  replace (Z.to_nat _) with 0%nat by lia. reflexivity.
Qed.

Lemma sampled_frames_cons (i stop step : Z) :
  (1 <= step)%Z -> (i < stop)%Z ->
  sampled_frames i stop step = i :: sampled_frames (i + step) stop step.
Proof.
  intros Hs Hi. unfold sampled_frames.
  replace (stop - (i + step) + step - 1)%Z with (stop - i + step - 1 + (-1) * step)%Z by lia.
  rewrite Z.div_add by lia.
  assert ((1 <= (stop - i + step - 1) / step)%Z) by (apply Z.div_le_lower_bound; lia).
  replace (Z.to_nat ((stop - i + step - 1) / step))
    with (S (Z.to_nat ((stop - i + step - 1) / step + -1))) by lia.
  cbn [seq map]. f_equal; [lia|].
  rewrite <- seq_shift, map_map. apply map_ext. intros k. lia.
Qed.

Lemma sampled_frames_range (start stop step : Z) :
  (1 <= step)%Z -> Forall (fun i => (start <= i < stop)%Z) (sampled_frames start stop step).
Proof.
  intros Hs. unfold sampled_frames. apply Forall_map, Forall_forall.
  intros k Hk. apply elem_of_seq in Hk. cbn.
  assert (Z.of_nat k < (stop - start + step - 1) / step)%Z by lia.
  assert (step * ((stop - start + step - 1) / step) <= stop - start + step - 1)%Z
    by (apply Z.mul_div_le; lia).
  nia.
Qed.

Lemma downsample_loop_finite (chs : list ChannelState) (T : nat) (d : number)
    (e step : Z) :
  (1 <= step)%Z -> (Z.of_nat T + step < 2 ^ 53)%Z ->
  forall (fuel : nat) (i : Z) (data : list Timeline.Entry),
    (0 <= i)%Z ->
    (Z.to_nat (Z.min e (Z.of_nat T) - i) < fuel)%nat ->
    Timeline.downsample_loop fuel chs (Fin (INR T)) d (Fin (IZR e)) (Fin (IZR step))
      (Fin (IZR i)) data
    = Some (data ++
            if existsb visible chs
            then map (fun j => fst (Timeline.entry_of chs (Fin (INR T)) d (Fin (IZR j))))
                     (sampled_frames i (Z.min e (Z.of_nat T)) step)
            else []).
Proof.
  intros Hs HT. induction fuel as [|fuel IH]; intros i data Hi0 Hfuel; [lia|].
  cbn [Timeline.downsample_loop Num.ltb Num.leb].
  rewrite (INR_IZR_INZ T).
  destruct (Rlt_dec (IZR i) (IZR e)) as [Hie|Hie].
  - apply lt_IZR in Hie.
    destruct (Rle_dec (IZR (Z.of_nat T)) (IZR i)) as [HiT|HiT].
    + apply le_IZR in HiT. rewrite sampled_frames_nil by lia.
      destruct (existsb visible chs); now rewrite app_nil_r.
    + assert (i < Z.of_nat T)%Z.
      { destruct (Z_lt_le_dec i (Z.of_nat T)) as [|Hge]; [assumption|].
        exfalso. apply HiT. now apply IZR_le. }
      rewrite <- (INR_IZR_INZ T).
      pose proof (entry_of_hasVisible chs (Fin (INR T)) d (Fin (IZR i))) as Hv.
      destruct (Timeline.entry_of chs (Fin (INR T)) d (Fin (IZR i))) as [entry hasVisible] eqn:E.
      cbn [snd] in Hv. subst hasVisible.
      cbn [Num.add]. rewrite <- plus_IZR, Float64_int by lia.
      rewrite IH by lia.
      rewrite (sampled_frames_cons i) by lia.
      destruct (existsb visible chs); [|reflexivity].
      cbn [map]. rewrite E. cbn [fst]. now rewrite <- app_assoc.
  - assert (e <= i)%Z.
    { destruct (Z_lt_le_dec i e) as [Hlt|]; [|assumption].
      exfalso. apply Hie. now apply IZR_lt. }
    rewrite sampled_frames_nil by lia.
    destruct (existsb visible chs); now rewrite app_nil_r.
Qed.

Lemma sampled_frames_count (start stop e q : Z) (p : R) :
  0 < p -> (stop <= e)%Z -> IZR (e - start) < (IZR q + 1) * p ->
  let step := if Rlt_dec 1 (IZR q) then q else 1%Z in
  (1 <= step)%Z /\ INR (length (sampled_frames start stop step)) < 2 * p + 1.
Proof.
  intros Hp Hstop HS step.
  assert (Hstep : (1 <= step)%Z).
  { unfold step. destruct (Rlt_dec 1 (IZR q)) as [Hq|_]; [|lia].
    apply lt_IZR in Hq. lia. }
  split; [exact Hstep|].
  unfold sampled_frames. rewrite length_map, length_seq.
  set (c := ((stop - start + step - 1) / step)%Z).
  destruct (Z_le_gt_dec c 0) as [Hc|Hc].
  - replace (Z.to_nat c) with 0%nat by lia. cbn. lra.
  - rewrite INR_IZR_INZ, Z2Nat.id by lia.
    assert (Hmul : (step * c <= stop - start + step - 1)%Z)
      by (apply Z.mul_div_le; lia).
    assert (Hmul' : (step * c <= e - start + step - 1)%Z) by lia.
    apply IZR_le in Hmul'.
    rewrite mult_IZR, minus_IZR, plus_IZR in Hmul'.
    assert (Hc1 : 1 <= IZR c) by (apply IZR_le; lia).
    unfold step in Hmul'. destruct (Rlt_dec 1 (IZR q)) as [Hq|Hq].
    + assert (IZR q * IZR c < (2 * p + 1) * IZR q) by nra.
      nra.
    + nra.
Qed.

(** A fraction of the duration, scaled by the length of the track and
    rounded at each operation as the code does, is an index of
    [[0, length]]. *)
Lemma scaled_index (x duration : R) (T : nat) :
  0 < duration -> 0 <= x <= duration -> (Z.of_nat T < 2 ^ 52)%Z ->
  let y := float64 (float64 (x / duration) * INR T) in
  Float64 (Float64 (Fin x / Fin duration) * Fin (INR T))%num = Fin y
  /\ 0 <= y <= INR T.
Proof.
  intros Hd Hx HT y.
  assert (HT0 : 0 <= INR T) by apply pos_INR.
  assert (HTb : INR T <= IZR (2 ^ 53)).
  { rewrite INR_IZR_INZ. apply IZR_le. lia. }
  assert (Hq : 0 <= x / duration <= 1).
  { split; [apply Rdiv_nonneg; lra|].
    apply Rmult_le_reg_r with duration; [lra|]. unfold Rdiv.
    rewrite Rmult_assoc, Rinv_l by lra. lra. }
  pose proof (float64_mono _ _ (proj1 Hq)) as Ha0. rewrite float64_0 in Ha0.
  pose proof (float64_mono _ _ (proj2 Hq)) as Ha1. rewrite float64_1 in Ha1.
  set (a := float64 (x / duration)) in *.
  assert (Hp : 0 <= a * INR T <= INR T) by nra.
  pose proof (float64_mono _ _ (proj1 Hp)) as Hb0. rewrite float64_0 in Hb0.
  pose proof (float64_mono _ _ (proj2 Hp)) as Hb1.
  rewrite (INR_IZR_INZ T) in Hb1 at 2. rewrite float64_int in Hb1 by lia.
  rewrite <- INR_IZR_INZ in Hb1.
  split; [|split; assumption].
  rewrite Fin_div by lra. rewrite Float64_small.
  - fold a. cbn [Num.mul]. rewrite Float64_small; [reflexivity|].
    rewrite Rabs_right by lra. lra.
  - rewrite Rabs_right by lra. apply Rle_trans with 1; [lra|].
    apply IZR_le. cbn. lia.
Qed.

(** X25.  The chart data is bounded.  For [points >= 1], a positive
    duration, a visible range inside [[0, duration]] and a first track of
    fewer than [2^52] values, the first and last index of the range are
    indices of [[0, length]], [downsample] returns, with fewer than
    [2 * points + 1] entries; every entry is the one built for a frame
    between the first index of the range and its last index; and without a
    visible channel there is no entry at all.  Each operation of the index
    arithmetic is rounded to a double. *)
Theorem downsample_bounded (ch0 : ChannelState) (rest : list ChannelState)
    (points duration l r : R) :
  1 <= points -> 0 < duration -> 0 <= l <= duration -> 0 <= r <= duration ->
  let chs := ch0 :: rest in
  let T := length (processedValues ch0) in
  (Z.of_nat T < 2 ^ 52)%Z ->
  let start := Zfloor (float64 (float64 (l / duration) * INR T)) in
  let stop := Zceil (float64 (float64 (r / duration) * INR T)) in
  (0 <= start <= Z.of_nat T)%Z /\ (0 <= stop <= Z.of_nat T)%Z
  /\ exists (n : nat) (data : list Timeline.Entry),
    (forall fuel, (n < fuel)%nat ->
       Timeline.downsample fuel chs (Fin points) (Fin duration) (Fin l, Fin r) = Some data)
    /\ INR (length data) < 2 * points + 1
    /\ (existsb visible chs = false -> data = [])
    /\ Forall (fun entry =>
                 exists i, (start <= i < stop)%Z
                   /\ entry = fst (Timeline.entry_of chs (Fin (INR T)) (Fin duration)
                                     (Fin (IZR i))))
              data.
Proof.
  intros Hp Hd Hl Hr chs T HT start stop.
  destruct (scaled_index l duration T Hd Hl HT) as [Hsl Hsb].
  destruct (scaled_index r duration T Hd Hr HT) as [Hel Heb].
  cbv zeta in Hsl, Hsb, Hel, Heb.
  assert (Hstart : (0 <= start <= Z.of_nat T)%Z).
  { unfold start. split.
    - apply Zfloor_lub. cbn. lra.
    - apply le_IZR. rewrite <- INR_IZR_INZ.
      pose proof (Zfloor_bound (float64 (float64 (l / duration) * INR T))). lra. }
  assert (Hstop : (0 <= stop <= Z.of_nat T)%Z).
  { unfold stop. split.
    - apply le_IZR. pose proof (Zceil_bound (float64 (float64 (r / duration) * INR T))).
      apply Rle_trans with (float64 (float64 (r / duration) * INR T)); lra.
    - assert (Zceil (float64 (float64 (r / duration) * INR T)) < Z.of_nat T + 1)%Z; [|lia].
      apply lt_IZR. rewrite plus_IZR, <- INR_IZR_INZ.
      pose proof (Zceil_bound (float64 (float64 (r / duration) * INR T))). lra. }
  split; [exact Hstart|]. split; [exact Hstop|].
  set (x := IZR (stop - start) / points).
  set (q := Zfloor (float64 x)).
  set (step := if Rlt_dec 1 (IZR q) then q else 1%Z).
  assert (Hxabs : Rabs x <= IZR (Z.of_nat T)).
  { assert (Hn : Rabs (IZR (stop - start)) <= IZR (Z.of_nat T)).
    { rewrite <- abs_IZR. apply IZR_le. lia. }
    unfold x, Rdiv. rewrite Rabs_mult, (Rabs_right (/ points)).
    - assert (0 < / points <= 1).
      { split; [apply Rinv_0_lt_compat; lra|].
        rewrite <- Rinv_1. apply Rinv_le_contravar; lra. }
      pose proof (Rabs_pos (IZR (stop - start))). nra.
    - left. apply Rinv_0_lt_compat. lra. }
  assert (HTb : IZR (Z.of_nat T) <= IZR (2 ^ 53)) by (apply IZR_le; lia).
  assert (Hfx : float64 x <= IZR (Z.of_nat T)).
  { rewrite <- (float64_int (Z.of_nat T)) by lia. apply float64_mono.
    pose proof (Rle_abs x). lra. }
  assert (Hq : (q <= Z.of_nat T)%Z).
  { apply le_IZR. pose proof (Zfloor_bound (float64 x)). fold q in H. lra. }
  assert (Hfx' : - IZR (Z.of_nat T) <= float64 x).
  { rewrite <- (float64_int (Z.of_nat T)), <- float64_opp by lia. apply float64_mono.
    pose proof (Rle_abs (- x)) as H. rewrite Rabs_Ropp in H. lra. }
  assert (Hq' : (- Z.of_nat T <= q)%Z).
  { apply Zfloor_lub. rewrite opp_IZR. exact Hfx'. }
  assert (HS : IZR (stop - start) < (IZR q + 1) * points).
  { assert (Hx1 : x < IZR q + 1).
    { destruct (Rlt_dec x (IZR q + 1)) as [|Hge]; [assumption|exfalso].
      assert (Hge' : IZR (q + 1) <= x) by (rewrite plus_IZR; lra).
      apply float64_mono in Hge'. rewrite float64_int in Hge' by lia.
      pose proof (Zfloor_bound (float64 x)) as Hb. fold q in Hb.
      rewrite plus_IZR in Hge'. lra. }
    unfold x in Hx1. apply (Rmult_lt_compat_r points) in Hx1; [|lra].
    unfold Rdiv in Hx1. rewrite Rmult_assoc, Rinv_l, Rmult_1_r in Hx1 by lra.
    exact Hx1. }
  destruct (sampled_frames_count start stop stop q points ltac:(lra) (Z.le_refl _) HS)
    as [Hstep Hcount]. fold step in Hstep, Hcount.
  assert (Hstep' : (step <= Z.max 1 (Z.of_nat T))%Z).
  { unfold step. destruct (Rlt_dec 1 (IZR q)); lia. }
  exists (Z.to_nat (stop - start)).
  exists (if existsb visible chs
          then map (fun j => fst (Timeline.entry_of chs (Fin (INR T)) (Fin duration)
                                    (Fin (IZR j))))
                   (sampled_frames start stop step)
          else []).
  split; [|split; [|split]].
  - intros fuel Hfuel. unfold Timeline.downsample, chs. cbn [fst snd].
    fold T. rewrite Hsl, Hel.
    cbn [Math_floor Math_ceil Num.sub Num.neg Num.add].
    fold start stop.
    replace (IZR stop + - IZR start) with (IZR (stop - start)) by (rewrite minus_IZR; lra).
    rewrite Float64_int by lia.
    rewrite Fin_div by lra. fold x.
    rewrite Float64_small by lra.
    cbn [Math_floor]. fold q.
    replace (Math_max (Fin 1) (Fin (IZR q))) with (Fin (IZR step)).
    + rewrite (downsample_loop_finite (ch0 :: rest) T (Fin duration) stop step Hstep)
        by lia.
      now rewrite Z.min_l by lia.
    + unfold step. cbn. now destruct (Rlt_dec 1 (IZR q)).
  - destruct (existsb visible chs); [|cbn; lra].
    now rewrite length_map.
  - now intros ->.
  - destruct (existsb visible chs); [|constructor].
    apply Forall_map.
    eapply Forall_impl; [exact (sampled_frames_range start stop step Hstep)|].
    intros i Hi. now exists i.
Qed.

Lemma downsample_bounded_witness :
  let ch0 := {| id := "energy"; settings := DEFAULT_REFINEMENT;
                processedValues := [Fin (/ 2); Fin 1; Fin 0]; visible := true;
                mute := false; solo := false; color := "#06b6d4" |}%string in
  let chs := [ch0] in
  let T := length (processedValues ch0) in
  let start := Zfloor (float64 (float64 (0 / 8) * INR T)) in
  let stop := Zceil (float64 (float64 (8 / 8) * INR T)) in
  (0 <= start <= Z.of_nat T)%Z /\ (0 <= stop <= Z.of_nat T)%Z
  /\ exists (n : nat) (data : list Timeline.Entry),
    (forall fuel, (n < fuel)%nat ->
       Timeline.downsample fuel chs (Fin 600) (Fin 8) (Fin 0, Fin 8) = Some data)
    /\ INR (length data) < 2 * 600 + 1
    /\ (existsb visible chs = false -> data = [])
    /\ Forall (fun entry =>
                 exists i, (start <= i < stop)%Z
                   /\ entry = fst (Timeline.entry_of chs (Fin (INR T)) (Fin 8)
                                     (Fin (IZR i))))
              data.
Proof.
  intros ch0 chs T start stop.
  apply (downsample_bounded ch0 [] 600 8 0 8); try lra. cbn. lia.
Defined.
